(** * KeyQuest: the adaptive quiz engine (src/adaptivequiz.cpp)

    A shallow embedding of the Q-learning question-selection engine
    [AdaptiveQuiz] together with the value types it works on
    ([State] of src/state.h, [Question] of src/question.h), and the
    properties of the engine stated in the specification.

    Conventions of the embedding
    - C++ [int] is [Z].  Signed overflow is undefined in C++; lemma
      [int_fields_in_range] shows that the session counters of an engine
      that was built by the constructor stay inside the 32-bit range for any
      session of fewer than 2^31 answers, so the arithmetic below is the
      arithmetic of the program.  The levels of a [State] come from the
      caller: the sums [level + stretchAmount] of [getActionsForStateLevel]
      and [notes + chords + scales] of [getNextAction] are the sums of the
      program where they do not overflow, and the properties that depend on
      their value take the levels in [0,2] ([in_range]).
    - C++ [float] is IEEE-754 binary32, given by the Standard Library's
      executable specification [SpecFloat] at precision 24 and [emax] 128,
      rounding to nearest even, every operation rounded on its own as written
      in the source.
    - [std::map<int, T>] is [gmap Z T]; iteration (ascending keys) goes
      through [sorted_keys].  [std::unordered_set<int>] is [gset Z].
    - The member functions become functions from an [Engine] to the new
      [Engine] (and a result).  [rand()] results are explicit arguments.

    The second part of the definitions embeds what the quiz page puts around
    the engine: the keys and JSON records under which the Q-table, the user
    state, the questions and the quiz report are stored, and the verdict on
    the notes played; its conventions are given where it starts. *)

From Stdlib Require Import ZArith Lia Bool List.
From Stdlib Require Import Floats.SpecFloat.
From Stdlib Require Import Strings.Ascii Strings.String.
From Stdlib Require Import Numbers.DecimalString Numbers.DecimalZ.
From stdpp Require Import base decidable option list sorting gmap strings.

Local Open Scope Z_scope.

(** ** binary32 *)

Module F32.

Definition prec : Z := 24.
Definition emax : Z := 128.

Definition add : spec_float → spec_float → spec_float := SFadd prec emax.
Definition sub : spec_float → spec_float → spec_float := SFsub prec emax.
Definition mul : spec_float → spec_float → spec_float := SFmul prec emax.
Definition div : spec_float → spec_float → spec_float := SFdiv prec emax.

(** [a < b] and [a > b] of C++: false as soon as one side is NaN. *)
Definition ltb (a b : spec_float) : bool := SFltb a b.
Definition gtb (a b : spec_float) : bool := SFltb b a.
Definition leb (a b : spec_float) : bool := SFleb a b.

(** [(float) n] for an [int] n. *)
Definition of_int (n : Z) : spec_float := binary_normalize prec emax n 0 false.

Definition zero : spec_float := S754_zero false.          (* 0.0f *)
Definition c0_1 : spec_float := S754_finite false 13421773 (-27).  (* 0.1f *)
Definition c0_9 : spec_float := S754_finite false 15099494 (-24).  (* 0.9f *)
Definition c0_7 : spec_float := S754_finite false 11744051 (-24).  (* 0.7f *)
Definition c0_5 : spec_float := S754_finite false 8388608 (-24).   (* 0.5f *)
Definition c2_5 : spec_float := S754_finite false 10485760 (-22).  (* 2.5f *)
Definition c5 : spec_float := S754_finite false 10485760 (-21).    (* 5.0f *)
Definition c10 : spec_float := S754_finite false 10485760 (-20).   (* 10.0f *)
Definition cm2_5 : spec_float := S754_finite true 10485760 (-22).  (* -2.5f *)
Definition cm1e9 : spec_float := S754_finite true 15625000 6.      (* (float) -1e9 *)

Definition is_nan (a : spec_float) : bool :=
  match a with S754_nan => true | _ => false end.

End F32.

#[global] Instance spec_float_eq_dec : EqDecision spec_float.
Proof. solve_decision. Defined.

(** ** Containers of the standard library *)

Section StdMap.
Context {K : Type} `{Countable K} {A : Type}.

(** [m[k]] of [std::map]: the stored value, or a freshly inserted
    value-initialised one when the key is absent. *)
Definition map_index (dflt : A) (m : gmap K A) (k : K) : A * gmap K A :=
  match m !! k with
  | Some v => (v, m)
  | None => (dflt, <[k := dflt]> m)
  end.
End StdMap.

(** Keys of a [std::map<int, T>] in the order a range-for visits them. *)
Definition sorted_keys {A : Type} (m : gmap Z A) : list Z :=
  merge_sort Z.le (map fst (map_to_list m)).

(** ** src/state.h *)

Record State : Type := mkState { notes : Z; chords : Z; scales : Z }.

#[global] Instance State_eq_dec : EqDecision State.
Proof. solve_decision. Defined.

#[global] Instance State_countable : Countable State :=
  inj_countable' (λ s, (notes s, chords s, scales s))
                 (λ t, mkState t.1.1 t.1.2 t.2)
                 (λ s, match s with mkState _ _ _ => eq_refl end).

(** [State::operator<] : lexicographic on notes, chords, scales. *)
Definition State_lt (a b : State) : bool :=
  if notes a <? notes b then true
  else if notes b <? notes a then false
  else if chords a <? chords b then true
  else if chords b <? chords a then false
  else scales a <? scales b.

(** ** src/question.h *)

Record Question : Type := mkQuestion {
  questionID : Z;
  topicID : Z;
  description : string;
  expectedInput : string;
  title : string;
  difficulty : Z;
  topicName : string
}.

(** [Question()] as [std::map::operator[]] and [getQuestion] build it: the
    defaulted constructor is not user-provided, so value-initialisation
    zeroes the integers; the strings are empty. *)
Definition default_Question : Question := mkQuestion 0 0 "" "" "" 0 "".

(** ** src/adaptivequiz.h *)

Abbreviation QRow := (gmap Z spec_float).
Abbreviation QTable := (gmap State (gmap Z spec_float)).
Abbreviation HistoryEntry := (State * Z * string * bool)%type.

Record Engine : Type := mkEngine {
  q_table : QTable;
  state : State;
  questionBankByID : gmap Z Question;
  history : list HistoryEntry;
  askedQuestionsThisSession : gset Z;
  correctCounts : gmap Z Z;
  incorrectCounts : gmap Z Z;
  score : spec_float;
  correctAnswers : Z;
  totalQuestions : Z;
  (** the [highlightKeys] signals emitted so far, oldest first *)
  highlightKeys : list bool
}.

(** [lr], [df] and the two thresholds are set by the constructor and never
    assigned again. *)
Definition lr : spec_float := F32.c0_1.
Definition df : spec_float := F32.c0_9.
Definition correctThreshold : Z := 4.
Definition incorrectThreshold : Z := 4.

(** [RAND_MAX] of the C library (glibc's value; the results below use it
    only through [explore_draw]). *)
Definition RAND_MAX : Z := 2147483647.

(** ** src/adaptivequiz.cpp *)

Definition AdaptiveQuiz (questionBank : gmap Z Question) (qTable : QTable)
    (initialState : State) : Engine :=
  {| q_table := qTable; state := initialState;
     questionBankByID := questionBank; history := [];
     askedQuestionsThisSession := ∅; correctCounts := ∅;
     incorrectCounts := ∅; score := F32.zero; correctAnswers := 0;
     totalQuestions := 0; highlightKeys := [] |}.

(** The condition of the [if] in [getActionsForStateLevel].  The sums are
    those of the program for levels below the largest [int]. *)
Definition fits (st : State) (stretchAmount : Z) (q : Question) : bool :=
  ((topicID q =? 101) && (difficulty q <=? notes st + stretchAmount))
  || ((102 <=? topicID q) && (topicID q <=? 103)
      && (difficulty q <=? chords st + stretchAmount))
  || ((104 <=? topicID q) && (difficulty q <=? scales st + stretchAmount)).

Definition actions_of (bank : gmap Z Question) (st : State)
    (allowSlightStretch : bool) : list Z :=
  let stretchAmount := if allowSlightStretch then 1 else 0 in
  List.filter
    (λ qid, match bank !! qid with
            | Some q => fits st stretchAmount q
            | None => false
            end)
    (sorted_keys bank).

Definition getActionsForStateLevel (e : Engine) (allowSlightStretch : bool)
    : list Z :=
  actions_of (questionBankByID e) (state e) allowSlightStretch.

Definition getCurrentState (e : Engine) : State := state e.

Definition getQuestion (e : Engine) (qid : Z) : Question :=
  match questionBankByID e !! qid with
  | Some q => q
  | None => default_Question
  end.

Definition getReward (before after : State) (correct : bool) : spec_float :=
  if correct && ((notes after >? notes before)
                 || (chords after >? chords before)
                 || (scales after >? scales before))
  then F32.c5
  else if correct then F32.c2_5
  else F32.cm2_5.

(** The loop of [maxQValue] over one row. *)
Definition max_scan (row : QRow) (keys : list Z) (maxQ : spec_float)
    : spec_float :=
  fold_left
    (λ maxQ k, match row !! k with
               | Some q => if F32.gtb q maxQ then q else maxQ
               | None => maxQ
               end)
    keys maxQ.

Definition maxQValue (t : QTable) (s : State) : spec_float :=
  match t !! s with
  | None => F32.zero
  | Some row => max_scan row (sorted_keys row) F32.zero
  end.

(** [q_table[s][a]]: both subscripts insert when the key is absent. *)
Definition q_index (t : QTable) (s : State) (a : Z) : spec_float * QTable :=
  let '(row, t1) := map_index ∅ t s in
  let '(v, row1) := map_index F32.zero row a in
  (v, <[s := row1]> t1).

Definition getQValue (t : QTable) (s : State) (a : Z) : spec_float :=
  match t !! s with
  | Some row => match row !! a with Some v => v | None => F32.zero end
  | None => F32.zero
  end.

Definition getQTable (e : Engine) : QTable := q_table e.

Definition updateQTable (t : QTable) (currentState : State) (qid : Z)
    (reward : spec_float) (nextState : State) : QTable :=
  let '(q, t1) := q_index t currentState qid in
  let nextMax := maxQValue t1 nextState in
  let q' := F32.add q (F32.mul lr (F32.sub (F32.add reward (F32.mul df nextMax)) q)) in
  <[currentState := <[qid := q']> (default ∅ (t1 !! currentState))]> t1.

(** Field updates of the engine. *)
Definition with_bank (e : Engine) (b : gmap Z Question) : Engine :=
  {| q_table := q_table e; state := state e; questionBankByID := b;
     history := history e;
     askedQuestionsThisSession := askedQuestionsThisSession e;
     correctCounts := correctCounts e; incorrectCounts := incorrectCounts e;
     score := score e; correctAnswers := correctAnswers e;
     totalQuestions := totalQuestions e; highlightKeys := highlightKeys e |}.

Definition with_counts (e : Engine) (cc ic : gmap Z Z) : Engine :=
  {| q_table := q_table e; state := state e;
     questionBankByID := questionBankByID e; history := history e;
     askedQuestionsThisSession := askedQuestionsThisSession e;
     correctCounts := cc; incorrectCounts := ic;
     score := score e; correctAnswers := correctAnswers e;
     totalQuestions := totalQuestions e; highlightKeys := highlightKeys e |}.

Definition with_asked (e : Engine) (a : gset Z) : Engine :=
  {| q_table := q_table e; state := state e;
     questionBankByID := questionBankByID e; history := history e;
     askedQuestionsThisSession := a;
     correctCounts := correctCounts e; incorrectCounts := incorrectCounts e;
     score := score e; correctAnswers := correctAnswers e;
     totalQuestions := totalQuestions e; highlightKeys := highlightKeys e |}.

Definition with_q_table (e : Engine) (t : QTable) : Engine :=
  {| q_table := t; state := state e;
     questionBankByID := questionBankByID e; history := history e;
     askedQuestionsThisSession := askedQuestionsThisSession e;
     correctCounts := correctCounts e; incorrectCounts := incorrectCounts e;
     score := score e; correctAnswers := correctAnswers e;
     totalQuestions := totalQuestions e; highlightKeys := highlightKeys e |}.

Definition with_state (e : Engine) (s : State) : Engine :=
  {| q_table := q_table e; state := s;
     questionBankByID := questionBankByID e; history := history e;
     askedQuestionsThisSession := askedQuestionsThisSession e;
     correctCounts := correctCounts e; incorrectCounts := incorrectCounts e;
     score := score e; correctAnswers := correctAnswers e;
     totalQuestions := totalQuestions e; highlightKeys := highlightKeys e |}.

(** [int points = 1; if (difficulty == 1) points = 2; if (difficulty == 2) points = 3;] *)
Definition points_of (difficulty : Z) : Z :=
  let points := 1 in
  let points := if difficulty =? 1 then 2 else points in
  if difficulty =? 2 then 3 else points.

(** The three promotion statements, in the order of the source. *)
Definition promote (topic : Z) (s : State) : State :=
  let s := if (topic =? 101) && (notes s <? 2)
           then mkState (notes s + 1) (chords s) (scales s) else s in
  let s := if (topic >=? 102) && (topic <=? 103) && (chords s <? 2)
           then mkState (notes s) (chords s + 1) (scales s) else s in
  if (topic >=? 104) && (scales s <? 2)
  then mkState (notes s) (chords s) (scales s + 1) else s.

(** The three demotion statements, in the order of the source. *)
Definition demote (topic : Z) (s : State) : State :=
  let s := if (topic =? 101) && (notes s >? 0)
           then mkState (notes s - 1) (chords s) (scales s) else s in
  let s := if (topic >=? 102) && (topic <=? 103) && (chords s >? 0)
           then mkState (notes s) (chords s - 1) (scales s) else s in
  if (topic >=? 104) && (scales s >? 0)
  then mkState (notes s) (chords s) (scales s - 1) else s.

(** [updateState] takes the state to update by reference; the result pairs
    the engine (bank and streak counters) with the updated state. *)
Definition updateState (e : Engine) (qid : Z) (correct : bool)
    (currentState : State) : Engine * State :=
  let '(q1, bank1) := map_index default_Question (questionBankByID e) qid in
  let difficulty := difficulty q1 in
  let '(q2, bank2) := map_index default_Question bank1 qid in
  let topicID := topicID q2 in
  let points := points_of difficulty in
  if correct then
    let '(c, cc1) := map_index 0 (correctCounts e) qid in
    let cc2 := <[qid := c + points]> cc1 in
    let ic1 := <[qid := 0]> (incorrectCounts e) in
    let '(c', cc3) := map_index 0 cc2 qid in
    if c' >=? correctThreshold then
      (with_counts (with_bank e bank2) (<[qid := 0]> cc3) ic1,
       promote topicID currentState)
    else (with_counts (with_bank e bank2) cc3 ic1, currentState)
  else
    let '(i, ic1) := map_index 0 (incorrectCounts e) qid in
    let ic2 := <[qid := i + 1]> ic1 in
    let cc1 := <[qid := 0]> (correctCounts e) in
    let '(i', ic3) := map_index 0 ic2 qid in
    if i' >=? incorrectThreshold then
      (with_counts (with_bank e bank2) cc1 (<[qid := 0]> ic3),
       demote topicID currentState)
    else (with_counts (with_bank e bank2) cc1 ic3, currentState).

Definition evaluateResponse (e : Engine) (qid : Z) (correct : bool) : Engine :=
  let '(q, bank1) := map_index default_Question (questionBankByID e) qid in
  let history1 := history e ++ [(state e, qid, description q, correct)] in
  let totalQuestions1 := totalQuestions e + 1 in
  let correctAnswers1 := if correct then correctAnswers e + 1 else correctAnswers e in
  let score1 :=
    if correct then F32.add (score e) F32.c10
    else
      let s := F32.sub (score e) F32.c5 in
      if F32.ltb s F32.zero then F32.zero else s in
  let emitted1 := highlightKeys e ++ [correct] in
  let e1 :=
    {| q_table := q_table e; state := state e; questionBankByID := bank1;
       history := history1;
       askedQuestionsThisSession := askedQuestionsThisSession e;
       correctCounts := correctCounts e; incorrectCounts := incorrectCounts e;
       score := score1; correctAnswers := correctAnswers1;
       totalQuestions := totalQuestions1; highlightKeys := emitted1 |} in
  let stateBefore := state e1 in
  let '(e2, state2) := updateState e1 qid correct (state e1) in
  let e3 := with_state e2 state2 in
  let reward := getReward stateBefore (state e3) correct in
  let e4 := with_q_table e3 (updateQTable (q_table e3) stateBefore qid reward (state e3)) in
  with_asked e4 ({[qid]} ∪ askedQuestionsThisSession e4).

(** *** [getNextAction] *)

Definition avgLevel (s : State) : Z := Z.quot (notes s + chords s + scales s) 3.

Definition epsilon_of (avg : Z) : spec_float :=
  if avg =? 0 then F32.c0_9
  else if avg =? 1 then F32.c0_7
  else F32.c0_5.

(** [((float)rand() / RAND_MAX) < epsilon] for the value [r] drawn by [rand()]. *)
Definition explore_draw (s : State) (r : Z) : bool :=
  F32.ltb (F32.div (F32.of_int r) (F32.of_int RAND_MAX)) (epsilon_of (avgLevel s)).

Definition nonempty {A} (l : list A) : bool :=
  match l with [] => false | _ => true end.

(** The first loop: candidates not asked yet in this session. *)
Definition not_asked (asked : gset Z) (candidates : list Z) : list Z :=
  List.filter (λ qid, negb (bool_decide (qid ∈ asked))) candidates.

(** [if (filteredCandidates.empty()) { askedQuestionsThisSession.clear();
    filteredCandidates = candidates; }]: the asked-set and the pool after it. *)
Definition session_filter (asked : gset Z) (candidates : list Z)
    : gset Z * list Z :=
  let filtered := not_asked asked candidates in
  if nonempty filtered then (asked, filtered) else (∅, candidates).

(** The bucketing loop of the explore branch; [questionBankByID[qid]] is the
    inserting subscript, so the bank is threaded through. *)
Definition bucket_step (acc : gmap Z Question * list Z * list Z * list Z)
    (qid : Z) : gmap Z Question * list Z * list Z * list Z :=
  let '(bank, notesQ, chordsQ, scalesQ) := acc in
  let '(q, bank1) := map_index default_Question bank qid in
  let tid := topicID q in
  if tid =? 101 then (bank1, notesQ ++ [qid], chordsQ, scalesQ)
  else if (tid >=? 101) && (tid <=? 102) then (bank1, notesQ, chordsQ ++ [qid], scalesQ)
  else if tid =? 104 then (bank1, notesQ, chordsQ, scalesQ ++ [qid])
  else (bank1, notesQ, chordsQ, scalesQ).

Definition buckets (bank : gmap Z Question) (filteredCandidates : list Z)
    : gmap Z Question * list Z * list Z * list Z :=
  fold_left bucket_step filteredCandidates (bank, [], [], []).

(** [v[r % v.size()]] for a draw [r] of [rand()] (never negative). *)
Definition pick (v : list Z) (r : Z) : option Z :=
  v !! Z.to_nat (r mod Z.of_nat (length v)).

(** The loop of the exploit branch; [q_table[state][qid]] inserts. *)
Definition exploit_step (st : State) (acc : QTable * spec_float * Z)
    (qid : Z) : QTable * spec_float * Z :=
  let '(t, bestValue, bestQID) := acc in
  let '(q, t1) := q_index t st qid in
  if F32.gtb q bestValue then (t1, q, qid) else (t1, bestValue, bestQID).

Definition exploit_scan (t : QTable) (st : State) (filteredCandidates : list Z)
    (first : Z) : QTable * spec_float * Z :=
  fold_left (exploit_step st) filteredCandidates (t, F32.cm1e9, first).

(** [getNextAction], for the three values [r1], [r2], [r3] that the
    successive calls of [rand()] return (the last two are drawn in the explore
    branch only).  [None] is undefined behaviour: [begin()] of an empty bank
    is its [end()], which the fallback dereferences. *)
Definition getNextAction (e : Engine) (r1 r2 r3 : Z) : option (Z * Engine) :=
  let explore := explore_draw (state e) r1 in
  let candidates := getActionsForStateLevel e explore in
  let '(asked1, filteredCandidates) :=
    session_filter (askedQuestionsThisSession e) candidates in
  let e1 := with_asked e asked1 in
  match filteredCandidates with
  | [] =>
      match sorted_keys (questionBankByID e1) with
      | [] => None
      | k :: _ => Some (k, e1)
      end
  | first :: _ =>
      if explore then
        let '(bank1, notesQ, chordsQ, scalesQ) :=
          buckets (questionBankByID e1) filteredCandidates in
        let e2 := with_bank e1 bank1 in
        let choice := Z.rem r2 3 in
        let group :=
          if (choice =? 0) && nonempty notesQ then Some notesQ
          else if (choice =? 1) && nonempty chordsQ then Some chordsQ
          else if (choice =? 2) && nonempty scalesQ then Some scalesQ
          else None in
        match group with
        | Some g =>
            if nonempty g then (λ id, (id, e2)) <$> pick g r3
            else (λ id, (id, e2)) <$> pick filteredCandidates r3
        | None => (λ id, (id, e2)) <$> pick filteredCandidates r3
        end
      else
        let '(t1, _, bestQID) :=
          exploit_scan (q_table e1) (state e1) filteredCandidates first in
        Some (bestQID, with_q_table e1 t1)
  end.

(** Accessors. *)
Definition getCorrectAnswers (e : Engine) : Z := correctAnswers e.
Definition getTotalQuestions (e : Engine) : Z := totalQuestions e.
Definition getScore (e : Engine) : spec_float := score e.
Definition getHistory (e : Engine) : list HistoryEntry := history e.

(** ** A small session for the examples *)

Module Demo.
Definition q1 : Question := mkQuestion 1 101 "play C" "C4" "Note C" 0 "notes".
Definition q2 : Question := mkQuestion 2 102 "play C major" "C4-E4-G4" "C major" 0 "chords".
Definition q3 : Question := mkQuestion 3 104 "play C scale" "C4-D4-E4" "C scale" 0 "scales".
Definition bank : gmap Z Question := <[1 := q1]> (<[2 := q2]> (<[3 := q3]> ∅)).
Definition s0 : State := mkState 0 0 0.
Definition engine : Engine := AdaptiveQuiz bank ∅ s0.
End Demo.

(** ** Notions used in the statements and proofs *)

(** Some domain of [after] is strictly above the same domain of [before]. *)
Definition improved (before after : State) : Prop :=
  notes before < notes after ∨ chords before < chords after
  ∨ scales before < scales after.

(** The three levels are within 0..2. *)
Definition in_range (s : State) : Prop :=
  0 ≤ notes s ≤ 2 ∧ 0 ≤ chords s ≤ 2 ∧ 0 ≤ scales s ≤ 2.

#[global] Instance in_range_dec s : Decision (in_range s).
Proof. unfold in_range. apply _. Defined.

(** The bank after [questionBankByID[qid]] has been evaluated. *)
Definition bank_after_index (bank : gmap Z Question) (qid : Z) : gmap Z Question :=
  snd (map_index default_Question bank qid).

(** The streak of [qid] after the answer, before the threshold test. *)
Definition streak_after (e : Engine) (qid : Z) (correct : bool) : Z :=
  if correct
  then default 0 (correctCounts e !! qid)
       + points_of (difficulty (getQuestion e qid))
  else default 0 (incorrectCounts e !! qid) + 1.

(** The test [correctCounts[questionID] >= correctThreshold], or its
    counterpart for an incorrect answer. *)
Definition threshold_reached (e : Engine) (qid : Z) (correct : bool) : bool :=
  streak_after e qid correct
    >=? (if correct then correctThreshold else incorrectThreshold).

(** The state and the streak maps that [updateState] leaves. *)
Definition next_state (e : Engine) (qid : Z) (correct : bool) (s : State) : State :=
  if threshold_reached e qid correct then
    (if correct then promote else demote) (topicID (getQuestion e qid)) s
  else s.

Definition next_correctCounts (e : Engine) (qid : Z) (correct : bool) : gmap Z Z :=
  if correct && negb (threshold_reached e qid correct)
  then <[qid := streak_after e qid correct]> (correctCounts e)
  else <[qid := 0]> (correctCounts e).

Definition next_incorrectCounts (e : Engine) (qid : Z) (correct : bool) : gmap Z Z :=
  if negb correct && negb (threshold_reached e qid correct)
  then <[qid := streak_after e qid correct]> (incorrectCounts e)
  else <[qid := 0]> (incorrectCounts e).

(** The table after [q_table[s][a]] has been evaluated. *)
Definition q_touch (t : QTable) (s : State) (a : Z) : QTable :=
  snd (q_index t s a).

(** The table after the exploit loop has touched every id of [pool]. *)
Definition q_touch_all (t : QTable) (s : State) (pool : list Z) : QTable :=
  fold_left (λ t a, q_touch t s a) pool t.

(** The scan over the values [Q] that the subscripts report. *)
Definition best_scan (Q : Z → spec_float) (l : list Z)
    (bestValue : spec_float) (bestQID : Z) : spec_float * Z :=
  fold_left
    (λ acc qid, if F32.gtb (Q qid) acc.1 then (Q qid, qid) else acc)
    l (bestValue, bestQID).

(** The id chosen by the explore branch. *)
Definition explore_choice (bank : gmap Z Question) (pool : list Z)
    (r2 r3 : Z) : option Z :=
  let '(_, notesQ, chordsQ, scalesQ) := buckets bank pool in
  let choice := Z.rem r2 3 in
  if (choice =? 0) && nonempty notesQ then pick notesQ r3
  else if (choice =? 1) && nonempty chordsQ then pick chordsQ r3
  else if (choice =? 2) && nonempty scalesQ then pick scalesQ r3
  else pick pool r3.

(** The pool that [getNextAction] scans in the exploit branch. *)
Definition exploit_pool (e : Engine) : list Z :=
  (session_filter (askedQuestionsThisSession e)
     (getActionsForStateLevel e false)).2.

(** A session is a sequence of calls from the quiz page. *)
Inductive Call : Type :=
  | CallNext (r1 r2 r3 : Z)
  | CallEvaluate (qid : Z) (correct : bool).

(** [None] when a call has no defined result. *)
Definition call (e : Engine) (c : Call) : option Engine :=
  match c with
  | CallNext r1 r2 r3 => snd <$> getNextAction e r1 r2 r3
  | CallEvaluate qid correct => Some (evaluateResponse e qid correct)
  end.

Fixpoint run (e : Engine) (calls : list Call) : option Engine :=
  match calls with
  | [] => Some e
  | c :: calls => call e c ≫= λ e', run e' calls
  end.

(** A sequence of answers alone. *)
Definition evaluate_all (e : Engine) (answers : list (Z * bool)) : Engine :=
  fold_left (λ e a, evaluateResponse e a.1 a.2) answers e.

Module DemoHard.
(** A bank of one advanced question, for a beginner: no candidate. *)
Definition q7 : Question := mkQuestion 7 101 "play C sharp" "C#4" "Note C#" 2 "notes".
Definition bank : gmap Z Question := {[7 := q7]}.
Definition engine : Engine := AdaptiveQuiz bank ∅ Demo.s0.
End DemoHard.

(** [QuizWidget::startQuiz] (src/quizwidget.cpp), as far as the engine is
    concerned: with an empty bank it warns and returns, otherwise it builds
    the engine. *)
Definition startQuiz (questionBank : gmap Z Question) (qTable : QTable)
    (userState : State) : option Engine :=
  if bool_decide (questionBank = ∅) then None
  else Some (AdaptiveQuiz questionBank qTable userState).

Module DemoAsked.
(** A bank of one question, answered once: the only candidate has been
    asked. *)
Definition bank : gmap Z Question := {[1 := Demo.q1]}.
Definition engine : Engine :=
  evaluateResponse (AdaptiveQuiz bank ∅ Demo.s0) 1 true.
End DemoAsked.

(** One iteration of the loop of [maxQValue]. *)
Definition max_step (row : QRow) (maxQ : spec_float) (k : Z) : spec_float :=
  match row !! k with
  | Some q => if F32.gtb q maxQ then q else maxQ
  | None => maxQ
  end.

(** The value [updateQTable] stores. *)
Definition q_target (old r nextMax : spec_float) : spec_float :=
  F32.add old (F32.mul lr (F32.sub (F32.add r (F32.mul df nextMax)) old)).

(** The skill domain a topic belongs to, as the specification words it:
    101 is notes, 102 and 103 are chords, 104 and above are scales. *)
Inductive Domain : Type := Notes | Chords | Scales.

Definition spec_domain (topic : Z) : option Domain :=
  if decide (topic = 101) then Some Notes
  else if decide (102 ≤ topic ≤ 103) then Some Chords
  else if decide (104 ≤ topic) then Some Scales
  else None.

Definition level (d : Domain) (s : State) : Z :=
  match d with Notes => notes s | Chords => chords s | Scales => scales s end.

Definition set_level (d : Domain) (v : Z) (s : State) : State :=
  match d with
  | Notes => mkState v (chords s) (scales s)
  | Chords => mkState (notes s) v (scales s)
  | Scales => mkState (notes s) (chords s) v
  end.

(** "increments the domain of the topic unless it is already 2" *)
Definition spec_raise (topic : Z) (s : State) : State :=
  match spec_domain topic with
  | Some d => if decide (level d s = 2) then s else set_level d (level d s + 1) s
  | None => s
  end.

(** "decrements that domain unless it is already 0" *)
Definition spec_lower (topic : Z) (s : State) : State :=
  match spec_domain topic with
  | Some d => if decide (level d s = 0) then s else set_level d (level d s - 1) s
  | None => s
  end.

(** Bounds on the integers an engine holds. *)
Definition counters_bounded (e : Engine) : Prop :=
  in_range (state e) ∧
  0 ≤ correctAnswers e ≤ totalQuestions e ∧
  (∀ k v, correctCounts e !! k = Some v → 0 ≤ v ≤ 3) ∧
  (∀ k v, incorrectCounts e !! k = Some v → 0 ≤ v ≤ 3).

(** ** The rest of src/adaptivequiz.cpp and its callers *)

(** 100.0f *)
Definition c100 : spec_float := S754_finite false 13107200 (-17).

(** [getAccuracy]:
    [totalQuestions == 0 ? 0.0f
       : static_cast<float>(correctAnswers) / totalQuestions * 100.0f]. *)
Definition getAccuracy (e : Engine) : spec_float :=
  if totalQuestions e =? 0 then F32.zero
  else F32.mul (F32.div (F32.of_int (correctAnswers e))
                        (F32.of_int (totalQuestions e))) c100.

(** The score statement of [evaluateResponse] on its own:
    [score += 10.0f], or [score -= 5.0f; if (score < 0.0f) score = 0.0f]. *)
Definition score_step (score : spec_float) (correct : bool) : spec_float :=
  if correct then F32.add score F32.c10
  else if F32.ltb (F32.sub score F32.c5) F32.zero then F32.zero
       else F32.sub score F32.c5.

(** Zero of either sign, a positive finite value or plus infinity. *)
Definition nonneg (x : spec_float) : bool :=
  match x with
  | S754_zero _ => true
  | S754_infinity s | S754_finite s _ _ => negb s
  | S754_nan => false
  end.

(** The score in whole points: ten for a correct answer, five off for an
    incorrect one but never below zero. *)
Definition points_step (k : Z) (correct : bool) : Z :=
  if correct then k + 10 else Z.max 0 (k - 5).

Definition score_points (answers : list (Z * bool)) : Z :=
  fold_left (λ k a, points_step k a.2) answers 0.

(** The number of answers flagged correct. *)
Definition count_correct (answers : list (Z * bool)) : Z :=
  Z.of_nat (length (List.filter snd answers)).

(** The ids of [pool] whose question has topic [topic]. *)
Definition of_topic (bank : gmap Z Question) (topic : Z) (pool : list Z) : list Z :=
  List.filter
    (λ qid, match bank !! qid with
            | Some q => topicID q =? topic
            | None => false
            end) pool.

(** The stored entry of a pair in the table, if any. *)
Definition q_entry (t : QTable) (s : State) (a : Z) : option spec_float :=
  (t !! s) ≫= (λ row, row !! a).

(** The streak of an id, 0 when it has none. *)
Definition streak (counts : gmap Z Z) (qid : Z) : Z := default 0 (counts !! qid).

(** At most one streak of an id is running, and none is at the threshold. *)
Definition streaks_ok (e : Engine) : Prop :=
  ∀ k, (streak (correctCounts e) k = 0 ∨ streak (incorrectCounts e) k = 0)
       ∧ 0 ≤ streak (correctCounts e) k ≤ 3
       ∧ 0 ≤ streak (incorrectCounts e) k ≤ 3.

(** The checks behind the bounded results on score and accuracy. *)
Definition score_table_ok (n : nat) : bool :=
  forallb
    (λ j, let k := 5 * Z.of_nat j in
          bool_decide (score_step (F32.of_int k) true = F32.of_int (k + 10))
          && bool_decide (score_step (F32.of_int k) false
                          = F32.of_int (Z.max 0 (k - 5))))
    (seq 0 n).

Definition accuracy_of (correct total : Z) : spec_float :=
  F32.mul (F32.div (F32.of_int correct) (F32.of_int total)) c100.

Definition accuracy_row_ok (total : Z) : bool :=
  forallb
    (λ j, let c := Z.of_nat j in
          let a := accuracy_of c total in
          negb (F32.is_nan a)
          && F32.leb F32.zero a && F32.leb a c100
          && bool_decide (a = F32.zero ↔ c = 0)
          && bool_decide (a = c100 ↔ c = total))
    (seq 0 (S (Z.to_nat total))).

Definition accuracy_table_ok (n : nat) : bool :=
  forallb (λ t, accuracy_row_ok (Z.of_nat (S t))) (seq 0 n).

(** Four answers to the demo bank, three of them correct. *)
Definition sample_answers : list (Z * bool) :=
  [(1, true); (2, true); (2, false); (3, true)].

(** *** src/quizwidget.cpp: the quiz page around the engine *)

Definition NUM_QUIZ_QUESTIONS : Z := 10.

(** The members of [QuizWidget] that [startQuiz] and [submitChord] use;
    [quizOver] records that [handleQuizOver] has run. *)
Record Page : Type := mkPage {
  quiz : Engine;
  currentQuestionId : Z;
  questionsAnswered : Z;
  quizOver : bool
}.

(** [startQuiz] with the loaded bank, Q-table and user state: nothing is
    started on an empty bank; otherwise the engine is built and the first
    question is drawn.  The outer [None] is "no quiz". *)
Definition page_start (questionBank : gmap Z Question) (qTable : QTable)
    (userState : State) (r1 r2 r3 : Z) : option Page :=
  quiz0 ← startQuiz questionBank qTable userState;
  '(id, quiz1) ← getNextAction quiz0 r1 r2 r3;
  Some (mkPage quiz1 id 0 false).

(** [submitChord] once the answer has been judged [correct]: the answer is
    evaluated for the current question, then the quiz ends after
    [NUM_QUIZ_QUESTIONS] answers or the next question is drawn. *)
Definition page_submit (p : Page) (correct : bool) (r1 r2 r3 : Z)
    : option Page :=
  let quiz1 := evaluateResponse (quiz p) (currentQuestionId p) correct in
  let answered := questionsAnswered p + 1 in
  if answered >=? NUM_QUIZ_QUESTIONS then
    Some (mkPage quiz1 (currentQuestionId p) answered true)
  else
    '(id, quiz2) ← getNextAction quiz1 r1 r2 r3;
    Some (mkPage quiz2 id answered (quizOver p)).

(** A quiz of the page: the draws of [startQuiz], then one judged answer
    with its draws per submission. *)
Fixpoint page_run (p : Page) (subs : list (bool * (Z * Z * Z))) : option Page :=
  match subs with
  | [] => Some p
  | (correct, (r1, r2, r3)) :: subs =>
      p' ← page_submit p correct r1 r2 r3; page_run p' subs
  end.

(** What holds of the page after [n] submissions of a quiz on [bank]. *)
Definition page_ok (bank : gmap Z Question) (n : Z) (p : Page) : Prop :=
  bank ≠ ∅ ∧
  questionBankByID (quiz p) = bank ∧
  is_Some (bank !! currentQuestionId p) ∧
  questionsAnswered p = n ∧
  totalQuestions (quiz p) = n ∧
  (quizOver p = true ↔ NUM_QUIZ_QUESTIONS ≤ n) ∧
  Forall (λ h : HistoryEntry, is_Some (bank !! h.1.1.2)) (history (quiz p)).

(** Two submissions: a correct one, then an incorrect one. *)
Definition sample_submissions : list (bool * (Z * Z * Z)) :=
  [(true, (0, 0, 0)); (false, (RAND_MAX, 0, 0))].

(** * Persistence and the quiz page

    The rest of this part of the file embeds what stands between the engine
    and the stored data: the keys and the JSON records of src/state.h and
    src/question.cpp, the Q-table and the user state in the [m_data] of
    src/loaddatamanager.cpp, the question bank of src/questionloader.cpp,
    and the verdict on the notes played in src/quizwidget.cpp.

    - [QString] is [string], for texts of ASCII characters; the member
      functions of Qt that the source calls are given by their documented
      behaviour.
    - Reading and writing files is left out: the functions work on the JSON
      document in memory. *)

(** ** Qt strings *)

Definition INT_MIN : Z := -2147483648.
Definition INT_MAX : Z := 2147483647.

(** The values of a C++ [int]. *)
Definition is_int (n : Z) : Prop := INT_MIN ≤ n ≤ INT_MAX.

Definition is_int_state (s : State) : Prop :=
  is_int (notes s) ∧ is_int (chords s) ∧ is_int (scales s).

(** [QString::number(n)] and [QString::arg(n)] for an [int]: decimal
    digits, a minus sign before a negative number. *)
Definition QString_number (n : Z) : string :=
  NilZero.string_of_int (Z.to_int n).

(** [QChar::isSpace] on an ASCII character: tab to carriage return, and
    the space. *)
Definition isSpace (c : ascii) : bool :=
  let n := Ascii.nat_of_ascii c in
  ((9 <=? n)%nat && (n <=? 13)%nat) || (n =? 32)%nat.

Fixpoint trim_left (s : string) : string :=
  match s with
  | String c r => if isSpace c then trim_left r else s
  | EmptyString => EmptyString
  end.

Fixpoint trim_right (s : string) : string :=
  match s with
  | String c r =>
      match trim_right r with
      | EmptyString => if isSpace c then EmptyString else String c EmptyString
      | r' => String c r'
      end
  | EmptyString => EmptyString
  end.

Definition QString_trimmed (s : string) : string := trim_right (trim_left s).

(** [QString::toInt()]: white space at both ends is ignored, one sign may
    come first, the rest are decimal digits; 0 when the text is not of this
    form or the number is not an [int]. *)
Definition QString_toInt (s : string) : Z :=
  let t := QString_trimmed s in
  let parsed :=
    match t with
    | String "+"%char r => Decimal.Pos <$> NilZero.uint_of_string r
    | _ => NilZero.int_of_string t
    end in
  match parsed with
  | Some d => let n := Z.of_int d in if bool_decide (is_int n) then n else 0
  | None => 0
  end.

(** [QString::remove(c)]: every occurrence of the character goes. *)
Fixpoint QString_remove (c : ascii) (s : string) : string :=
  match s with
  | String a r =>
      if Ascii.eqb a c then QString_remove c r else String a (QString_remove c r)
  | EmptyString => EmptyString
  end.

(** [QString::split(sep)]: empty parts are kept, so the empty text gives one
    empty part. *)
Fixpoint QString_split (sep : ascii) (s : string) : list string :=
  match s with
  | String a r =>
      if Ascii.eqb a sep then EmptyString :: QString_split sep r
      else match QString_split sep r with
           | p :: ps => String a p :: ps
           | [] => [String a EmptyString]
           end
  | EmptyString => [EmptyString]
  end.

(** [QString::mid(position, n)]: empty when [position] is past the end, all
    of the rest when [n] is negative or more than what is left. *)
Definition QString_mid (position n : Z) (s : string) : string :=
  let len := Z.of_nat (String.length s) in
  if (position <? 0) || (len <? position) then EmptyString
  else
    let rest := String.substring (Z.to_nat position) (Z.to_nat (len - position)) s in
    if (n <? 0) || (len - position <? n) then rest
    else String.substring 0 (Z.to_nat n) rest.

(** [QString::chop(n)]. *)
Definition QString_chop (n : Z) (s : string) : string :=
  let len := Z.of_nat (String.length s) in
  if len <=? n then EmptyString
  else if 0 <? n then String.substring 0 (Z.to_nat (len - n)) s
  else s.

(** [QChar::isDigit] on an ASCII character. *)
Definition isDigit (c : ascii) : bool :=
  let n := Ascii.nat_of_ascii c in (48 <=? n)%nat && (n <=? 57)%nat.

(** [QString::operator<] on texts of ASCII characters: by character code,
    a proper prefix first.  [QStringList::sort] and the iteration of a
    [QJsonObject] go by it. *)
Definition String_le (s1 s2 : string) : Prop := String.leb s1 s2 = true.

#[global] Instance String_le_dec : RelDecision String_le.
Proof. intros s1 s2. unfold String_le. apply _. Defined.

Definition QStringList_sort (l : list string) : list string :=
  merge_sort String_le l.

Fixpoint QStringList_join (sep : string) (l : list string) : string :=
  match l with
  | [] => EmptyString
  | [s] => s
  | s :: r => s +:+ sep +:+ QStringList_join sep r
  end.

(** ** src/state.h: the textual key of a state *)

(** [QString("[%1,%2,%3]").arg(notes).arg(chords).arg(scales)]: each [arg]
    replaces the marker of the lowest number, and a number has no marker in
    it. *)
Definition toKey (s : State) : string :=
  "[" +:+ QString_number (notes s) +:+ "," +:+ QString_number (chords s)
      +:+ "," +:+ QString_number (scales s) +:+ "]".

(** [fromKey].  [None]: fewer than three parts, where the [State] that is
    returned was never initialised. *)
Definition fromKey (key : string) : option State :=
  let temp := QString_remove "]" (QString_remove "[" key) in
  match QString_split "," temp with
  | p0 :: p1 :: p2 :: _ =>
      Some (mkState (QString_toInt p0) (QString_toInt p1) (QString_toInt p2))
  | _ => None
  end.

Definition sample_state : State := mkState 0 (-1) 2147483647.

(** ** src/loaddatamanager.cpp: the key of an action *)

(** [QString("[%1]").arg(questionID)] of [saveQTable]. *)
Definition actionKey (questionID : Z) : string :=
  "[" +:+ QString_number questionID +:+ "]".

(** [actionKey.mid(1, actionKey.length() - 2).toInt()] of [getQTable]. *)
Definition questionID_of (actionKey : string) : Z :=
  let processedKey :=
    QString_mid 1 (Z.of_nat (String.length actionKey) - 2) actionKey in
  QString_toInt processedKey.

(** Every character of [s] passes [p]. *)
Fixpoint all_chars (p : ascii → bool) (s : string) : bool :=
  match s with
  | String a r => p a && all_chars p r
  | EmptyString => true
  end.

(** A digit or the minus sign. *)
Definition number_char (a : ascii) : bool :=
  let n := Ascii.nat_of_ascii a in
  ((48 <=? n)%nat && (n <=? 57)%nat) || (n =? 45)%nat.

(** The characters of [s] are not the separator of notes. *)
Definition dash_free (s : string) : Prop :=
  all_chars (λ a, negb (Ascii.eqb a "-")) s = true.


(** ** QJsonValue and QJsonObject *)

(** A JSON number is a double.  [JNumber d] gives the value of the double
    as sign, mantissa and exponent; no binary64 arithmetic is done on it, so
    any triple of that value stands for the double. *)
#[warnings="-register-all"] Inductive QJsonValue : Type :=
  | JNull
  | JUndefined
  | JBool (b : bool)
  | JNumber (d : spec_float)
  | JString (s : string)
  | JArray (l : list QJsonValue)
  | JObject (o : gmap string QJsonValue).

Abbreviation QJsonObject := (gmap string QJsonValue).

(** [double(n)] for an [int]: exact, an [int] has fewer than 53 bits. *)
Definition double_of_int (n : Z) : spec_float :=
  match n with
  | 0 => S754_zero false
  | Z.pos p => S754_finite false p 0
  | Z.neg p => S754_finite true p 0
  end.

(** The whole number a double is, if it is one. *)
Definition double_whole (d : spec_float) : option Z :=
  match d with
  | S754_zero _ => Some 0
  | S754_finite s m e =>
      let sign := if s then -1 else 1 in
      if 0 <=? e then Some (sign * (Z.pos m * 2 ^ e))
      else if Z.pos m mod 2 ^ (- e) =? 0 then Some (sign * (Z.pos m / 2 ^ (- e)))
      else None
  | _ => None
  end.

(** [double(x)] for a [float]: every binary32 number is a double. *)
Definition float_to_double (x : spec_float) : spec_float := x.

(** [float(d)] for a [double]: rounded to the nearest binary32 number. *)
Definition double_to_float (d : spec_float) : spec_float :=
  match d with
  | S754_finite s m e =>
      binary_normalize F32.prec F32.emax (if s then Z.neg m else Z.pos m) e s
  | _ => d
  end.

Definition QJsonValue_int (n : Z) : QJsonValue := JNumber (double_of_int n).
Definition QJsonValue_double (d : spec_float) : QJsonValue := JNumber d.

(** [toInt(defaultValue)]: the number if it is whole and an [int], else
    the default, which is 0 when none is given. *)
Definition toInt_or (defaultValue : Z) (v : QJsonValue) : Z :=
  match v with
  | JNumber d =>
      match double_whole d with
      | Some n => if bool_decide (is_int n) then n else defaultValue
      | None => defaultValue
      end
  | _ => defaultValue
  end.

Definition toInt (v : QJsonValue) : Z := toInt_or 0 v.

Definition toDouble (v : QJsonValue) : spec_float :=
  match v with JNumber d => d | _ => S754_zero false end.

Definition toBool (v : QJsonValue) (defaultValue : bool) : bool :=
  match v with JBool b => b | _ => defaultValue end.

Definition toString (v : QJsonValue) : string :=
  match v with JString s => s | _ => EmptyString end.

Definition toArray (v : QJsonValue) : list QJsonValue :=
  match v with JArray l => l | _ => [] end.

Definition toObject (v : QJsonValue) : QJsonObject :=
  match v with JObject o => o | _ => ∅ end.

Definition isArray (v : QJsonValue) : bool :=
  match v with JArray _ => true | _ => false end.

Definition isObject (v : QJsonValue) : bool :=
  match v with JObject _ => true | _ => false end.

(** [json[key]] on a constant object, and [json.contains(key)]. *)
Definition value (json : QJsonObject) (key : string) : QJsonValue :=
  default JUndefined (json !! key).

Definition contains (json : QJsonObject) (key : string) : bool :=
  bool_decide (is_Some (json !! key)).

(** The keys of a [QJsonObject] in the order its iterators visit them. *)
Definition QJsonObject_keys (json : QJsonObject) : list string :=
  merge_sort String_le (map fst (map_to_list json)).

(** ** src/state.h: the structured record of a state *)

Definition State_toJson (s : State) : QJsonObject :=
  let json : QJsonObject := ∅ in
  let json := <["notes" := QJsonValue_int (notes s)]> json in
  let json := <["chords" := QJsonValue_int (chords s)]> json in
  <["scales" := QJsonValue_int (scales s)]> json.

(** [fromJson] assigns the fields that the object has; the others keep the
    value [s] they had. *)
Definition State_fromJson (s : State) (json : QJsonObject) : State :=
  let s := if contains json "notes"
           then mkState (toInt (value json "notes")) (chords s) (scales s)
           else s in
  let s := if contains json "chords"
           then mkState (notes s) (toInt (value json "chords")) (scales s)
           else s in
  if contains json "scales"
  then mkState (notes s) (chords s) (toInt (value json "scales"))
  else s.

(** ** src/question.cpp: the structured record of a question *)

Definition Question_toJson (q : Question) : QJsonObject :=
  let json : QJsonObject := ∅ in
  let json := <["questionID" := QJsonValue_int (questionID q)]> json in
  let json := <["topicID" := QJsonValue_int (topicID q)]> json in
  let json := <["Description" := JString (description q)]> json in
  let json := <["ExpectedInput" := JString (expectedInput q)]> json in
  let json := <["Title" := JString (title q)]> json in
  let json := <["difficulty" := QJsonValue_int (difficulty q)]> json in
  <["topicName" := JString (topicName q)]> json.

(** The setters. *)
Definition setQuestionID (q : Question) (id : Z) : Question :=
  mkQuestion id (topicID q) (description q) (expectedInput q) (title q)
    (difficulty q) (topicName q).

Definition setTopicID (q : Question) (id : Z) : Question :=
  mkQuestion (questionID q) id (description q) (expectedInput q) (title q)
    (difficulty q) (topicName q).

Definition setDescription (q : Question) (desc : string) : Question :=
  mkQuestion (questionID q) (topicID q) desc (expectedInput q) (title q)
    (difficulty q) (topicName q).

Definition setTitle (q : Question) (qTitle : string) : Question :=
  mkQuestion (questionID q) (topicID q) (description q) (expectedInput q) qTitle
    (difficulty q) (topicName q).

Definition setExpectedInput (q : Question) (expecIn : string) : Question :=
  mkQuestion (questionID q) (topicID q) (description q) expecIn (title q)
    (difficulty q) (topicName q).

Definition setDifficulty (q : Question) (diff : Z) : Question :=
  mkQuestion (questionID q) (topicID q) (description q) (expectedInput q)
    (title q) diff (topicName q).

Definition setTopicName (q : Question) (name : string) : Question :=
  mkQuestion (questionID q) (topicID q) (description q) (expectedInput q)
    (title q) (difficulty q) name.

(** [fromJson] assigns the fields that the object has, as the setters do. *)
Definition Question_fromJson (q : Question) (json : QJsonObject) : Question :=
  let q := if contains json "questionID"
           then setQuestionID q (toInt (value json "questionID")) else q in
  let q := if contains json "topicID"
           then setTopicID q (toInt (value json "topicID")) else q in
  let q := if contains json "Description"
           then setDescription q (toString (value json "Description")) else q in
  let q := if contains json "ExpectedInput"
           then setExpectedInput q (toString (value json "ExpectedInput"))
           else q in
  let q := if contains json "Title"
           then setTitle q (toString (value json "Title")) else q in
  let q := if contains json "difficulty"
           then setDifficulty q (toInt (value json "difficulty")) else q in
  if contains json "topicName"
  then setTopicName q (toString (value json "topicName")) else q.

(** ** src/loaddatamanager.cpp: the Q-table and the user state in [m_data] *)

(** [State::operator<] read as "not above", for the order in which a
    [std::map<State, T>] is visited. *)
Definition State_le (a b : State) : Prop := State_lt b a = false.

#[global] Instance State_le_dec : RelDecision State_le.
Proof. intros a b. unfold State_le. apply _. Defined.

Definition sorted_states {A : Type} (m : gmap State A) : list State :=
  merge_sort State_le (map fst (map_to_list m)).

(** The inner loop of [saveQTable]: one JSON object per row. *)
Definition actionObj_of (actionMap : QRow) : QJsonObject :=
  fold_left
    (λ (actionObj : QJsonObject) questionID,
       match actionMap !! questionID with
       | Some qValue =>
           <[actionKey questionID := QJsonValue_double (float_to_double qValue)]>
             actionObj
       | None => actionObj
       end)
    (sorted_keys actionMap) ∅.

(** The outer loop of [saveQTable]. *)
Definition tableObj_of (qTable : QTable) : QJsonObject :=
  fold_left
    (λ (tableObj : QJsonObject) state,
       match qTable !! state with
       | Some actionMap =>
           <[toKey state := JObject (actionObj_of actionMap)]> tableObj
       | None => tableObj
       end)
    (sorted_states qTable) ∅.

(** The inner loop of [getQTable]: [qTable[state][questionID] = qValue]
    for each entry of the row object. *)
Definition load_actions (state : State) (actionMap : QJsonObject)
    (qTable : QTable) : QTable :=
  fold_left
    (λ (qTable : QTable) actionKey,
       let questionID := questionID_of actionKey in
       let qValue := double_to_float (toDouble (value actionMap actionKey)) in
       <[state := <[questionID := qValue]> (default ∅ (qTable !! state))]> qTable)
    (QJsonObject_keys actionMap) qTable.

Module LoadDataManager.

(** [saveQTable] as a function on [m_data]; writing the file is left out. *)
Definition saveQTable (m_data : QJsonObject) (qTable : QTable) : QJsonObject :=
  let qtableObj := toObject (value m_data "qtable") in
  let qtableObj := <["table" := JObject (tableObj_of qTable)]> qtableObj in
  let qtableObj := <["newUser" := JBool false]> qtableObj in
  <["qtable" := JObject qtableObj]> m_data.

(** [getQTable].  [None]: a state key with fewer than three parts, for
    which [State::fromKey] returns a [State] that was never initialised. *)
Definition getQTable (m_data : QJsonObject) : option QTable :=
  let qtableObj := toObject (value m_data "qtable") in
  let tableObj := toObject (value qtableObj "table") in
  fold_left
    (λ (acc : option QTable) stateKey,
       qTable ← acc;
       state ← fromKey stateKey;
       match value tableObj stateKey with
       | JObject actionMap => Some (load_actions state actionMap qTable)
       | _ => Some qTable
       end)
    (QJsonObject_keys tableObj) (Some ∅).

Definition isNewUser (m_data : QJsonObject) : bool :=
  let qtableObj := toObject (value m_data "qtable") in
  toBool (value qtableObj "newUser") true.

Definition setNewUser (m_data : QJsonObject) (isNew : bool) : QJsonObject :=
  let qtableObj := toObject (value m_data "qtable") in
  <["qtable" := JObject (<["newUser" := JBool isNew]> qtableObj)]> m_data.

Definition saveUserState (m_data : QJsonObject) (state : State) : QJsonObject :=
  let qtableObj := toObject (value m_data "qtable") in
  <["qtable" := JObject (<["userState" := JObject (State_toJson state)]> qtableObj)]>
    m_data.

(** [getUserState]: [State state;] holds indeterminate values [state0]
    before [fromJson] assigns the fields present. *)
Definition getUserState (state0 : State) (m_data : QJsonObject) : State :=
  let qtableObj := toObject (value m_data "qtable") in
  let stateObj := toObject (value qtableObj "userState") in
  State_fromJson state0 stateObj.

End LoadDataManager.

(** A Q-table as the engine leaves it: [int] keys, binary32 values, and a
    row only where a value was stored.  The negative zero is left out: a
    [QJsonValue] may hold a whole number as an integer, which has one zero. *)
Definition storable (q : spec_float) : Prop :=
  valid_binary F32.prec F32.emax q = true ∧ q ≠ S754_zero true.

Definition storable_row (actionMap : QRow) : Prop :=
  ∀ questionID qValue, actionMap !! questionID = Some qValue →
    is_int questionID ∧ storable qValue.

Definition persistable (qTable : QTable) : Prop :=
  ∀ state actionMap, qTable !! state = Some actionMap →
    is_int_state state ∧ actionMap ≠ ∅ ∧ storable_row actionMap.

Definition sample_table : QTable :=
  <[mkState 0 1 2 := <[7 := F32.c2_5]> (<[-3 := F32.cm2_5]> ∅)]>
    (<[mkState 1 0 0 := <[12 := F32.zero]> ∅]> ∅).

(** ** src/questionloader.cpp *)

(** The loop over the questions of one topic. *)
Definition load_topic (topicID : Z) (topicName : string)
    (questions : list QJsonValue) (questionBank : gmap Z Question)
    : gmap Z Question :=
  fold_left
    (λ (questionBank : gmap Z Question) qValue,
       match qValue with
       | JObject q =>
           let qid := toInt (value q "questionID") in
           let desc := toString (value q "Description") in
           let expecIn := toString (value q "ExpectedInput") in
           let title := toString (value q "Title") in
           let diff := toInt (value q "difficulty") in
           <[qid := mkQuestion qid topicID desc expecIn title diff topicName]>
             questionBank
       | _ => questionBank
       end)
    questions questionBank.

(** The loop over the topics. *)
Definition load_topics (topicsArray : list QJsonValue)
    (questionBank : gmap Z Question) : gmap Z Question :=
  fold_left
    (λ (questionBank : gmap Z Question) topicValue,
       match topicValue with
       | JObject topic =>
           let topicID := toInt (value topic "topicID") in
           let topicName := toString (value topic "topicName") in
           if contains topic "questions" && isArray (value topic "questions")
           then load_topic topicID topicName
                  (toArray (value topic "questions")) questionBank
           else questionBank
       | _ => questionBank
       end)
    topicsArray questionBank.

(** [loadQuestionsFromFile] from the parsed document on; [None] is a file
    that cannot be opened or is not JSON. *)
Definition loadQuestionsFromFile (jsonDoc : option QJsonValue)
    : gmap Z Question :=
  match jsonDoc with
  | Some (JObject jsonObj) =>
      if negb (contains jsonObj "topics")
         || negb (isArray (value jsonObj "topics"))
      then ∅
      else load_topics (toArray (value jsonObj "topics")) ∅
  | _ => ∅
  end.

(** What holds of every entry of a loaded bank. *)
Definition well_keyed (questionBank : gmap Z Question) : Prop :=
  ∀ qid q, questionBank !! qid = Some q →
    questionID q = qid ∧ is_int qid ∧ is_int (topicID q) ∧ is_int (difficulty q).

(** A document with one topic of two questions, the second given twice. *)
Definition sample_document : QJsonValue :=
  let question (id : Z) (text : string) : QJsonValue :=
    JObject (<["questionID" := QJsonValue_int id]>
             (<["Description" := JString text]>
             (<["ExpectedInput" := JString "C4"]>
             (<["Title" := JString "Note"]>
             (<["difficulty" := QJsonValue_int 0]> ∅))))) in
  JObject (<["topics" := JArray [
    JObject (<["topicID" := QJsonValue_int 101]>
            (<["topicName" := JString "notes"]>
            (<["questions" := JArray [question 1 "first"; question 2 "second";
                                      JNull; question 2 "third"]]> ∅)))]]> ∅).

(** ** src/quizwidget.cpp: the notes played and their verdict *)

Definition noteIndexToName (noteIndex : Z) : string :=
  if noteIndex =? 60 then "C4"
  else if noteIndex =? 61 then "C#4"
  else if noteIndex =? 62 then "D4"
  else if noteIndex =? 63 then "D#4"
  else if noteIndex =? 64 then "E4"
  else if noteIndex =? 65 then "F4"
  else if noteIndex =? 66 then "F#4"
  else if noteIndex =? 67 then "G4"
  else if noteIndex =? 68 then "G#4"
  else if noteIndex =? 69 then "A4"
  else if noteIndex =? 70 then "A#4"
  else if noteIndex =? 71 then "B4"
  else if noteIndex =? 72 then "C5"
  else EmptyString.

(** [handleKeyPressed] while a quiz runs and no submission is being
    processed: what it does to [currentChordNotes]. *)
Definition handleKeyPressed (currentChordNotes : list string) (noteIndex : Z)
    : list string :=
  let noteName := noteIndexToName noteIndex in
  if bool_decide (noteName = EmptyString) then currentChordNotes
  else
    let baseNote := QString_chop 1 noteName in
    let noteWithOctave := baseNote +:+ "4" in
    if bool_decide (noteWithOctave ∈ currentChordNotes) then currentChordNotes
    else currentChordNotes ++ [noteWithOctave].

(** The two normalised texts that [submitChord] compares. *)
Definition normalizedUserInput (currentChordNotes : list string) : string :=
  let normalizedUserNotes := map (QString_chop 1) currentChordNotes in
  QStringList_join "-" (QStringList_sort normalizedUserNotes).

Definition normalizedExpectedNotes (expectedInput : string) : list string :=
  let expectedNotes := QString_split "-" expectedInput in
  map (λ note,
         let len := String.length note in
         if (1 <? len)%nat
            && match String.get (len - 1) note with
               | Some c => isDigit c
               | None => false
               end
         then QString_chop 1 note else note)
      expectedNotes.

Definition normalizedExpectedInput (expectedInput : string) : string :=
  QStringList_join "-" (QStringList_sort (normalizedExpectedNotes expectedInput)).

Definition chord_correct (currentChordNotes : list string)
    (expectedInput : string) : bool :=
  bool_decide
    (normalizedUserInput currentChordNotes = normalizedExpectedInput expectedInput).

(** The notes collected from a sequence of key presses. *)
Definition played (keys : list Z) : list string :=
  fold_left handleKeyPressed keys [].

(** Two ways to play C major, and the text of the chord. *)
Definition sample_keys : list Z := [60; 64; 67].
Definition sample_keys' : list Z := [67; 60; 64; 60].
Definition sample_chord : string := "C4-E4-G4".

(** ** src/scoringsystem.cpp: the star rating *)

(** The loop of [rate] over the star levels that are left.  [(20 *
    starLevel) / 100] is a division of integers; its quotient and the 20
    that is added are converted to [float]. *)
Fixpoint rate_scan (accuracy : spec_float) (starLevels : list Z) : Z :=
  match starLevels with
  | [] => 0
  | starLevel :: rest =>
      if starLevel =? 5 then starLevel
      else
        let minGrade := F32.of_int ((20 * starLevel) ÷ 100) in
        let maxGrade := F32.add minGrade (F32.of_int 20) in
        if F32.leb minGrade accuracy && F32.ltb accuracy maxGrade
        then starLevel
        else rate_scan accuracy rest
  end.

Definition rate (accuracy : spec_float) : Z :=
  rate_scan accuracy [0; 1; 2; 3; 4; 5].

(** ** src/quizreport.h *)

Module QuizReport.

Record t : Type := mk {
  score : spec_float;
  accuracy : spec_float;
  totalQuestions : Z;
  correctAnswers : Z;
  history : list HistoryEntry
}.

(** One entry of the history array. *)
Definition entryObj_of (h : HistoryEntry) : QJsonValue :=
  let '(state, questionID, description, correct) := h in
  let entryObj : QJsonObject := ∅ in
  let entryObj := <["state" := JObject (State_toJson state)]> entryObj in
  let entryObj := <["questionID" := QJsonValue_int questionID]> entryObj in
  let entryObj := <["description" := JString description]> entryObj in
  let entryObj := <["correct" := JBool correct]> entryObj in
  JObject entryObj.

Definition toJson (r : t) : QJsonObject :=
  let json : QJsonObject := ∅ in
  let json := <["score" := QJsonValue_double (float_to_double (score r))]> json in
  let json :=
    <["accuracy" := QJsonValue_double (float_to_double (accuracy r))]> json in
  let json := <["totalQuestions" := QJsonValue_int (totalQuestions r)]> json in
  let json := <["correctAnswers" := QJsonValue_int (correctAnswers r)]> json in
  let historyArray := map entryObj_of (history r) in
  <["history" := JArray historyArray]> json.

(** The loop of [fromJson] over the history array; [state0] is what the
    [State state;] of an iteration holds before [fromJson] assigns to it. *)
Definition history_of (state0 : State) (historyArray : list QJsonValue)
    : list HistoryEntry :=
  fold_left
    (λ (history : list HistoryEntry) entryValue,
       match entryValue with
       | JObject entry =>
           let state :=
             if contains entry "state" && isObject (value entry "state")
             then State_fromJson state0 (toObject (value entry "state"))
             else state0 in
           let questionID := toInt_or (-1) (value entry "questionID") in
           let description := toString (value entry "description") in
           let correct := toBool (value entry "correct") false in
           history ++ [(state, questionID, description, correct)]
       | _ => history
       end)
    historyArray [].

Definition fromJson (state0 : State) (r : t) (json : QJsonObject) : t :=
  let r := if contains json "score"
           then mk (double_to_float (toDouble (value json "score")))
                  (accuracy r) (totalQuestions r) (correctAnswers r) (history r)
           else r in
  let r := if contains json "accuracy"
           then mk (score r) (double_to_float (toDouble (value json "accuracy")))
                  (totalQuestions r) (correctAnswers r) (history r)
           else r in
  let r := if contains json "totalQuestions"
           then mk (score r) (accuracy r) (toInt (value json "totalQuestions"))
                  (correctAnswers r) (history r)
           else r in
  let r := if contains json "correctAnswers"
           then mk (score r) (accuracy r) (totalQuestions r)
                  (toInt (value json "correctAnswers")) (history r)
           else r in
  let r := mk (score r) (accuracy r) (totalQuestions r) (correctAnswers r) [] in
  if contains json "history" && isArray (value json "history")
  then mk (score r) (accuracy r) (totalQuestions r) (correctAnswers r)
         (history_of state0 (toArray (value json "history")))
  else r.

(** The report that [handleQuizOver] builds from the quiz. *)
Definition of_quiz (quiz : Engine) : t :=
  mk (getScore quiz) (getAccuracy quiz) (getTotalQuestions quiz)
     (getCorrectAnswers quiz) (getHistory quiz).

(** A report whose numbers convert without loss. *)
Definition storable_report (r : t) : Prop :=
  storable (score r) ∧ storable (accuracy r) ∧
  is_int (totalQuestions r) ∧ is_int (correctAnswers r) ∧
  Forall (λ h : HistoryEntry, is_int_state h.1.1.1 ∧ is_int h.1.1.2) (history r).

End QuizReport.

(** The report after one correct answer to the first question. *)
Definition sample_report : QuizReport.t :=
  QuizReport.of_quiz (evaluateResponse Demo.engine 1 true).

(** * Properties *)

(** The literals are the correctly rounded binary32 values of the decimal
    constants of the source. *)
Example literals_are_rounded :
  F32.c0_1 = F32.div (F32.of_int 1) (F32.of_int 10) ∧
  F32.c0_9 = F32.div (F32.of_int 9) (F32.of_int 10) ∧
  F32.c0_7 = F32.div (F32.of_int 7) (F32.of_int 10) ∧
  F32.c0_5 = F32.div (F32.of_int 1) (F32.of_int 2) ∧
  F32.c2_5 = F32.div (F32.of_int 5) (F32.of_int 2) ∧
  F32.c5 = F32.of_int 5 ∧
  F32.c10 = F32.of_int 10 ∧
  F32.cm2_5 = F32.div (F32.of_int (-5)) (F32.of_int 2) ∧
  F32.cm1e9 = F32.of_int (-1000000000).
Proof. vm_compute. repeat split. Qed.

(** [State::operator<] is a strict total order whose incomparable states
    are equal: [std::map<State, _>] has one entry per [State] value, as
    [gmap State _] has. *)
Lemma State_lt_irrefl a : State_lt a a = false.
Proof. unfold State_lt. rewrite !Z.ltb_irrefl. reflexivity. Qed.

Lemma State_lt_trans a b c :
  State_lt a b = true → State_lt b c = true → State_lt a c = true.
Proof.
  unfold State_lt. destruct a, b, c; simpl.
  repeat match goal with
    | |- context [?x <? ?y] => destruct (Z.ltb_spec x y)
    end; try done; lia.
Qed.

Lemma State_lt_total a b :
  State_lt a b = false → State_lt b a = false → a = b.
Proof.
  unfold State_lt. destruct a, b; simpl.
  repeat match goal with
    | |- context [?x <? ?y] => destruct (Z.ltb_spec x y)
    end; try done; intros _ _; f_equal; lia.
Qed.

(** ** The demo session runs *)

Example demo_actions : getActionsForStateLevel Demo.engine false = [1; 2; 3].
Proof. vm_compute. reflexivity. Qed.

Example demo_exploit :
  fst <$> getNextAction Demo.engine RAND_MAX 0 0 = Some 1.
Proof. vm_compute. reflexivity. Qed.

Example demo_explore :
  fst <$> getNextAction Demo.engine 0 1 0 = Some 2.
Proof. vm_compute. reflexivity. Qed.

Example demo_promotion :
  let e := foldl (λ e _, evaluateResponse e 1 true) Demo.engine (seq 0 4) in
  state e = mkState 1 0 0 ∧ correctCounts e !! 1 = Some 0 ∧
  getQValue (q_table e) Demo.s0 1 ≠ F32.zero.
Proof. vm_compute. repeat split; discriminate. Qed.

(** ** The order of binary32 values *)

Section FloatOrder.

Local Ltac cmp_cases :=
  repeat match goal with
    | |- context [Pos.compare_cont Eq ?a ?b] =>
        change (Pos.compare_cont Eq a b) with (Pos.compare a b);
        destruct (Pos.compare_spec a b)
    | |- context [Z.compare ?a ?b] => destruct (Z.compare_spec a b)
    | H : context [Pos.compare_cont Eq ?a ?b] |- _ =>
        change (Pos.compare_cont Eq a b) with (Pos.compare a b) in H;
        destruct (Pos.compare_spec a b)
    | H : context [Z.compare ?a ?b] |- _ => destruct (Z.compare_spec a b)
    end.

Local Ltac order_crush :=
  unfold F32.ltb, F32.gtb, F32.leb, SFltb, SFleb, SFcompare, F32.is_nan in *;
  repeat match goal with
    | x : spec_float |- _ => destruct x
    | b : bool |- _ => destruct b
    end;
  simpl in *; try congruence;
  cmp_cases; simpl in *; subst; try congruence; try lia.

Lemma ltb_irrefl (a : spec_float) : F32.ltb a a = false.
Proof. order_crush. Qed.

Lemma ltb_trans (a b c : spec_float) :
  F32.ltb a b = true → F32.ltb b c = true → F32.ltb a c = true.
Proof. intros Hab Hbc. order_crush. Qed.

Lemma leb_ltb_trans (a b c : spec_float) :
  F32.leb a b = true → F32.ltb b c = true → F32.ltb a c = true.
Proof. intros Hab Hbc. order_crush. Qed.

Lemma ltb_leb_trans (a b c : spec_float) :
  F32.ltb a b = true → F32.leb b c = true → F32.ltb a c = true.
Proof. intros Hab Hbc. order_crush. Qed.

Lemma ltb_asym (a b : spec_float) :
  F32.ltb a b = true → F32.ltb b a = false.
Proof. intros Hab. order_crush. Qed.

Lemma ltb_not_nan (a b : spec_float) :
  F32.ltb a b = true → F32.is_nan a = false ∧ F32.is_nan b = false.
Proof. intros Hab. split; order_crush. Qed.

(** Two values that are not NaN are comparable. *)
Lemma not_ltb_leb (a b : spec_float) :
  F32.is_nan a = false → F32.is_nan b = false →
  F32.ltb a b = false → F32.leb b a = true.
Proof. intros Ha Hb Hab. order_crush. Qed.

Lemma gtb_ltb (a b : spec_float) : F32.gtb a b = F32.ltb b a.
Proof. reflexivity. Qed.

End FloatOrder.

(** ** Iteration order of [std::map<int, T>] *)

Section SortedKeys.
Context {A : Type}.
Implicit Types (m : gmap Z A) (k : Z).

Lemma sorted_keys_perm m : sorted_keys m ≡ₚ (map_to_list m).*1.
Proof. apply merge_sort_Permutation. Qed.

Lemma elem_of_sorted_keys m k : k ∈ sorted_keys m ↔ is_Some (m !! k).
Proof.
  rewrite sorted_keys_perm, list_elem_of_fmap. split.
  - intros [[k' v] [-> Hin]]. apply elem_of_map_to_list in Hin. by exists v.
  - intros [v Hv]. exists (k, v). split; [done|]. by apply elem_of_map_to_list.
Qed.

Lemma sorted_keys_NoDup m : NoDup (sorted_keys m).
Proof. rewrite sorted_keys_perm. apply NoDup_fst_map_to_list. Qed.

Lemma sorted_keys_le m : StronglySorted Z.le (sorted_keys m).
Proof. apply (StronglySorted_merge_sort Z.le). Qed.

(** Ascending, without repetition. *)
Lemma sorted_keys_lt m : StronglySorted Z.lt (sorted_keys m).
Proof.
  pose proof (sorted_keys_le m) as Hs. pose proof (sorted_keys_NoDup m) as Hn.
  induction Hs as [|x l Hs IH Hx]; [constructor|].
  apply NoDup_cons in Hn as [Hnx Hn]. constructor; [by apply IH|].
  rewrite Forall_forall in Hx |- *. intros y Hy.
  specialize (Hx y Hy). assert (x ≠ y) by (intros ->; done). lia.
Qed.

Lemma sorted_keys_empty : sorted_keys (∅ : gmap Z A) = [].
Proof. unfold sorted_keys. by rewrite map_to_list_empty. Qed.

Lemma sorted_keys_nil m : sorted_keys m = [] → m = ∅.
Proof.
  intros Hnil. apply map_empty. intros k.
  destruct (m !! k) as [v|] eqn:Hk; [|done].
  assert (k ∈ sorted_keys m) as Hin by (apply elem_of_sorted_keys; eauto).
  rewrite Hnil in Hin. by apply elem_of_nil in Hin.
Qed.

(** [begin()->first] is the least key. *)
Lemma sorted_keys_head_least m k l j :
  sorted_keys m = k :: l → is_Some (m !! j) → k ≤ j.
Proof.
  intros Hk Hj. apply elem_of_sorted_keys in Hj.
  pose proof (sorted_keys_le m) as Hs. rewrite Hk in Hs, Hj.
  apply StronglySorted_inv in Hs as [_ Hall].
  apply elem_of_cons in Hj as [->|Hj]; [lia|].
  rewrite Forall_forall in Hall. by apply Hall.
Qed.

(** Two ascending lists with the same elements are the same list. *)
Lemma ascending_unique (l1 l2 : list Z) :
  StronglySorted Z.le l1 → StronglySorted Z.le l2 → l1 ≡ₚ l2 → l1 = l2.
Proof. intros. by apply (StronglySorted_unique Z.le). Qed.

(** Inserting a fresh key puts it at its place among the old keys. *)
Lemma sorted_keys_insert_fresh m k (v : A) :
  m !! k = None →
  ∃ l1 l2, sorted_keys m = l1 ++ l2 ∧
           sorted_keys (<[k := v]> m) = l1 ++ k :: l2.
Proof.
  intros Hk.
  assert (k ∈ sorted_keys (<[k := v]> m)) as Hin.
  { apply elem_of_sorted_keys. rewrite lookup_insert_eq. eauto. }
  apply list_elem_of_split in Hin as (l1 & l2 & Heq).
  exists l1, l2. split; [|done].
  pose proof (sorted_keys_le (<[k := v]> m)) as Hs. rewrite Heq in Hs.
  apply ascending_unique.
  - apply sorted_keys_le.
  - apply StronglySorted_app in Hs as (H12 & H1 & H2).
    apply StronglySorted_inv in H2 as [H2 Hk2].
    apply StronglySorted_app; split_and!; [|done|done].
    intros x1 x2 Hx1 Hx2. apply H12; [done|]. by apply elem_of_cons; right.
  - apply (Permutation_cons_inv (a := k)).
    rewrite Permutation_middle, <- Heq, !sorted_keys_perm.
    rewrite map_to_list_insert by done. done.
Qed.

Lemma sorted_keys_singleton k (v : A) : sorted_keys ({[k := v]} : gmap Z A) = [k].
Proof. unfold sorted_keys. by rewrite map_to_list_singleton. Qed.

End SortedKeys.

(** ** Reward *)

Lemma getReward_cases before after correct :
  getReward before after correct =
    if correct then
      if decide (improved before after) then F32.c5 else F32.c2_5
    else F32.cm2_5.
Proof.
  unfold getReward, improved. destruct correct; simpl; [|done].
  case_decide as Hd.
  - replace ((notes after >? notes before) || (chords after >? chords before)
             || (scales after >? scales before)) with true; [done|].
    symmetry. rewrite !orb_true_iff, !Z.gtb_ltb, !Z.ltb_lt. tauto.
  - replace ((notes after >? notes before) || (chords after >? chords before)
             || (scales after >? scales before)) with false; [done|].
    symmetry. apply not_true_is_false.
    rewrite !orb_true_iff, !Z.gtb_ltb, !Z.ltb_lt. tauto.
Qed.

(** C4. [getReward] is 5.0 exactly when the answer is correct and some
    domain of [after] strictly exceeds that of [before]; 2.5 exactly when it
    is correct and no domain increased; -2.5 exactly when it is incorrect.
    The three literals are the binary32 values of 5, 5/2 and -5/2. *)
Theorem getReward_truth_table (before after : State) (correct : bool) :
  (getReward before after correct = F32.c5
     ↔ correct = true ∧ improved before after) ∧
  (getReward before after correct = F32.c2_5
     ↔ correct = true ∧ ¬ improved before after) ∧
  (getReward before after correct = F32.cm2_5 ↔ correct = false) ∧
  F32.c5 = F32.of_int 5 ∧
  F32.c2_5 = F32.div (F32.of_int 5) (F32.of_int 2) ∧
  F32.cm2_5 = F32.div (F32.of_int (-5)) (F32.of_int 2).
Proof.
  rewrite getReward_cases.
  destruct correct; [destruct (decide (improved before after))|];
    (split_and!; [| | |by vm_compute..]);
    split; try (intros [? ?]); try intros ?; try done; try discriminate;
    try tauto.
Qed.

(** ** Skill update *)

(** [questionBankByID[qid]] read twice: the second read finds what the first
    one found or inserted. *)
Lemma map_index_bank (bank : gmap Z Question) qid :
  map_index default_Question bank qid =
    (default default_Question (bank !! qid),
     match bank !! qid with
     | Some _ => bank
     | None => <[qid := default_Question]> bank
     end).
Proof. unfold map_index. by destruct (bank !! qid). Qed.

Lemma map_index_bank_after (bank : gmap Z Question) qid :
  map_index default_Question bank qid =
    (default default_Question (bank !! qid), bank_after_index bank qid).
Proof. unfold bank_after_index, map_index. by destruct (bank !! qid). Qed.

Lemma bank_after_index_present bank qid q :
  bank !! qid = Some q → bank_after_index bank qid = bank.
Proof. unfold bank_after_index, map_index. by intros ->. Qed.

Lemma bank_after_index_idem bank qid :
  bank_after_index (bank_after_index bank qid) qid = bank_after_index bank qid.
Proof.
  unfold bank_after_index, map_index.
  destruct (bank !! qid) eqn:Hq; simpl; [by rewrite Hq|].
  by rewrite lookup_insert_eq.
Qed.

Lemma bank_after_index_lookup bank qid :
  bank_after_index bank qid !! qid = Some (default default_Question (bank !! qid)).
Proof.
  unfold bank_after_index, map_index.
  destruct (bank !! qid) eqn:Hq; simpl; [done|]. by rewrite lookup_insert_eq.
Qed.

(** [updateState] without the bookkeeping of the subscripts. *)
Lemma updateState_unfold e qid correct s :
  let q := getQuestion e qid in
  let e1 := with_bank e (bank_after_index (questionBankByID e) qid) in
  updateState e qid correct s =
    if correct then
      let c := default 0 (correctCounts e !! qid) + points_of (difficulty q) in
      if c >=? correctThreshold then
        (with_counts e1 (<[qid := 0]> (correctCounts e))
                        (<[qid := 0]> (incorrectCounts e)),
         promote (topicID q) s)
      else
        (with_counts e1 (<[qid := c]> (correctCounts e))
                        (<[qid := 0]> (incorrectCounts e)), s)
    else
      let i := default 0 (incorrectCounts e !! qid) + 1 in
      if i >=? incorrectThreshold then
        (with_counts e1 (<[qid := 0]> (correctCounts e))
                        (<[qid := 0]> (incorrectCounts e)),
         demote (topicID q) s)
      else
        (with_counts e1 (<[qid := 0]> (correctCounts e))
                        (<[qid := i]> (incorrectCounts e)), s).
Proof.
  unfold updateState, getQuestion, bank_after_index.
  rewrite (map_index_bank (questionBankByID e)).
  destruct (questionBankByID e !! qid) as [q|] eqn:Hq; simpl.
  - rewrite map_index_bank, Hq; simpl.
    destruct correct.
    + unfold map_index at 1.
      destruct (correctCounts e !! qid) as [c|] eqn:Hc; simpl;
        unfold map_index; rewrite ?insert_insert_eq, lookup_insert_eq;
        destruct (_ >=? correctThreshold) eqn:Hge; rewrite ?insert_insert_eq;
        first [done | by vm_compute in Hge].
    + unfold map_index at 1.
      destruct (incorrectCounts e !! qid) as [c|] eqn:Hc; simpl;
        unfold map_index; rewrite ?insert_insert_eq, lookup_insert_eq;
        destruct (_ >=? incorrectThreshold) eqn:Hge; rewrite ?insert_insert_eq;
        first [done | by vm_compute in Hge].
  - rewrite map_index_bank, lookup_insert_eq; simpl.
    destruct correct.
    + unfold map_index at 1.
      destruct (correctCounts e !! qid) as [c|] eqn:Hc; simpl;
        unfold map_index; rewrite ?insert_insert_eq, lookup_insert_eq;
        destruct (_ >=? correctThreshold) eqn:Hge; rewrite ?insert_insert_eq;
        first [done | by vm_compute in Hge].
    + unfold map_index at 1.
      destruct (incorrectCounts e !! qid) as [c|] eqn:Hc; simpl;
        unfold map_index; rewrite ?insert_insert_eq, lookup_insert_eq;
        destruct (_ >=? incorrectThreshold) eqn:Hge; rewrite ?insert_insert_eq;
        first [done | by vm_compute in Hge].
Qed.

Lemma updateState_eq e qid correct s :
  updateState e qid correct s =
    (with_counts (with_bank e (bank_after_index (questionBankByID e) qid))
       (next_correctCounts e qid correct) (next_incorrectCounts e qid correct),
     next_state e qid correct s).
Proof.
  rewrite updateState_unfold.
  unfold next_state, next_correctCounts, next_incorrectCounts,
    threshold_reached, streak_after.
  destruct correct; simpl; by destruct (_ >=? _).
Qed.

Lemma getQuestion_with e qid h asked sc ca tq hk :
  getQuestion
    {| q_table := q_table e; state := state e;
       questionBankByID := bank_after_index (questionBankByID e) qid;
       history := h; askedQuestionsThisSession := asked;
       correctCounts := correctCounts e; incorrectCounts := incorrectCounts e;
       score := sc; correctAnswers := ca; totalQuestions := tq;
       highlightKeys := hk |} qid
  = getQuestion e qid.
Proof.
  unfold getQuestion; simpl. rewrite bank_after_index_lookup.
  by destruct (questionBankByID e !! qid).
Qed.

(** [evaluateResponse], field by field. *)
Lemma evaluateResponse_eq e qid correct :
  evaluateResponse e qid correct =
    let s' := next_state e qid correct (state e) in
    {| q_table := updateQTable (q_table e) (state e) qid
                    (getReward (state e) s' correct) s';
       state := s';
       questionBankByID := bank_after_index (questionBankByID e) qid;
       history := history e
                  ++ [(state e, qid, description (getQuestion e qid), correct)];
       askedQuestionsThisSession := {[qid]} ∪ askedQuestionsThisSession e;
       correctCounts := next_correctCounts e qid correct;
       incorrectCounts := next_incorrectCounts e qid correct;
       score := if correct then F32.add (score e) F32.c10
                else if F32.ltb (F32.sub (score e) F32.c5) F32.zero
                     then F32.zero else F32.sub (score e) F32.c5;
       correctAnswers := if correct then correctAnswers e + 1
                         else correctAnswers e;
       totalQuestions := totalQuestions e + 1;
       highlightKeys := highlightKeys e ++ [correct] |}.
Proof.
  unfold evaluateResponse.
  rewrite (map_index_bank_after (questionBankByID e)).
  cbv zeta. rewrite updateState_eq.
  unfold next_state, next_correctCounts, next_incorrectCounts,
    threshold_reached, streak_after.
  rewrite !getQuestion_with. simpl.
  rewrite bank_after_index_idem.
  unfold with_asked, with_q_table, with_state, with_counts, with_bank; simpl.
  unfold getQuestion. reflexivity.
Qed.

(** ** Candidate filter *)

Lemma elem_of_filter_bool {A} (f : A → bool) (l : list A) (x : A) :
  x ∈ List.filter f l ↔ x ∈ l ∧ f x = true.
Proof. rewrite !list_elem_of_In. apply filter_In. Qed.

Lemma filter_bool_StronglySorted {A} (R : relation A) (f : A → bool) l :
  StronglySorted R l → StronglySorted R (List.filter f l).
Proof.
  induction 1 as [|x l Hs IH Hx]; simpl; [constructor|].
  destruct (f x); [|done]. constructor; [done|].
  rewrite Forall_forall in Hx |- *. intros y Hy.
  apply elem_of_filter_bool in Hy as [Hy _]. by apply Hx.
Qed.

Lemma elem_of_actions_of bank st allow id :
  id ∈ actions_of bank st allow ↔
  ∃ q, bank !! id = Some q ∧ fits st (if allow then 1 else 0) q = true.
Proof.
  unfold actions_of. rewrite elem_of_filter_bool, elem_of_sorted_keys. split.
  - intros [[q Hq] Hf]. rewrite Hq in Hf. eauto.
  - intros (q & Hq & Hf). rewrite Hq. eauto.
Qed.

Lemma actions_of_ascending bank st allow :
  StronglySorted Z.lt (actions_of bank st allow).
Proof. apply filter_bool_StronglySorted, sorted_keys_lt. Qed.

Lemma ascending_NoDup (l : list Z) : StronglySorted Z.lt l → NoDup l.
Proof.
  induction 1 as [|x l Hs IH Hx]; constructor; [|done].
  intros Hin. rewrite Forall_forall in Hx. specialize (Hx x Hin). lia.
Qed.

Lemma fits_iff st stretch q :
  fits st stretch q = true ↔
    (topicID q = 101 ∧ difficulty q ≤ notes st + stretch)
    ∨ (102 ≤ topicID q ≤ 103 ∧ difficulty q ≤ chords st + stretch)
    ∨ (104 ≤ topicID q ∧ difficulty q ≤ scales st + stretch).
Proof.
  unfold fits.
  rewrite !orb_true_iff, !andb_true_iff, Z.eqb_eq, !Z.leb_le. tauto.
Qed.

(** C5. For a skill state with levels in [0,2] the candidate filter returns
    exactly the ids of the bank whose question has topic 101 and difficulty at
    most notes + stretch, or a topic in 102..103 and difficulty at most
    chords + stretch, or a topic of at least 104 and difficulty at most
    scales + stretch, where stretch is 1 when stretching is allowed and 0
    otherwise; each id is returned once, in ascending order, and no question
    of topic 100 or less is returned. *)
Theorem getActionsForStateLevel_exact (e : Engine) (allowSlightStretch : bool) :
  in_range (state e) →
  let stretch := if allowSlightStretch then 1 else 0 in
  let qualifies (q : Question) :=
    (topicID q = 101 ∧ difficulty q ≤ notes (state e) + stretch)
    ∨ (102 ≤ topicID q ≤ 103 ∧ difficulty q ≤ chords (state e) + stretch)
    ∨ (104 ≤ topicID q ∧ difficulty q ≤ scales (state e) + stretch) in
  (∀ id, id ∈ getActionsForStateLevel e allowSlightStretch ↔
         ∃ q, questionBankByID e !! id = Some q ∧ qualifies q) ∧
  NoDup (getActionsForStateLevel e allowSlightStretch) ∧
  StronglySorted Z.lt (getActionsForStateLevel e allowSlightStretch) ∧
  (∀ id q, questionBankByID e !! id = Some q → topicID q ≤ 100 →
           id ∉ getActionsForStateLevel e allowSlightStretch).
Proof.
  intros Hrange stretch qualifies. unfold getActionsForStateLevel.
  assert (∀ id, id ∈ actions_of (questionBankByID e) (state e) allowSlightStretch
                ↔ ∃ q, questionBankByID e !! id = Some q ∧ qualifies q) as Hiff.
  { intros id. rewrite elem_of_actions_of.
    split; intros (q & Hq & Hf); exists q; (split; [done|]);
      by apply fits_iff. }
  split_and!.
  - done.
  - apply ascending_NoDup, actions_of_ascending.
  - apply actions_of_ascending.
  - intros id q Hq Ht Hin. apply Hiff in Hin as (q' & Hq' & Hqual).
    assert (q' = q) as -> by congruence.
    unfold qualifies in Hqual. lia.
Qed.

Lemma getActionsForStateLevel_exact_witness :
  in_range (state Demo.engine) ∧
  ∀ id, id ∈ getActionsForStateLevel Demo.engine true ↔
        ∃ q, questionBankByID Demo.engine !! id = Some q ∧
             ((topicID q = 101 ∧ difficulty q ≤ notes (state Demo.engine) + 1)
              ∨ (102 ≤ topicID q ≤ 103
                 ∧ difficulty q ≤ chords (state Demo.engine) + 1)
              ∨ (104 ≤ topicID q
                 ∧ difficulty q ≤ scales (state Demo.engine) + 1)).
Proof.
  assert (in_range (state Demo.engine)) as Hr by (unfold in_range; simpl; lia).
  split; [exact Hr|].
  exact (proj1 (getActionsForStateLevel_exact Demo.engine true Hr)).
Defined.

(** ** Clamping of the skill state *)

Lemma promote_in_range topic s : in_range s → in_range (promote topic s).
Proof.
  unfold in_range, promote. intros Hs.
  repeat match goal with
    | |- context [if ?b then _ else _] => destruct b eqn:?
    end; simpl in *;
  rewrite ?andb_true_iff, ?Z.ltb_lt in *; lia.
Qed.

Lemma demote_in_range topic s : in_range s → in_range (demote topic s).
Proof.
  unfold in_range, demote. intros Hs.
  repeat match goal with
    | |- context [if ?b then _ else _] => destruct b eqn:?
    end; simpl in *;
  rewrite ?andb_true_iff, ?Z.gtb_ltb, ?Z.ltb_lt in *; lia.
Qed.

Lemma next_state_in_range e qid correct s :
  in_range s → in_range (next_state e qid correct s).
Proof.
  intros Hs. unfold next_state.
  destruct (threshold_reached e qid correct); [|done].
  destruct correct; auto using promote_in_range, demote_in_range.
Qed.

Lemma evaluateResponse_state e qid correct :
  state (evaluateResponse e qid correct) = next_state e qid correct (state e).
Proof. by rewrite evaluateResponse_eq. Qed.

(** ** The subscript of the Q-table *)

Lemma q_index_eq (t : QTable) s a :
  q_index t s a =
    (getQValue t s a,
     <[s := <[a := getQValue t s a]> (default ∅ (t !! s))]> t).
Proof.
  unfold q_index, getQValue, map_index.
  destruct (t !! s) as [row|] eqn:Hrow; simpl.
  - destruct (row !! a) as [v|] eqn:Hv; [|done].
    by rewrite (insert_id row a v).
  - rewrite lookup_empty. by rewrite insert_insert_eq.
Qed.

Lemma getQValue_row (t : QTable) s a :
  getQValue t s a = default F32.zero (default ∅ (t !! s) !! a).
Proof.
  unfold getQValue. destruct (t !! s) as [row|]; simpl; [done|].
  by rewrite lookup_empty.
Qed.

Lemma q_touch_lookup_ne t s a s' : s ≠ s' → q_touch t s a !! s' = t !! s'.
Proof.
  intros Hne. unfold q_touch. rewrite q_index_eq; simpl.
  by rewrite lookup_insert_ne.
Qed.

Lemma q_touch_lookup_eq t s a :
  q_touch t s a !! s =
    Some (<[a := getQValue t s a]> (default ∅ (t !! s))).
Proof. unfold q_touch. rewrite q_index_eq; simpl. by rewrite lookup_insert_eq. Qed.

(** Inserting the default changes no value that [getQValue] reports. *)
Lemma getQValue_q_touch t s a s' a' :
  getQValue (q_touch t s a) s' a' = getQValue t s' a'.
Proof.
  destruct (decide (s = s')) as [<-|Hne].
  - unfold getQValue at 1. rewrite q_touch_lookup_eq.
    destruct (decide (a = a')) as [<-|Hna].
    + by rewrite lookup_insert_eq.
    + rewrite lookup_insert_ne by done. unfold getQValue.
      destruct (t !! s); simpl; [done|]. by rewrite lookup_empty.
  - unfold getQValue. by rewrite q_touch_lookup_ne.
Qed.

Lemma getQValue_q_touch_all pool t s s' a' :
  getQValue (q_touch_all t s pool) s' a' = getQValue t s' a'.
Proof.
  revert t. induction pool as [|a pool IH]; intros t; simpl; [done|].
  unfold q_touch_all in *; simpl. by rewrite IH, getQValue_q_touch.
Qed.

Lemma q_touch_all_lookup_ne pool t s s' :
  s ≠ s' → q_touch_all t s pool !! s' = t !! s'.
Proof.
  intros Hne. revert t. induction pool as [|a pool IH]; intros t; [done|].
  unfold q_touch_all in *; simpl. by rewrite IH, q_touch_lookup_ne.
Qed.

(** The row of [s] afterwards: the stored values, and 0.0 for the ids of the
    pool that had none. *)
Lemma q_touch_all_row pool t s a :
  default ∅ (q_touch_all t s pool !! s) !! a =
    match default ∅ (t !! s) !! a with
    | Some v => Some v
    | None => if bool_decide (a ∈ pool) then Some F32.zero else None
    end.
Proof.
  revert t. induction pool as [|b pool IH]; intros t.
  - simpl. by destruct (default ∅ (t !! s) !! a).
  - unfold q_touch_all in *; simpl. rewrite IH, q_touch_lookup_eq; simpl.
    rewrite getQValue_row. generalize (default ∅ (t !! s)). intros row0.
    destruct (decide (b = a)) as [->|Hba].
    + rewrite lookup_insert_eq. destruct (row0 !! a); simpl; [done|].
      rewrite bool_decide_eq_true_2; [done|]. set_solver.
    + rewrite lookup_insert_ne by done. destruct (row0 !! a); [done|].
      rewrite (bool_decide_ext (a ∈ b :: pool) (a ∈ pool)); [done|].
      rewrite elem_of_cons. split; [intros [?|?]; [congruence|done]|by right].
Qed.

Lemma q_touch_all_is_Some pool t s :
  pool ≠ [] → is_Some (q_touch_all t s pool !! s).
Proof.
  assert (∀ pool t, is_Some (t !! s) → is_Some (q_touch_all t s pool !! s)) as Hgen.
  { clear. induction pool as [|b pool IH]; intros t Ht; [done|].
    unfold q_touch_all in *; simpl. apply IH. rewrite q_touch_lookup_eq. eauto. }
  destruct pool as [|b pool]; [done|]. intros _.
  unfold q_touch_all; simpl. apply Hgen. rewrite q_touch_lookup_eq. eauto.
Qed.

(** ** The exploit scan *)

Lemma exploit_fold_eq st (t0 : QTable) l :
  ∀ t bv bi,
    (∀ a, getQValue t st a = getQValue t0 st a) →
    fold_left (exploit_step st) l (t, bv, bi) =
      (q_touch_all t st l, (best_scan (getQValue t0 st) l bv bi).1,
       (best_scan (getQValue t0 st) l bv bi).2).
Proof.
  induction l as [|a l IH]; intros t bv bi Hq; [done|].
  unfold q_touch_all, best_scan in *; simpl.
  assert (q_index t st a = (getQValue t0 st a, q_touch t st a)) as ->.
  { unfold q_touch. by rewrite q_index_eq, Hq. }
  destruct (F32.gtb (getQValue t0 st a) bv); simpl;
    (rewrite IH; [done|]); intros a'; by rewrite getQValue_q_touch.
Qed.

Lemma exploit_scan_eq t st pool first :
  exploit_scan t st pool first =
    (q_touch_all t st pool,
     (best_scan (getQValue t st) pool F32.cm1e9 first).1,
     (best_scan (getQValue t st) pool F32.cm1e9 first).2).
Proof. unfold exploit_scan. by apply exploit_fold_eq. Qed.

Lemma best_scan_spec (Q : Z → spec_float) (l : list Z) :
  (∀ j, j ∈ l → F32.is_nan (Q j) = false) →
  ∀ bv bi, F32.is_nan bv = false →
    let r := best_scan Q l bv bi in
    (r = (bv, bi) ∧ ∀ j, j ∈ l → F32.gtb (Q j) bv = false)
    ∨ (∃ i : nat, l !! i = Some r.2 ∧ r.1 = Q r.2 ∧ F32.ltb bv (Q r.2) = true
         ∧ (∀ j, j ∈ l → F32.gtb (Q j) (Q r.2) = false)
         ∧ (∀ (i' : nat) j, (i' < i)%nat → l !! i' = Some j →
                            F32.ltb (Q j) (Q r.2) = true)).
Proof.
  induction l as [|a l IH]; intros Hnan bv bi Hbv r.
  { left. split; [done|]. intros j Hj. by apply elem_of_nil in Hj. }
  assert (F32.is_nan (Q a) = false) as Ha by (apply Hnan; set_solver).
  assert (∀ j, j ∈ l → F32.is_nan (Q j) = false) as Hnan'
    by (intros; apply Hnan; set_solver).
  subst r. unfold best_scan in *; simpl.
  destruct (F32.gtb (Q a) bv) eqn:Hgt.
  - destruct (IH Hnan' (Q a) a Ha) as [[Hr Hall]|(i & Hi & Hv & Hlt & Hmax & Hfirst)].
    + right. exists 0%nat. rewrite Hr; simpl. split_and!; try done.
      * intros j [->|Hj]%elem_of_cons; [apply ltb_irrefl|by apply Hall].
      * intros i' j Hi'. lia.
    + right. exists (S i). split_and!; try done.
      * by apply ltb_trans with (Q a).
      * intros j [->|Hj]%elem_of_cons; [by apply ltb_asym|by apply Hmax].
      * intros [|i'] j Hi' Hj; simpl in Hj.
        -- by injection Hj as <-.
        -- apply (Hfirst i'); [lia|done].
  - destruct (IH Hnan' bv bi Hbv) as [[Hr Hall]|(i & Hi & Hv & Hlt & Hmax & Hfirst)].
    + left. split; [done|].
      intros j [->|Hj]%elem_of_cons; [done|by apply Hall].
    + assert (F32.ltb (Q a) (Q (fold_left
                (λ acc qid, if F32.gtb (Q qid) acc.1 then (Q qid, qid) else acc)
                l (bv, bi)).2) = true) as Hlta.
      { apply leb_ltb_trans with bv; [|done]. by apply not_ltb_leb. }
      right. exists (S i). split_and!; try done.
      * intros j [->|Hj]%elem_of_cons; [by apply ltb_asym|by apply Hmax].
      * intros [|i'] j Hi' Hj; simpl in Hj.
        -- by injection Hj as <-.
        -- apply (Hfirst i'); [lia|done].
Qed.

(** ** Question selection *)

Lemma elem_of_not_asked asked candidates id :
  id ∈ not_asked asked candidates ↔ id ∈ candidates ∧ id ∉ asked.
Proof.
  unfold not_asked. rewrite elem_of_filter_bool, negb_true_iff.
  by rewrite bool_decide_eq_false.
Qed.

Lemma nonempty_true {A} (l : list A) : nonempty l = true ↔ l ≠ [].
Proof. by destruct l. Qed.

(** The pool after the session filter is taken from the candidates. *)
Lemma session_filter_subset asked candidates id :
  id ∈ (session_filter asked candidates).2 → id ∈ candidates.
Proof.
  unfold session_filter.
  destruct (nonempty (not_asked asked candidates)); simpl; [|done].
  by intros [? _]%elem_of_not_asked.
Qed.

Lemma session_filter_ascending asked candidates :
  StronglySorted Z.lt candidates →
  StronglySorted Z.lt (session_filter asked candidates).2.
Proof.
  intros Hs. unfold session_filter.
  destruct (nonempty (not_asked asked candidates)); simpl; [|done].
  by apply filter_bool_StronglySorted.
Qed.

Lemma bucket_fold_bank l :
  ∀ bank nQ cQ sQ,
    (∀ qid, qid ∈ l → is_Some (bank !! qid)) →
    (fold_left bucket_step l (bank, nQ, cQ, sQ)).1.1.1 = bank.
Proof.
  induction l as [|a l IH]; intros bank nQ cQ sQ Hin; [done|].
  simpl. destruct (Hin a) as [q Hq]; [set_solver|].
  unfold map_index. rewrite Hq.
  assert (∀ qid, qid ∈ l → is_Some (bank !! qid)) as Hin'
    by (intros; apply Hin; set_solver).
  repeat case_match; by apply IH.
Qed.

Lemma bucket_fold_subset l :
  ∀ bank nQ cQ sQ (P : Z → Prop),
    (∀ qid, qid ∈ l → P qid) →
    (∀ qid, qid ∈ nQ ∨ qid ∈ cQ ∨ qid ∈ sQ → P qid) →
    let r := fold_left bucket_step l (bank, nQ, cQ, sQ) in
    ∀ qid, qid ∈ r.1.1.2 ∨ qid ∈ r.1.2 ∨ qid ∈ r.2 → P qid.
Proof.
  induction l as [|a l IH]; intros bank nQ cQ sQ P Hl Hacc; [done|].
  simpl. destruct (map_index default_Question bank a) as [q bank1].
  assert (∀ qid, qid ∈ l → P qid) as Hl' by (intros; apply Hl; set_solver).
  assert (P a) as Ha by (apply Hl; set_solver).
  repeat case_match; apply IH; try done; intros qid;
    rewrite ?elem_of_app, ?list_elem_of_singleton;
    intros Hq; destruct_or?; subst; auto.
Qed.

Lemma pick_is_Some (v : list Z) r : v ≠ [] → ∃ id, pick v r = Some id ∧ id ∈ v.
Proof.
  intros Hv. unfold pick.
  assert (0 < Z.of_nat (length v)) as Hlen by (destruct v; [done|simpl; lia]).
  pose proof (Z.mod_pos_bound r _ Hlen) as Hb.
  destruct (v !! Z.to_nat (r mod Z.of_nat (length v))) as [id|] eqn:Hid.
  - exists id. split; [done|]. by eapply list_elem_of_lookup_2.
  - apply lookup_ge_None in Hid. lia.
Qed.

Lemma with_bank_same e : with_bank e (questionBankByID e) = e.
Proof. by destruct e. Qed.

(** [getNextAction] by cases: the engine afterwards differs from the one
    before in the asked-set and, in the exploit branch, the Q-table. *)
Lemma getNextAction_cases e r1 r2 r3 :
  let explore := explore_draw (state e) r1 in
  let sf := session_filter (askedQuestionsThisSession e)
              (getActionsForStateLevel e explore) in
  let e1 := with_asked e sf.1 in
  getNextAction e r1 r2 r3 =
    match sf.2 with
    | [] =>
        match sorted_keys (questionBankByID e) with
        | [] => None
        | k :: _ => Some (k, e1)
        end
    | first :: _ =>
        if explore then
          (λ id, (id, e1)) <$> explore_choice (questionBankByID e) sf.2 r2 r3
        else
          Some ((best_scan (getQValue (q_table e) (state e)) sf.2
                   F32.cm1e9 first).2,
                with_q_table e1 (q_touch_all (q_table e) (state e) sf.2))
    end.
Proof.
  intros explore sf e1. unfold getNextAction.
  fold explore. fold sf. destruct sf as [asked1 pool] eqn:Hsf. simpl.
  destruct pool as [|first pool']; [done|].
  destruct explore eqn:Hex.
  - assert ((session_filter (askedQuestionsThisSession e)
               (getActionsForStateLevel e true)).2 = first :: pool') as Hpool
      by (subst sf; by rewrite Hsf).
    pose proof (bucket_fold_bank (first :: pool') (questionBankByID e) [] [] []) as Hb.
    unfold explore_choice, buckets in *.
    change (questionBankByID (with_asked e asked1)) with (questionBankByID e).
    destruct (fold_left bucket_step (first :: pool') (questionBankByID e, [], [], []))
      as [[[bank1 nQ] cQ] sQ] eqn:Hfold.
    simpl in Hb. rewrite Hb.
    2:{ intros qid Hq. rewrite <- Hpool in Hq.
        apply session_filter_subset, elem_of_actions_of in Hq as (q & -> & _).
        eauto. }
    replace (with_bank (with_asked e asked1) (questionBankByID e))
      with (with_asked e asked1) by (by destruct e).
    subst e1. simpl.
    destruct (Z.rem r2 3 =? 0); simpl.
    { destruct nQ; simpl; [|done].
      destruct (Z.rem r2 3 =? 1); simpl.
      { destruct cQ; simpl; [|done].
        destruct (Z.rem r2 3 =? 2); simpl; [destruct sQ; simpl|]; done. }
      destruct (Z.rem r2 3 =? 2); simpl; [destruct sQ; simpl|]; done. }
    destruct (Z.rem r2 3 =? 1); simpl.
    { destruct cQ; simpl; [|done].
      destruct (Z.rem r2 3 =? 2); simpl; [destruct sQ; simpl|]; done. }
    destruct (Z.rem r2 3 =? 2); simpl; [destruct sQ; simpl|]; done.
  - change (q_table (with_asked e asked1)) with (q_table e).
    change (state (with_asked e asked1)) with (state e).
    by rewrite exploit_scan_eq.
Qed.

Lemma exploit_pool_ascending e : StronglySorted Z.lt (exploit_pool e).
Proof. apply session_filter_ascending, actions_of_ascending. Qed.

(** C6. In the exploit branch (the epsilon draw is not below epsilon, and the
    filtered pool is not empty), when every Q-value of the pool for the current
    state is above the initial sentinel -1e9 -- an absent pair counting as
    0.0 --, the id returned is an element of the pool whose Q-value no other
    element exceeds, and every id met before it in the pool has a strictly
    smaller Q-value; the pool is in ascending order of id. *)
Theorem exploit_returns_first_best (e : Engine) (r1 r2 r3 : Z) :
  let pool := exploit_pool e in
  let Q := getQValue (q_table e) (state e) in
  explore_draw (state e) r1 = false →
  pool ≠ [] →
  Forall (λ j, F32.ltb F32.cm1e9 (Q j) = true) pool →
  ∃ (id : Z) (e' : Engine) (i : nat),
    getNextAction e r1 r2 r3 = Some (id, e') ∧
    pool !! i = Some id ∧
    (∀ j, j ∈ pool → F32.gtb (Q j) (Q id) = false) ∧
    (∀ (i' : nat) j, (i' < i)%nat → pool !! i' = Some j →
                     F32.ltb (Q j) (Q id) = true) ∧
    StronglySorted Z.lt pool ∧
    (∀ j, (q_table e !! state e) ≫= (λ row, row !! j) = None → Q j = F32.zero) ∧
    F32.cm1e9 = F32.of_int (-1000000000).
Proof.
  intros pool Q Hex Hne Habove.
  rewrite Forall_forall in Habove.
  pose proof (exploit_pool_ascending e) as Hasc.
  pose proof (getNextAction_cases e r1 r2 r3) as Hcases.
  rewrite Hex in Hcases. cbv zeta in Hcases.
  fold (exploit_pool e) in Hcases.
  assert (pool = exploit_pool e) as Hp by done.
  assert (Q = getQValue (q_table e) (state e)) as HQ by done.
  clearbody pool Q. rewrite <- Hp, <- HQ in *.
  assert (∀ j, j ∈ pool → F32.is_nan (Q j) = false) as Hnan.
  { intros j Hj. by apply (ltb_not_nan _ _ (Habove j Hj)). }
  destruct pool as [|first pool']; [done|].
  destruct (best_scan_spec Q (first :: pool') Hnan F32.cm1e9 first eq_refl)
    as [[_ Hall]|(i & Hi & _ & _ & Hmax & Hfirst)].
  - exfalso. assert (first ∈ first :: pool') as Hin by set_solver.
    specialize (Hall first Hin). specialize (Habove first Hin).
    rewrite gtb_ltb in Hall. congruence.
  - eexists _, _, i. split; [exact Hcases|]. split_and!; try done.
    intros j Hj. subst Q. unfold getQValue.
    destruct (q_table e !! state e) as [row|]; simpl in *; [|done].
    by rewrite Hj.
Qed.

Lemma exploit_returns_first_best_witness :
  ∃ (id : Z) (e' : Engine) (i : nat),
    getNextAction Demo.engine RAND_MAX 0 0 = Some (id, e') ∧
    exploit_pool Demo.engine !! i = Some id ∧
    (∀ j, j ∈ exploit_pool Demo.engine →
       F32.gtb (getQValue (q_table Demo.engine) (state Demo.engine) j)
               (getQValue (q_table Demo.engine) (state Demo.engine) id) = false) ∧
    (∀ (i' : nat) j, (i' < i)%nat → exploit_pool Demo.engine !! i' = Some j →
       F32.ltb (getQValue (q_table Demo.engine) (state Demo.engine) j)
               (getQValue (q_table Demo.engine) (state Demo.engine) id) = true) ∧
    StronglySorted Z.lt (exploit_pool Demo.engine) ∧
    (∀ j, (q_table Demo.engine !! state Demo.engine) ≫= (λ row, row !! j) = None →
          getQValue (q_table Demo.engine) (state Demo.engine) j = F32.zero) ∧
    F32.cm1e9 = F32.of_int (-1000000000).
Proof.
  apply (exploit_returns_first_best Demo.engine RAND_MAX 0 0).
  - vm_compute. reflexivity.
  - vm_compute. discriminate.
  - apply (bool_decide_unpack _). vm_compute. reflexivity.
Defined.

(** With an empty question bank the fallback dereferences [begin()] of an
    empty map: [getNextAction] has no defined result, whatever the Q-table,
    the skill state and the draws. *)
Lemma getNextAction_empty_bank (qTable : QTable) (s0 : State) (r1 r2 r3 : Z) :
  getNextAction (AdaptiveQuiz ∅ qTable s0) r1 r2 r3 = None.
Proof.
  rewrite getNextAction_cases. cbv zeta.
  unfold getActionsForStateLevel, actions_of; simpl.
  rewrite (sorted_keys_empty (A := Question)). simpl.
  unfold session_filter; simpl. reflexivity.
Qed.

Lemma best_scan_in (Q : Z → spec_float) (l : list Z) :
  ∀ bv bi, (best_scan Q l bv bi).2 = bi ∨ (best_scan Q l bv bi).2 ∈ l.
Proof.
  induction l as [|a l IH]; intros bv bi; [by left|].
  unfold best_scan in *; simpl.
  destruct (F32.gtb (Q a) bv).
  - destruct (IH (Q a) a) as [->|Hin]; right; set_solver.
  - destruct (IH bv bi) as [->|Hin]; [by left|right; set_solver].
Qed.

Lemma session_filter_all_asked asked candidates :
  not_asked asked candidates = [] →
  session_filter asked candidates = (∅, candidates).
Proof. unfold session_filter. by intros ->. Qed.

Lemma session_filter_some_left asked candidates :
  not_asked asked candidates ≠ [] →
  session_filter asked candidates = (asked, not_asked asked candidates).
Proof.
  unfold session_filter. intros Hne.
  by destruct (not_asked asked candidates).
Qed.

Lemma explore_choice_in bank pool r2 r3 :
  pool ≠ [] → ∃ id, explore_choice bank pool r2 r3 = Some id ∧ id ∈ pool.
Proof.
  intros Hne. unfold explore_choice, buckets.
  pose proof (bucket_fold_subset pool bank [] [] [] (λ qid, qid ∈ pool)) as Hsub.
  destruct (fold_left bucket_step pool (bank, [], [], []))
    as [[[bank1 nQ] cQ] sQ]. simpl in Hsub.
  assert (∀ qid, qid ∈ nQ ∨ qid ∈ cQ ∨ qid ∈ sQ → qid ∈ pool) as Hsub'.
  { apply Hsub; [done|]. intros qid [H|[H|H]]; by apply elem_of_nil in H. }
  assert (∀ g, (∀ qid, qid ∈ g → qid ∈ pool) → g ≠ [] →
            ∃ id, pick g r3 = Some id ∧ id ∈ pool) as Hpick.
  { intros g Hg Hgne. destruct (pick_is_Some g r3 Hgne) as (id & -> & Hid).
    eauto. }
  repeat match goal with
    | |- context [if ?b then _ else _] => destruct b eqn:?
    end;
  rewrite ?andb_true_iff, ?nonempty_true in *; destruct_and?;
  apply Hpick; auto.
Qed.

(** With a bank that is not empty [getNextAction] always returns the id of a
    question of the bank: an element of the pool left by the session filter,
    or the least id of the bank when that pool is empty. *)
Lemma getNextAction_defined (e : Engine) (r1 r2 r3 : Z) :
  questionBankByID e ≠ ∅ →
  let sf := session_filter (askedQuestionsThisSession e)
              (getActionsForStateLevel e (explore_draw (state e) r1)) in
  ∃ id e', getNextAction e r1 r2 r3 = Some (id, e') ∧
    is_Some (questionBankByID e !! id) ∧
    askedQuestionsThisSession e' = sf.1 ∧
    (sf.2 ≠ [] → id ∈ sf.2) ∧
    (sf.2 = [] → ∀ j, is_Some (questionBankByID e !! j) → id ≤ j).
Proof.
  intros Hbank sf.
  rewrite getNextAction_cases. cbv zeta. fold sf.
  assert (∀ id, id ∈ sf.2 → is_Some (questionBankByID e !! id)) as Hpool.
  { intros id (q & -> & _)%session_filter_subset%elem_of_actions_of. eauto. }
  destruct (sf.2) as [|first pool'] eqn:Hsf.
  - destruct (sorted_keys (questionBankByID e)) as [|k ks] eqn:Hk.
    { by apply sorted_keys_nil in Hk. }
    eexists _, _. split; [done|]. split_and!; try done.
    + apply elem_of_sorted_keys. rewrite Hk. set_solver.
    + intros _ j Hj. by eapply sorted_keys_head_least.
  - destruct (explore_draw (state e) r1).
    + destruct (explore_choice_in (questionBankByID e) (first :: pool') r2 r3)
        as (id & -> & Hid); [done|].
      eexists _, _. split; [done|]. split_and!; auto; done.
    + eexists _, _. split; [done|].
      pose proof (best_scan_in (getQValue (q_table e) (state e)) (first :: pool')
                    F32.cm1e9 first) as Hin.
      assert ((best_scan (getQValue (q_table e) (state e)) (first :: pool')
                 F32.cm1e9 first).2 ∈ first :: pool') as Hin'
        by (destruct Hin as [->|Hin]; [set_solver|done]).
      split_and!; auto; done.
Qed.



(** X25. On a bank that is not empty [getNextAction] always returns the id
    of a question of the bank.  When some candidate is not in the asked-set
    the id is a candidate outside the asked-set and the asked-set is kept;
    when every candidate is in the asked-set the asked-set is cleared and
    the id is taken from the whole candidate list; when there is no
    candidate at all the id is the least id of the bank. *)
Theorem getNextAction_nonempty_bank (e : Engine) (r1 r2 r3 : Z) :
  questionBankByID e ≠ ∅ →
  let candidates := getActionsForStateLevel e (explore_draw (state e) r1) in
  let asked := askedQuestionsThisSession e in
  ∃ id e', getNextAction e r1 r2 r3 = Some (id, e') ∧
    is_Some (questionBankByID e !! id) ∧
    ((∃ c, c ∈ candidates ∧ (c ∉ asked)) →
       id ∈ candidates ∧ (id ∉ asked) ∧ askedQuestionsThisSession e' = asked) ∧
    ((∀ c, c ∈ candidates → c ∈ asked) →
       askedQuestionsThisSession e' = ∅ ∧
       (candidates ≠ [] → id ∈ candidates)) ∧
    (candidates = [] →
       askedQuestionsThisSession e' = ∅ ∧
       ∀ j, is_Some (questionBankByID e !! j) → id ≤ j).
Proof.
  intros Hbank candidates asked.
  destruct (getNextAction_defined e r1 r2 r3 Hbank)
    as (id & e' & Hn & Hid & Hasked & Hin & Hleast).
  fold candidates asked in Hasked, Hin, Hleast.
  assert ((∀ c, c ∈ candidates → c ∈ asked) → not_asked asked candidates = [])
    as Hall.
  { intros Hc. destruct (not_asked asked candidates) as [|x l] eqn:Hx; [done|].
    assert (x ∈ not_asked asked candidates) as Hin' by (rewrite Hx; by left).
    apply elem_of_not_asked in Hin' as [Hx1 Hx2]. by specialize (Hc x Hx1). }
  exists id, e'. split_and!; [done|done| | |].
  - intros (c & Hc & Hnot).
    assert (not_asked asked candidates ≠ []) as Hne.
    { intros Hnil.
      assert (c ∈ not_asked asked candidates) as Hin'
        by (by apply elem_of_not_asked).
      rewrite Hnil in Hin'. by apply elem_of_nil in Hin'. }
    rewrite (session_filter_some_left _ _ Hne) in Hasked, Hin. simpl in *.
    specialize (Hin Hne). apply elem_of_not_asked in Hin as [Hin1 Hin2].
    done.
  - intros Hc. specialize (Hall Hc).
    rewrite (session_filter_all_asked _ _ Hall) in Hasked, Hin. simpl in *.
    split; [done|by apply Hin].
  - intros Hnil.
    assert (not_asked asked candidates = []) as Hall'.
    { apply Hall. rewrite Hnil. intros c Hc. by apply elem_of_nil in Hc. }
    rewrite (session_filter_all_asked _ _ Hall') in Hasked, Hleast.
    simpl in *. split; [done|]. by apply Hleast.
Qed.

Lemma getNextAction_nonempty_bank_witness :
  let e := DemoHard.engine in
  let candidates := getActionsForStateLevel e (explore_draw (state e) 0) in
  let asked := askedQuestionsThisSession e in
  questionBankByID e ≠ ∅ ∧
  ∃ id e', getNextAction e 0 0 0 = Some (id, e') ∧
    is_Some (questionBankByID e !! id) ∧
    ((∃ c, c ∈ candidates ∧ (c ∉ asked)) →
       id ∈ candidates ∧ (id ∉ asked) ∧ askedQuestionsThisSession e' = asked) ∧
    ((∀ c, c ∈ candidates → c ∈ asked) →
       askedQuestionsThisSession e' = ∅ ∧
       (candidates ≠ [] → id ∈ candidates)) ∧
    (candidates = [] →
       askedQuestionsThisSession e' = ∅ ∧
       ∀ j, is_Some (questionBankByID e !! j) → id ≤ j).
Proof.
  intros e candidates asked.
  assert (questionBankByID e ≠ ∅) as Hbank by (vm_compute; discriminate).
  split; [exact Hbank|].
  apply (getNextAction_nonempty_bank e 0 0 0 Hbank).
Defined.

(** The degenerate fallback of the specification: a bank of one question
    that the filter excludes still yields that question. *)
Example degenerate_fallback :
  getActionsForStateLevel DemoHard.engine true = [] ∧
  fst <$> getNextAction DemoHard.engine 0 0 0 = Some 7 ∧
  fst <$> getNextAction DemoHard.engine RAND_MAX 0 0 = Some 7.
Proof. vm_compute. repeat split. Qed.


(** ** Sessions *)

Lemma run_app e calls1 calls2 :
  run e (calls1 ++ calls2) = run e calls1 ≫= λ e', run e' calls2.
Proof.
  revert e. induction calls1 as [|c calls1 IH]; intros e; simpl; [done|].
  destruct (call e c); simpl; [apply IH|done].
Qed.

Lemma run_answers e answers :
  run e (map (λ a, CallEvaluate a.1 a.2) answers) = Some (evaluate_all e answers).
Proof.
  revert e. induction answers as [|a answers IH]; intros e; simpl; [done|].
  apply IH.
Qed.

(** An invariant of every call is an invariant of every session. *)
Lemma run_invariant (P : Engine → Prop) :
  (∀ e qid correct, P e → P (evaluateResponse e qid correct)) →
  (∀ e r1 r2 r3 id e', P e → getNextAction e r1 r2 r3 = Some (id, e') → P e') →
  ∀ calls e e', P e → run e calls = Some e' → P e'.
Proof.
  intros Hev Hnext. induction calls as [|c calls IH]; intros e e' HP Hrun.
  - simpl in Hrun. congruence.
  - simpl in Hrun. destruct c as [r1 r2 r3|qid correct]; simpl in Hrun.
    + destruct (getNextAction e r1 r2 r3) as [[id e1]|] eqn:Hn; [|done].
      simpl in Hrun. eapply IH; [|done]. by eapply Hnext.
    + eapply IH; [|done]. by apply Hev.
Qed.

Lemma evaluate_all_invariant (P : Engine → Prop) :
  (∀ e qid correct, P e → P (evaluateResponse e qid correct)) →
  ∀ answers e, P e → P (evaluate_all e answers).
Proof.
  intros Hev. induction answers as [|a answers IH]; intros e HP; [done|].
  unfold evaluate_all in *; simpl. by apply IH, Hev.
Qed.

(** What [getNextAction] leaves alone, and what it does to the asked-set and
    to the Q-table. *)
Lemma getNextAction_engine e r1 r2 r3 id e' :
  getNextAction e r1 r2 r3 = Some (id, e') →
  let explore := explore_draw (state e) r1 in
  let sf := session_filter (askedQuestionsThisSession e)
              (getActionsForStateLevel e explore) in
  e' = with_q_table (with_asked e sf.1)
         (if explore || negb (nonempty sf.2) then q_table e
          else q_touch_all (q_table e) (state e) sf.2).
Proof.
  intros Hn explore sf. rewrite getNextAction_cases in Hn. cbv zeta in Hn.
  fold explore in Hn. fold sf in Hn.
  assert (∀ e0, with_q_table e0 (q_table e0) = e0) as Hsame by (by intros []).
  destruct (sf.2) as [|first pool']; simpl.
  - rewrite orb_true_r.
    destruct (sorted_keys (questionBankByID e)); [done|].
    injection Hn as _ <-. symmetry. apply (Hsame (with_asked e sf.1)).
  - rewrite orb_false_r. destruct explore.
    + destruct (explore_choice _ _ _ _); [|done].
      injection Hn as _ <-. symmetry. apply (Hsame (with_asked e sf.1)).
    + by injection Hn as _ <-.
Qed.

Lemma getNextAction_state e r1 r2 r3 id e' :
  getNextAction e r1 r2 r3 = Some (id, e') → state e' = state e.
Proof. intros Hn. by rewrite (getNextAction_engine _ _ _ _ _ _ Hn). Qed.

(** C1. From a skill state whose three fields are in [0,2], the skill state
    after every call of a sequence of [evaluateResponse] calls (any ids, any
    correctness flags) has its three fields in [0,2]; the same holds after any
    session that also calls [getNextAction]. *)
Theorem skill_state_clamped (e : Engine) (answers : list (Z * bool)) (n : nat) :
  in_range (state e) →
  in_range (state (evaluate_all e (take n answers))) ∧
  (∀ calls e', run e calls = Some e' → in_range (state e')).
Proof.
  intros Hs. split.
  - apply (evaluate_all_invariant (λ e, in_range (state e))); [|done].
    intros e0 qid correct H0. rewrite evaluateResponse_state.
    by apply next_state_in_range.
  - intros calls e'. apply (run_invariant (λ e, in_range (state e))); [| |done].
    + intros e0 qid correct H0. rewrite evaluateResponse_state.
      by apply next_state_in_range.
    + intros e0 r1 r2 r3 id e1 H0 Hn.
      by rewrite (getNextAction_state _ _ _ _ _ _ Hn).
Qed.

Lemma skill_state_clamped_witness :
  in_range (state (evaluate_all Demo.engine
                     (take 5 [(1, true); (1, true); (1, true); (1, true);
                              (1, true); (2, false); (2, false)]))) ∧
  (∀ calls e', run Demo.engine calls = Some e' → in_range (state e')).
Proof.
  apply (skill_state_clamped Demo.engine
           [(1, true); (1, true); (1, true); (1, true); (1, true);
            (2, false); (2, false)] 5).
  vm_compute. intuition discriminate.
Defined.

(** ** The question bank *)

Lemma evaluateResponse_bank e qid correct :
  questionBankByID (evaluateResponse e qid correct) =
    bank_after_index (questionBankByID e) qid.
Proof. by rewrite evaluateResponse_eq. Qed.

(** Answers to questions of the bank and question selection leave the bank as
    it is. *)
Lemma evaluateResponse_bank_known e qid q correct :
  questionBankByID e !! qid = Some q →
  questionBankByID (evaluateResponse e qid correct) = questionBankByID e.
Proof.
  intros Hq. rewrite evaluateResponse_bank. by eapply bank_after_index_present.
Qed.

Lemma getNextAction_bank e r1 r2 r3 id e' :
  getNextAction e r1 r2 r3 = Some (id, e') →
  questionBankByID e' = questionBankByID e.
Proof. intros Hn. by rewrite (getNextAction_engine _ _ _ _ _ _ Hn). Qed.

Lemma evaluateResponse_bank_unknown e qid correct :
  questionBankByID e !! qid = None →
  questionBankByID (evaluateResponse e qid correct) =
    <[qid := default_Question]> (questionBankByID e).
Proof.
  intros Hq. rewrite evaluateResponse_bank.
  unfold bank_after_index, map_index. by rewrite Hq.
Qed.

(** C8. [evaluateResponse] with an id that is not in the bank adds an entry
    to the bank: the subscript [questionBankByID[questionID]] inserts a
    value-initialised question under that id. *)
Theorem evaluateResponse_unknown_id_grows_bank :
  questionBankByID Demo.engine !! 99 = None ∧
  questionBankByID (evaluateResponse Demo.engine 99 true) !! 99
    = Some default_Question ∧
  questionBankByID (evaluateResponse Demo.engine 99 true)
    = <[99 := default_Question]> (questionBankByID Demo.engine) ∧
  questionBankByID (evaluateResponse Demo.engine 99 true)
    ≠ questionBankByID Demo.engine.
Proof.
  assert (questionBankByID Demo.engine !! 99 = None) as Hnone
    by (vm_compute; reflexivity).
  rewrite (evaluateResponse_bank_unknown _ _ _ Hnone).
  split_and!; [done|by rewrite lookup_insert_eq|done|].
  intros Heq. rewrite <- Heq, lookup_insert_eq in Hnone. discriminate.
Qed.

(** What the inserted entry does later: once an unknown id below the ids of
    the bank has been answered, the degenerate fallback returns that id,
    which is the id of no question of the bank the engine was built on. *)
Example unknown_id_becomes_fallback :
  let e := evaluateResponse DemoHard.engine 3 true in
  DemoHard.bank !! 3 = None ∧
  getQuestion e 3 = default_Question ∧
  fst <$> getNextAction e RAND_MAX 0 0 = Some 3.
Proof. vm_compute. repeat split. Qed.

(** A bank that is not empty stays so, hence no call of a session of a quiz
    that [startQuiz] started is undefined. *)
Lemma bank_after_index_nonempty bank qid :
  bank ≠ ∅ → bank_after_index bank qid ≠ ∅.
Proof.
  intros Hne. unfold bank_after_index, map_index.
  destruct (bank !! qid); simpl; [done|]. apply insert_non_empty.
Qed.

Lemma run_defined calls :
  ∀ e, questionBankByID e ≠ ∅ → is_Some (run e calls).
Proof.
  induction calls as [|c calls IH]; intros e Hne; simpl; [eauto|].
  destruct c as [r1 r2 r3|qid correct]; simpl.
  - destruct (getNextAction_defined e r1 r2 r3 Hne) as (id & e' & Hn & _).
    rewrite Hn. simpl. apply IH.
    by rewrite (getNextAction_bank _ _ _ _ _ _ Hn).
  - apply IH. rewrite evaluateResponse_eq. simpl.
    by apply bank_after_index_nonempty.
Qed.

Lemma startQuiz_sessions_defined questionBank qTable userState e calls :
  startQuiz questionBank qTable userState = Some e → is_Some (run e calls).
Proof.
  unfold startQuiz. case_bool_decide as Hb; [done|].
  intros [= <-]. by apply run_defined.
Qed.

(** ** History *)

Lemma getNextAction_history e r1 r2 r3 id e' :
  getNextAction e r1 r2 r3 = Some (id, e') →
  history e' = history e ∧ totalQuestions e' = totalQuestions e.
Proof. intros Hn. by rewrite (getNextAction_engine _ _ _ _ _ _ Hn). Qed.

(** C9. Each [evaluateResponse] appends exactly one history entry -- the
    skill state before the update, the id, the description of the question
    and the correctness flag -- and adds one to [totalQuestions];
    [getNextAction] touches neither; so after any sequence of
    [evaluateResponse] calls, and after any session, the length of the history
    is [totalQuestions], and the history before a session is a prefix of the
    history after it. *)
Theorem history_append_only :
  (∀ e qid correct,
     history (evaluateResponse e qid correct) =
       history e ++ [(state e, qid, description (getQuestion e qid), correct)]
     ∧ totalQuestions (evaluateResponse e qid correct) = totalQuestions e + 1) ∧
  (∀ e r1 r2 r3 id e',
     getNextAction e r1 r2 r3 = Some (id, e') →
     history e' = history e ∧ totalQuestions e' = totalQuestions e) ∧
  (∀ bank qTable s0 answers,
     let e := evaluate_all (AdaptiveQuiz bank qTable s0) answers in
     Z.of_nat (length (history e)) = totalQuestions e
     ∧ length (history e) = length answers) ∧
  (∀ bank qTable s0 calls e,
     run (AdaptiveQuiz bank qTable s0) calls = Some e →
     Z.of_nat (length (history e)) = totalQuestions e) ∧
  (∀ e calls e', run e calls = Some e' → history e `prefix_of` history e').
Proof.
  assert (∀ e qid correct,
     history (evaluateResponse e qid correct) =
       history e ++ [(state e, qid, description (getQuestion e qid), correct)]
     ∧ totalQuestions (evaluateResponse e qid correct) = totalQuestions e + 1)
    as Hev by (intros; by rewrite evaluateResponse_eq).
  split_and!.
  - done.
  - apply getNextAction_history.
  - intros bank qTable s0 answers e. subst e.
    assert (∀ answers e0,
      Z.of_nat (length (history (evaluate_all e0 answers)))
        - totalQuestions (evaluate_all e0 answers)
        = Z.of_nat (length (history e0)) - totalQuestions e0
      ∧ length (history (evaluate_all e0 answers))
        = (length (history e0) + length answers)%nat) as Hgen.
    { clear -Hev. induction answers as [|a answers IH]; intros e0.
      - simpl. split; [done|lia].
      - unfold evaluate_all in *; simpl.
        destruct (IH (evaluateResponse e0 a.1 a.2)) as [IH1 IH2].
        destruct (Hev e0 a.1 a.2) as [Hh Ht].
        rewrite IH1, IH2, Hh, Ht, length_app; simpl. lia. }
    destruct (Hgen answers (AdaptiveQuiz bank qTable s0)) as [H1 H2].
    simpl in *. lia.
  - intros bank qTable s0 calls e.
    apply (run_invariant
             (λ e, Z.of_nat (length (history e)) = totalQuestions e)); [| |done].
    + intros e0 qid correct H0. destruct (Hev e0 qid correct) as [-> ->].
      rewrite length_app; simpl. lia.
    + intros e0 r1 r2 r3 id e1 H0 Hn.
      by destruct (getNextAction_history _ _ _ _ _ _ Hn) as [-> ->].
  - intros e calls e' Hrun.
    eapply (run_invariant (λ e1, history e `prefix_of` history e1));
      [| | |exact Hrun].
    + intros e0 qid correct H0. destruct (Hev e0 qid correct) as [-> _].
      by apply prefix_app_r.
    + intros e0 r1 r2 r3 id e1 H0 Hn.
      by destruct (getNextAction_history _ _ _ _ _ _ Hn) as [-> _].
    + done.
Qed.

(** ** Frame of question selection *)

(** C10, as stated, fails: once every candidate has been asked,
    [getNextAction] clears the asked-set. *)
Lemma getNextAction_clears_asked_set :
  ∃ id e',
    getNextAction DemoAsked.engine RAND_MAX 0 0 = Some (id, e') ∧
    askedQuestionsThisSession DemoAsked.engine = {[1]} ∧
    askedQuestionsThisSession e' = ∅ ∧
    askedQuestionsThisSession e' ≠ askedQuestionsThisSession DemoAsked.engine.
Proof.
  destruct (getNextAction DemoAsked.engine RAND_MAX 0 0) as [[id e']|] eqn:Hn;
    [|by vm_compute in Hn].
  exists id, e'. split; [done|].
  assert (askedQuestionsThisSession DemoAsked.engine = {[1]}) as Ha.
  { unfold DemoAsked.engine. rewrite evaluateResponse_eq. simpl.
    apply (right_id_L ∅ (∪)). }
  assert (askedQuestionsThisSession e' = ∅) as He.
  { rewrite (getNextAction_engine _ _ _ _ _ _ Hn). simpl.
    rewrite session_filter_all_asked; [done|].
    rewrite Ha. vm_compute. reflexivity. }
  split_and!; [done|done|]. rewrite Ha, He. intros Heq.
  apply (not_elem_of_empty (C := gset Z) 1). rewrite Heq.
  by apply elem_of_singleton.
Qed.

(** C10, amended. [getNextAction] leaves the score, the counters of correct
    and of all answers, the history, both streak maps, the skill state and the
    bank unchanged.  The asked-set is unchanged when some candidate has not
    been asked yet, and cleared when all have been.  The Q-table is unchanged
    in the explore branch and when the pool is empty; in the exploit branch
    the row of the current state afterwards holds the values it held, and 0.0
    for every id of the filtered pool that had no value, the other rows being
    unchanged. *)
Theorem getNextAction_frame (e : Engine) (r1 r2 r3 id : Z) (e' : Engine) :
  getNextAction e r1 r2 r3 = Some (id, e') →
  let explore := explore_draw (state e) r1 in
  let candidates := getActionsForStateLevel e explore in
  let unasked := not_asked (askedQuestionsThisSession e) candidates in
  let pool := if nonempty unasked then unasked else candidates in
  score e' = score e ∧ correctAnswers e' = correctAnswers e ∧
  totalQuestions e' = totalQuestions e ∧ history e' = history e ∧
  correctCounts e' = correctCounts e ∧ incorrectCounts e' = incorrectCounts e ∧
  state e' = state e ∧ questionBankByID e' = questionBankByID e ∧
  askedQuestionsThisSession e' =
    (if nonempty unasked then askedQuestionsThisSession e else ∅) ∧
  (explore = true ∨ pool = [] → getQTable e' = getQTable e) ∧
  (explore = false → pool ≠ [] →
     (∀ s, s ≠ state e → getQTable e' !! s = getQTable e !! s) ∧
     ∃ row, getQTable e' !! state e = Some row ∧
       ∀ a, row !! a =
         match default ∅ (getQTable e !! state e) !! a with
         | Some v => Some v
         | None => if bool_decide (a ∈ pool) then Some F32.zero else None
         end).
Proof.
  intros Hn explore candidates unasked pool.
  rewrite (getNextAction_engine _ _ _ _ _ _ Hn).
  fold explore. fold candidates.
  assert (session_filter (askedQuestionsThisSession e) candidates =
            (if nonempty unasked then askedQuestionsThisSession e else ∅, pool))
    as -> by (unfold session_filter; fold unasked; subst pool;
              by destruct (nonempty unasked)).
  unfold getQTable. simpl.
  split_and!; try done.
  - intros [-> | ->]; [done|]. simpl. by rewrite orb_true_r.
  - intros -> Hne. apply nonempty_true in Hne. rewrite Hne. simpl.
    split.
    + intros s Hs. by apply q_touch_all_lookup_ne.
    + apply nonempty_true in Hne.
      destruct (q_touch_all_is_Some pool (q_table e) (state e) Hne) as [row Hrow].
      exists row. split; [done|]. intros a.
      pose proof (q_touch_all_row pool (q_table e) (state e) a) as Hr.
      by rewrite Hrow in Hr.
Qed.

Lemma getNextAction_frame_witness :
  let e := Demo.engine in
  let e' := with_q_table e
              (<[Demo.s0 := <[1 := F32.zero]> (<[2 := F32.zero]>
                                (<[3 := F32.zero]> ∅))]> ∅) in
  score e' = score e ∧ correctAnswers e' = correctAnswers e ∧
  totalQuestions e' = totalQuestions e ∧ history e' = history e ∧
  correctCounts e' = correctCounts e ∧ incorrectCounts e' = incorrectCounts e ∧
  state e' = state e ∧ questionBankByID e' = questionBankByID e ∧
  askedQuestionsThisSession e' =
    (if nonempty (not_asked (askedQuestionsThisSession e)
                    (getActionsForStateLevel e (explore_draw (state e) RAND_MAX)))
     then askedQuestionsThisSession e else ∅) ∧
  (explore_draw (state e) RAND_MAX = true
   ∨ (if nonempty (not_asked (askedQuestionsThisSession e)
                     (getActionsForStateLevel e (explore_draw (state e) RAND_MAX)))
      then not_asked (askedQuestionsThisSession e)
             (getActionsForStateLevel e (explore_draw (state e) RAND_MAX))
      else getActionsForStateLevel e (explore_draw (state e) RAND_MAX)) = []
   → getQTable e' = getQTable e) ∧
  (explore_draw (state e) RAND_MAX = false →
   (if nonempty (not_asked (askedQuestionsThisSession e)
                   (getActionsForStateLevel e (explore_draw (state e) RAND_MAX)))
    then not_asked (askedQuestionsThisSession e)
           (getActionsForStateLevel e (explore_draw (state e) RAND_MAX))
    else getActionsForStateLevel e (explore_draw (state e) RAND_MAX)) ≠ [] →
     (∀ s, s ≠ state e → getQTable e' !! s = getQTable e !! s) ∧
     ∃ row, getQTable e' !! state e = Some row ∧
       ∀ a, row !! a =
         match default ∅ (getQTable e !! state e) !! a with
         | Some v => Some v
         | None =>
             if bool_decide
                  (a ∈ (if nonempty (not_asked (askedQuestionsThisSession e)
                              (getActionsForStateLevel e
                                 (explore_draw (state e) RAND_MAX)))
                        then not_asked (askedQuestionsThisSession e)
                               (getActionsForStateLevel e
                                  (explore_draw (state e) RAND_MAX))
                        else getActionsForStateLevel e
                               (explore_draw (state e) RAND_MAX)))
             then Some F32.zero else None
         end).
Proof.
  intros e e'.
  apply (getNextAction_frame e RAND_MAX 0 0 1 e').
  vm_compute. reflexivity.
Defined.

(** Selection alone grows the Q-table snapshot. *)
Example selection_alone_grows_q_table :
  getQTable Demo.engine = ∅ ∧
  (getQTable <$> (snd <$> getNextAction Demo.engine RAND_MAX 0 0)) =
    Some (<[Demo.s0 := <[1 := F32.zero]> (<[2 := F32.zero]>
                          (<[3 := F32.zero]> ∅))]> ∅).
Proof. vm_compute. split; reflexivity. Qed.

(** ** The Q-learning update *)

Lemma max_scan_cons row k l m :
  max_scan row (k :: l) m = max_scan row l (max_step row m k).
Proof. reflexivity. Qed.

Lemma max_scan_app row l1 l2 m :
  max_scan row (l1 ++ l2) m = max_scan row l2 (max_scan row l1 m).
Proof. unfold max_scan. apply fold_left_app. Qed.

Lemma max_step_not_nan row m k :
  F32.is_nan m = false → F32.is_nan (max_step row m k) = false.
Proof.
  intros Hm. unfold max_step. destruct (row !! k) as [q|]; [|done].
  destruct (F32.gtb q m) eqn:Hgt; [|done].
  rewrite gtb_ltb in Hgt. by apply ltb_not_nan in Hgt as [_ ?].
Qed.

(** The scan never goes below its starting value. *)
Lemma max_scan_not_below row l :
  ∀ m, F32.ltb (max_scan row l m) m = false.
Proof.
  induction l as [|k l IH]; intros m; [apply ltb_irrefl|].
  rewrite max_scan_cons. specialize (IH (max_step row m k)).
  unfold max_step in *. destruct (row !! k) as [q|]; [|done].
  destruct (F32.gtb q m) eqn:Hgt; [|done].
  destruct (F32.ltb (max_scan row l q) m) eqn:Hlt; [|done].
  rewrite (ltb_trans _ _ _ Hlt Hgt) in IH. discriminate.
Qed.

(** No stored value exceeds the result. *)
Lemma max_scan_upper row l :
  ∀ m k v, F32.is_nan m = false → k ∈ l → row !! k = Some v →
           F32.gtb v (max_scan row l m) = false.
Proof.
  induction l as [|k0 l IH]; intros m k v Hm Hk Hv.
  { by apply elem_of_nil in Hk. }
  rewrite max_scan_cons.
  apply elem_of_cons in Hk as [->|Hk];
    [|by apply (IH _ k v); [apply max_step_not_nan|..]].
  pose proof (max_scan_not_below row l (max_step row m k0)) as Hnb.
  unfold max_step in *. rewrite Hv in *.
  destruct (F32.gtb v m) eqn:Hgt; [done|].
  rewrite gtb_ltb in *.
  destruct (F32.ltb (max_scan row l m) v) eqn:Hlt; [|done].
  exfalso. destruct (ltb_not_nan _ _ Hlt) as [_ Hvn].
  pose proof (not_ltb_leb _ _ Hm Hvn Hgt) as Hle.
  rewrite (ltb_leb_trans _ _ _ Hlt Hle) in Hnb. discriminate.
Qed.

(** The result is the starting value or a stored value. *)
Lemma max_scan_mem row l :
  ∀ m, max_scan row l m = m
       ∨ ∃ k, k ∈ l ∧ row !! k = Some (max_scan row l m).
Proof.
  induction l as [|k0 l IH]; intros m; [by left|].
  rewrite max_scan_cons.
  destruct (IH (max_step row m k0)) as [Heq|(k & Hk & Hv)].
  - rewrite Heq. unfold max_step.
    destruct (row !! k0) as [q|] eqn:Hq; [|by left].
    destruct (F32.gtb q m); [|by left].
    right. exists k0. split; [set_solver|done].
  - right. exists k. split; [set_solver|done].
Qed.

(** Without a stored value above the starting value the result is the
    starting value. *)
Lemma max_scan_none_above row l :
  ∀ m, (∀ k v, k ∈ l → row !! k = Some v → F32.gtb v m = false) →
       max_scan row l m = m.
Proof.
  induction l as [|k0 l IH]; intros m Hall; [done|].
  rewrite max_scan_cons.
  assert (max_step row m k0 = m) as ->.
  { unfold max_step. destruct (row !! k0) as [q|] eqn:Hq; [|done].
    rewrite (Hall k0 q); [done|set_solver|done]. }
  apply IH. intros k v Hk. apply Hall. set_solver.
Qed.

Lemma max_scan_ext row1 row2 l :
  (∀ k, k ∈ l → row1 !! k = row2 !! k) →
  ∀ m, max_scan row1 l m = max_scan row2 l m.
Proof.
  induction l as [|k0 l IH]; intros Hext m; [done|].
  rewrite !max_scan_cons. unfold max_step. rewrite (Hext k0) by set_solver.
  apply IH. intros k Hk. apply Hext. set_solver.
Qed.

(** A freshly inserted 0.0 does not change the maximum. *)
Lemma max_scan_insert_zero (row : QRow) a :
  row !! a = None →
  max_scan (<[a := F32.zero]> row) (sorted_keys (<[a := F32.zero]> row)) F32.zero
  = max_scan row (sorted_keys row) F32.zero.
Proof.
  intros Ha.
  destruct (sorted_keys_insert_fresh row a F32.zero Ha) as (l1 & l2 & Hk & Hk').
  assert (∀ k, k ∈ l1 ++ l2 → k ≠ a) as Hne.
  { intros k Hin ->. rewrite <- Hk in Hin.
    apply elem_of_sorted_keys in Hin as [v Hv]. congruence. }
  rewrite Hk, Hk', !max_scan_app, max_scan_cons.
  rewrite (max_scan_ext (<[a := F32.zero]> row) row l1)
    by (intros k Hin; apply lookup_insert_ne; intros <-;
        by apply (Hne a); [set_solver|]).
  assert (max_step (<[a := F32.zero]> row)
            (max_scan row l1 F32.zero) a = max_scan row l1 F32.zero) as ->.
  { unfold max_step. rewrite lookup_insert_eq, gtb_ltb.
    by rewrite max_scan_not_below. }
  apply max_scan_ext. intros k Hin. apply lookup_insert_ne. intros <-.
  by apply (Hne a); [set_solver|].
Qed.

Lemma maxQValue_q_touch t s a s2 :
  maxQValue (q_touch t s a) s2 = maxQValue t s2.
Proof.
  unfold maxQValue.
  destruct (decide (s = s2)) as [<-|Hne]; [|by rewrite q_touch_lookup_ne].
  rewrite q_touch_lookup_eq. unfold getQValue.
  destruct (t !! s) as [row|]; simpl.
  - destruct (row !! a) as [v|] eqn:Hv.
    + by rewrite insert_id.
    + by apply max_scan_insert_zero.
  - rewrite insert_empty, sorted_keys_singleton.
    unfold max_scan; simpl. by rewrite lookup_singleton_eq.
Qed.

Lemma updateQTable_eq t s a r s2 :
  updateQTable t s a r s2 =
    <[s := <[a := q_target (getQValue t s a) r (maxQValue t s2)]>
             (default ∅ (t !! s))]> t.
Proof.
  unfold updateQTable.
  assert (q_index t s a = (getQValue t s a, q_touch t s a)) as ->.
  { unfold q_touch. by rewrite q_index_eq. }
  rewrite maxQValue_q_touch, q_touch_lookup_eq. simpl.
  unfold q_touch. rewrite q_index_eq. simpl.
  by rewrite !insert_insert_eq.
Qed.

Lemma getQValue_updateQTable_same t s a r s2 :
  getQValue (updateQTable t s a r s2) s a
  = q_target (getQValue t s a) r (maxQValue t s2).
Proof.
  rewrite updateQTable_eq. unfold getQValue at 1.
  by rewrite !lookup_insert_eq.
Qed.

Lemma getQValue_updateQTable_other t s a r s2 s' a' :
  (s', a') ≠ (s, a) →
  getQValue (updateQTable t s a r s2) s' a' = getQValue t s' a'.
Proof.
  intros Hne. rewrite updateQTable_eq.
  destruct (decide (s = s')) as [<-|Hs].
  - rewrite !getQValue_row, lookup_insert_eq. simpl.
    rewrite lookup_insert_ne; [done|]. congruence.
  - rewrite !getQValue_row. by rewrite lookup_insert_ne.
Qed.

(** With no earlier value and no value for the next state the stored value is
    [lr * r], except that a product that is the negative zero is stored as the
    positive zero. *)
Lemma q_target_fresh r :
  q_target F32.zero r F32.zero = F32.mul lr r
  ∨ (F32.mul lr r = S754_zero true ∧ q_target F32.zero r F32.zero = F32.zero).
Proof.
  unfold q_target.
  destruct r as [sr|sr| |sr mr er].
  - destruct sr; vm_compute; auto.
  - destruct sr; vm_compute; auto.
  - by left.
  - assert (F32.add (S754_finite sr mr er) (F32.mul df F32.zero)
            = S754_finite sr mr er) as -> by reflexivity.
    assert (F32.sub (S754_finite sr mr er) F32.zero = S754_finite sr mr er)
      as -> by reflexivity.
    generalize (F32.mul lr (S754_finite sr mr er)).
    intros [sp|sp| |sp mp ep]; [destruct sp|..]; cbn; auto.
Qed.

Lemma maxQValue_not_below t s2 : F32.ltb (maxQValue t s2) F32.zero = false.
Proof.
  unfold maxQValue. destruct (t !! s2); [|done]. apply max_scan_not_below.
Qed.

Lemma maxQValue_upper t s2 row k v :
  t !! s2 = Some row → row !! k = Some v →
  F32.gtb v (maxQValue t s2) = false.
Proof.
  intros Hrow Hv. unfold maxQValue. rewrite Hrow.
  apply (max_scan_upper row _ _ k v); [done| |done].
  apply elem_of_sorted_keys. eauto.
Qed.

Lemma maxQValue_mem t s2 :
  maxQValue t s2 = F32.zero
  ∨ ∃ row k, t !! s2 = Some row ∧ row !! k = Some (maxQValue t s2).
Proof.
  unfold maxQValue. destruct (t !! s2) as [row|]; [|by left].
  destruct (max_scan_mem row (sorted_keys row) F32.zero) as [->|(k & _ & Hk)];
    [by left|right; eauto].
Qed.

Lemma maxQValue_floor t s2 :
  (∀ row k v, t !! s2 = Some row → row !! k = Some v →
              F32.gtb v F32.zero = false) →
  maxQValue t s2 = F32.zero.
Proof.
  intros Hall. unfold maxQValue. destruct (t !! s2) as [row|] eqn:Hrow; [|done].
  apply max_scan_none_above. intros k v _ Hv. by apply (Hall row k v).
Qed.

(** C2. One call of [updateQTable] sets Q[s][a] to
    old + lr * (r + df * maxQ(s2) - old) in binary32 arithmetic, where old is
    the stored Q[s][a] or 0.0 when there is none, lr and df are 0.1f and
    0.9f, and maxQ(s2) is the maximum of 0.0 and the values stored for s2:
    it is not below 0.0, no stored value exceeds it, it is 0.0 or a stored
    value, and it is 0.0 when s2 has no entries or no stored value is above
    0.0.  No other entry changes its value.  From the empty table the stored
    value is lr * r (as a binary32 number: a product that is -0.0 is stored
    as +0.0), and exactly lr * r for the three rewards of the engine. *)
Theorem updateQTable_spec (t : QTable) (s : State) (a : Z) (r : spec_float)
    (s2 : State) :
  let old := getQValue t s a in
  let m := maxQValue t s2 in
  let t' := updateQTable t s a r s2 in
  getQValue t' s a
    = F32.add old (F32.mul lr (F32.sub (F32.add r (F32.mul df m)) old)) ∧
  (t' !! s) ≫= (λ row, row !! a) = Some (getQValue t' s a) ∧
  (∀ s' a', (s', a') ≠ (s, a) → getQValue t' s' a' = getQValue t s' a') ∧
  old = default F32.zero ((t !! s) ≫= (λ row, row !! a)) ∧
  lr = F32.div (F32.of_int 1) (F32.of_int 10) ∧
  df = F32.div (F32.of_int 9) (F32.of_int 10) ∧
  F32.ltb m F32.zero = false ∧
  (∀ row k v, t !! s2 = Some row → row !! k = Some v → F32.gtb v m = false) ∧
  (m = F32.zero ∨ ∃ row k, t !! s2 = Some row ∧ row !! k = Some m) ∧
  ((∀ row k v, t !! s2 = Some row → row !! k = Some v →
               F32.gtb v F32.zero = false) → m = F32.zero) ∧
  (getQValue (updateQTable ∅ s a r s2) s a = F32.mul lr r
   ∨ (F32.mul lr r = S754_zero true
      ∧ getQValue (updateQTable ∅ s a r s2) s a = F32.zero)) ∧
  (∀ before after correct,
     getQValue (updateQTable ∅ s a (getReward before after correct) s2) s a
     = F32.mul lr (getReward before after correct)).
Proof.
  intros old m t'. subst old m t'.
  assert (∀ r', getQValue (updateQTable ∅ s a r' s2) s a
                = q_target F32.zero r' F32.zero) as Hempty.
  { intros r'. rewrite getQValue_updateQTable_same.
    unfold getQValue, maxQValue. by rewrite !lookup_empty. }
  split_and!.
  - apply getQValue_updateQTable_same.
  - rewrite updateQTable_eq. unfold getQValue.
    by rewrite !lookup_insert_eq; simpl; rewrite lookup_insert_eq.
  - intros s' a'. apply getQValue_updateQTable_other.
  - unfold getQValue. destruct (t !! s) as [row|]; simpl; [|done].
    by destruct (row !! a).
  - by vm_compute.
  - by vm_compute.
  - apply maxQValue_not_below.
  - apply maxQValue_upper.
  - apply maxQValue_mem.
  - apply maxQValue_floor.
  - rewrite Hempty. apply q_target_fresh.
  - intros before after correct. rewrite Hempty, getReward_cases.
    destruct correct; [destruct (decide (improved before after))|];
      by vm_compute.
Qed.

(** ** Streaks and promotion *)

Local Ltac domain_crush :=
  unfold in_range, promote, demote, spec_raise, spec_lower, spec_domain,
    level, set_level;
  intros;
  repeat case_decide; simpl;
  repeat match goal with
    | |- context [if ?b then _ else _] => destruct b eqn:?; simpl
    end;
  repeat match goal with
    | H : _ && _ = true |- _ => apply andb_true_iff in H as [? ?]
    | H : _ && _ = false |- _ => apply andb_false_iff in H as [?|?]
    end;
  rewrite ?Z.gtb_ltb, ?Z.geb_leb in *;
  repeat match goal with
    | H : (_ =? _) = true |- _ => apply Z.eqb_eq in H
    | H : (_ =? _) = false |- _ => apply Z.eqb_neq in H
    | H : (_ <? _) = true |- _ => apply Z.ltb_lt in H
    | H : (_ <? _) = false |- _ => apply Z.ltb_ge in H
    | H : (_ <=? _) = true |- _ => apply Z.leb_le in H
    | H : (_ <=? _) = false |- _ => apply Z.leb_gt in H
    end;
  simpl in *; try lia; try (f_equal; lia); try done.

Lemma promote_spec topic s : in_range s → promote topic s = spec_raise topic s.
Proof. revert topic. destruct s as [n c sc]. domain_crush. Qed.

Lemma demote_spec topic s : in_range s → demote topic s = spec_lower topic s.
Proof. revert topic. destruct s as [n c sc]. domain_crush. Qed.

(** C3. For a question [q] of the bank under [qid] and a skill state in
    range, [updateState] does the following.  On a correct answer it adds the
    points of the difficulty (1, 2, 3 for difficulty 0, 1, 2) to the correct
    streak of [qid] and resets its incorrect streak to 0; when the correct
    streak has then reached 4 the domain of the topic is incremented unless it
    is 2 already, and the correct streak is reset to 0.  On an incorrect answer
    it adds 1 to the incorrect streak of [qid] and resets its correct streak to
    0; when the incorrect streak has then reached 4 the domain of the topic is
    decremented unless it is 0 already, and the incorrect streak is reset to
    0.  The streaks of the other ids and the rest of the engine are
    unchanged. *)
Theorem updateState_streaks (e : Engine) (qid : Z) (q : Question)
    (correct : bool) (s : State) :
  questionBankByID e !! qid = Some q →
  in_range s →
  let cs := default 0 (correctCounts e !! qid) in
  let ics := default 0 (incorrectCounts e !! qid) in
  let pts := points_of (difficulty q) in
  let e' := (updateState e qid correct s).1 in
  let s' := (updateState e qid correct s).2 in
  points_of 0 = 1 ∧ points_of 1 = 2 ∧ points_of 2 = 3 ∧
  (correct = true →
     incorrectCounts e' = <[qid := 0]> (incorrectCounts e) ∧
     (4 ≤ cs + pts →
        s' = spec_raise (topicID q) s ∧
        correctCounts e' = <[qid := 0]> (correctCounts e)) ∧
     (cs + pts < 4 →
        s' = s ∧ correctCounts e' = <[qid := cs + pts]> (correctCounts e))) ∧
  (correct = false →
     correctCounts e' = <[qid := 0]> (correctCounts e) ∧
     (4 ≤ ics + 1 →
        s' = spec_lower (topicID q) s ∧
        incorrectCounts e' = <[qid := 0]> (incorrectCounts e)) ∧
     (ics + 1 < 4 →
        s' = s ∧ incorrectCounts e' = <[qid := ics + 1]> (incorrectCounts e))) ∧
  e' = with_counts e (correctCounts e') (incorrectCounts e').
Proof.
  intros Hq Hs cs ics pts e' s'. subst e' s'.
  rewrite updateState_eq; simpl.
  rewrite (bank_after_index_present _ _ _ Hq), with_bank_same.
  unfold next_state, next_correctCounts, next_incorrectCounts,
    threshold_reached, streak_after, getQuestion,
    correctThreshold, incorrectThreshold.
  rewrite Hq. fold cs ics pts.
  split_and!; try done.
  - intros ->; simpl.
    destruct (cs + pts >=? 4) eqn:Hge; rewrite Z.geb_leb in Hge;
      [apply Z.leb_le in Hge|apply Z.leb_gt in Hge]; simpl;
      (split_and!; [done| |]); intros ?; try lia.
    + by rewrite promote_spec.
    + done.
  - intros ->; simpl.
    destruct (ics + 1 >=? 4) eqn:Hge; rewrite Z.geb_leb in Hge;
      [apply Z.leb_le in Hge|apply Z.leb_gt in Hge]; simpl;
      (split_and!; [done| |]); intros ?; try lia.
    + by rewrite demote_spec.
    + done.
Qed.

Lemma updateState_streaks_witness :
  let e := evaluate_all Demo.engine [(1, true); (1, true); (1, true)] in
  let e' := (updateState e 1 true Demo.s0).1 in
  let s' := (updateState e 1 true Demo.s0).2 in
  (questionBankByID e !! 1 = Some Demo.q1 ∧ in_range Demo.s0) ∧
  points_of 0 = 1 ∧ points_of 1 = 2 ∧ points_of 2 = 3 ∧
  (true = true →
     incorrectCounts e' = <[1 := 0]> (incorrectCounts e) ∧
     (4 ≤ default 0 (correctCounts e !! 1) + points_of (difficulty Demo.q1) →
        s' = spec_raise (topicID Demo.q1) Demo.s0 ∧
        correctCounts e' = <[1 := 0]> (correctCounts e)) ∧
     (default 0 (correctCounts e !! 1) + points_of (difficulty Demo.q1) < 4 →
        s' = Demo.s0 ∧
        correctCounts e' =
          <[1 := default 0 (correctCounts e !! 1)
                 + points_of (difficulty Demo.q1)]> (correctCounts e))) ∧
  (true = false →
     correctCounts e' = <[1 := 0]> (correctCounts e) ∧
     (4 ≤ default 0 (incorrectCounts e !! 1) + 1 →
        s' = spec_lower (topicID Demo.q1) Demo.s0 ∧
        incorrectCounts e' = <[1 := 0]> (incorrectCounts e)) ∧
     (default 0 (incorrectCounts e !! 1) + 1 < 4 →
        s' = Demo.s0 ∧
        incorrectCounts e' =
          <[1 := default 0 (incorrectCounts e !! 1) + 1]> (incorrectCounts e))) ∧
  e' = with_counts e (correctCounts e') (incorrectCounts e').
Proof.
  intros e e' s'.
  assert (questionBankByID e !! 1 = Some Demo.q1) as Hq
    by (vm_compute; reflexivity).
  assert (in_range Demo.s0) as Hs by (vm_compute; intuition discriminate).
  split; [by split|].
  apply (updateState_streaks e 1 Demo.q1 true Demo.s0 Hq Hs).
Defined.

(** The promotion and demotion scenarios of the specification. *)
Example promotion_threshold :
  let e4 := evaluate_all Demo.engine [(1, true); (1, true); (1, true); (1, true)] in
  let e5 := evaluateResponse e4 1 true in
  state e4 = mkState 1 0 0 ∧ correctCounts e4 !! 1 = Some 0 ∧
  state e5 = mkState 1 0 0 ∧ correctCounts e5 !! 1 = Some 1.
Proof. vm_compute. repeat split. Qed.

Example demotion_threshold :
  let e := AdaptiveQuiz Demo.bank ∅ (mkState 1 1 1) in
  let e4 := evaluate_all e [(2, false); (2, false); (2, false); (2, false)] in
  let e8 := evaluate_all e4 [(2, false); (2, false); (2, false); (2, false)] in
  let e12 := evaluate_all e8 [(2, false); (2, false); (2, false); (2, false)] in
  state e4 = mkState 1 0 1 ∧ incorrectCounts e4 !! 2 = Some 0 ∧
  state e8 = mkState 1 0 1 ∧ state e12 = mkState 1 0 1.
Proof. vm_compute. repeat split. Qed.

(** ** The integers of a session stay small *)

Lemma points_of_bounds d : 1 ≤ points_of d ≤ 3.
Proof. unfold points_of. repeat case_match; lia. Qed.

Lemma evaluateResponse_bounded e qid correct :
  counters_bounded e → counters_bounded (evaluateResponse e qid correct).
Proof.
  intros (Hs & Hca & Hcc & Hic). rewrite evaluateResponse_eq.
  unfold counters_bounded; simpl.
  assert (0 ≤ default 0 (correctCounts e !! qid) ≤ 3) as Hc0.
  { destruct (correctCounts e !! qid) as [v|] eqn:Hv; simpl; [eauto|lia]. }
  assert (0 ≤ default 0 (incorrectCounts e !! qid) ≤ 3) as Hi0.
  { destruct (incorrectCounts e !! qid) as [v|] eqn:Hv; simpl; [eauto|lia]. }
  pose proof (points_of_bounds (difficulty (getQuestion e qid))) as Hp.
  split_and!.
  - by apply next_state_in_range.
  - destruct correct; lia.
  - destruct correct; lia.
  - intros k v. unfold next_correctCounts, threshold_reached, streak_after,
      correctThreshold.
    destruct correct; simpl.
    + destruct (_ >=? 4) eqn:Hge; simpl.
      * intros [[_ <-]|[_ ?]]%lookup_insert_Some; [lia|eauto].
      * rewrite Z.geb_leb in Hge. apply Z.leb_gt in Hge.
        intros [[_ <-]|[_ ?]]%lookup_insert_Some; [lia|eauto].
    + intros [[_ <-]|[_ ?]]%lookup_insert_Some; [lia|eauto].
  - intros k v. unfold next_incorrectCounts, threshold_reached, streak_after,
      incorrectThreshold.
    destruct correct; simpl.
    + intros [[_ <-]|[_ ?]]%lookup_insert_Some; [lia|eauto].
    + destruct (_ >=? 4) eqn:Hge; simpl.
      * intros [[_ <-]|[_ ?]]%lookup_insert_Some; [lia|eauto].
      * rewrite Z.geb_leb in Hge. apply Z.leb_gt in Hge.
        intros [[_ <-]|[_ ?]]%lookup_insert_Some; [lia|eauto].
Qed.

Lemma run_totalQuestions calls :
  ∀ e e', run e calls = Some e' →
          totalQuestions e' ≤ totalQuestions e + Z.of_nat (length calls).
Proof.
  induction calls as [|c calls IH]; intros e e' Hrun; simpl in Hrun.
  - injection Hrun as <-. simpl. lia.
  - destruct c as [r1 r2 r3|qid correct]; simpl in Hrun.
    + destruct (getNextAction e r1 r2 r3) as [[id e1]|] eqn:Hn; [|done].
      simpl in Hrun. apply IH in Hrun.
      destruct (getNextAction_history _ _ _ _ _ _ Hn) as [_ Ht].
      rewrite Ht in Hrun. simpl length. lia.
    + apply IH in Hrun. rewrite evaluateResponse_eq in Hrun. simpl in Hrun.
      simpl length. lia.
Qed.

(** In a session of an engine built by the constructor from a skill state in
    range, every [int] of the engine stays within the bounds below: no
    addition of the source can overflow in a session of fewer than 2^31
    calls. *)
Lemma int_fields_in_range bank qTable s0 calls e :
  in_range s0 →
  run (AdaptiveQuiz bank qTable s0) calls = Some e →
  counters_bounded e ∧ 0 ≤ totalQuestions e ≤ Z.of_nat (length calls).
Proof.
  intros Hs Hrun. split.
  - eapply (run_invariant counters_bounded); [| | |exact Hrun].
    + intros. by apply evaluateResponse_bounded.
    + intros e0 r1 r2 r3 id e1 H0 Hn.
      rewrite (getNextAction_engine _ _ _ _ _ _ Hn). exact H0.
    + unfold counters_bounded; simpl. split_and!; try done; try lia.
  - pose proof (run_totalQuestions _ _ _ Hrun) as Hle. simpl in Hle.
    assert (counters_bounded e) as (_ & Hca & _).
    { eapply (run_invariant counters_bounded); [| | |exact Hrun].
      + intros. by apply evaluateResponse_bounded.
      + intros e0 r1 r2 r3 id e1 H0 Hn.
        rewrite (getNextAction_engine _ _ _ _ _ _ Hn). exact H0.
      + unfold counters_bounded; simpl. split_and!; try done; try lia. }
    lia.
Qed.

(** * Further properties of the engine and of its callers *)

(** ** [State::operator<] *)

(** X1. [State::operator<] is the lexicographic order on (notes, chords,
    scales): it is irreflexive and transitive, and two states neither of
    which is below the other are equal, so a [std::map] keyed by [State]
    holds one entry per state. *)
Theorem State_lt_strict_order (a b c : State) :
  State_lt a a = false ∧
  (State_lt a b = true → State_lt b c = true → State_lt a c = true) ∧
  (State_lt a b = false → State_lt b a = false → a = b) ∧
  (State_lt a b = true ↔
     notes a < notes b
     ∨ (notes a = notes b
        ∧ (chords a < chords b
           ∨ (chords a = chords b ∧ scales a < scales b)))).
Proof.
  split_and!.
  - apply State_lt_irrefl.
  - apply State_lt_trans.
  - apply State_lt_total.
  - unfold State_lt.
    repeat match goal with
      | |- context [?x <? ?y] => destruct (Z.ltb_spec x y)
      end; split; try done; try lia.
Qed.

(** ** One answer, one step *)

Lemma promote_step topic s :
  let s' := promote topic s in
  notes s ≤ notes s' ∧ chords s ≤ chords s' ∧ scales s ≤ scales s' ∧
  notes s' + chords s' + scales s' ≤ notes s + chords s + scales s + 1 ∧
  (topic ≠ 101 → notes s' = notes s) ∧
  (¬ 102 ≤ topic ≤ 103 → chords s' = chords s) ∧
  (topic < 104 → scales s' = scales s).
Proof.
  destruct s as [n c sc]. unfold promote; simpl.
  repeat match goal with
    | |- context [if ?b then _ else _] => destruct b eqn:?; simpl
    end;
  repeat match goal with
    | H : _ && _ = true |- _ => apply andb_true_iff in H as [? ?]
    end;
  rewrite ?Z.geb_leb in *;
  repeat match goal with
    | H : (_ =? _) = true |- _ => apply Z.eqb_eq in H
    | H : (_ <=? _) = true |- _ => apply Z.leb_le in H
    end; lia.
Qed.

Lemma demote_step topic s :
  let s' := demote topic s in
  notes s' ≤ notes s ∧ chords s' ≤ chords s ∧ scales s' ≤ scales s ∧
  notes s + chords s + scales s ≤ notes s' + chords s' + scales s' + 1 ∧
  (topic ≠ 101 → notes s' = notes s) ∧
  (¬ 102 ≤ topic ≤ 103 → chords s' = chords s) ∧
  (topic < 104 → scales s' = scales s).
Proof.
  destruct s as [n c sc]. unfold demote; simpl.
  repeat match goal with
    | |- context [if ?b then _ else _] => destruct b eqn:?; simpl
    end;
  repeat match goal with
    | H : _ && _ = true |- _ => apply andb_true_iff in H as [? ?]
    end;
  rewrite ?Z.geb_leb in *;
  repeat match goal with
    | H : (_ =? _) = true |- _ => apply Z.eqb_eq in H
    | H : (_ <=? _) = true |- _ => apply Z.leb_le in H
    end; lia.
Qed.

(** X2. One [evaluateResponse] moves the skill state by at most one level in
    at most one domain, whatever the state: a correct answer lowers no level
    and an incorrect one raises none; only the domain of the question's topic
    can move (none for a topic of 100 or less, or an unknown id); and nothing
    moves unless the streak of the id has reached its threshold. *)
Theorem evaluateResponse_one_step (e : Engine) (qid : Z) (correct : bool) :
  let s := state e in
  let s' := state (evaluateResponse e qid correct) in
  let topic := topicID (getQuestion e qid) in
  (if correct
   then notes s ≤ notes s' ∧ chords s ≤ chords s' ∧ scales s ≤ scales s'
   else notes s' ≤ notes s ∧ chords s' ≤ chords s ∧ scales s' ≤ scales s) ∧
  Z.abs (notes s' - notes s) + Z.abs (chords s' - chords s)
    + Z.abs (scales s' - scales s) ≤ 1 ∧
  (topic ≠ 101 → notes s' = notes s) ∧
  (¬ 102 ≤ topic ≤ 103 → chords s' = chords s) ∧
  (topic < 104 → scales s' = scales s) ∧
  (threshold_reached e qid correct = false → s' = s).
Proof.
  intros s s' topic. subst s'. rewrite evaluateResponse_state.
  unfold next_state. fold s topic.
  destruct (threshold_reached e qid correct).
  - destruct correct.
    + pose proof (promote_step topic s). simpl in *. split_and!; try lia; done.
    + pose proof (demote_step topic s). simpl in *. split_and!; try lia; done.
  - destruct correct; split_and!; try lia; done.
Qed.

(** ** Streaks *)

Lemma streak_insert counts qid v k :
  streak (<[qid := v]> counts) k = if decide (qid = k) then v else streak counts k.
Proof.
  unfold streak. case_decide as Hk.
  - subst. by rewrite lookup_insert_eq.
  - by rewrite lookup_insert_ne.
Qed.

Lemma evaluateResponse_streaks_ok e qid correct :
  streaks_ok e → streaks_ok (evaluateResponse e qid correct).
Proof.
  intros Hok k. rewrite evaluateResponse_eq; simpl.
  destruct (Hok k) as (Hex & Hc & Hi).
  destruct (Hok qid) as (_ & Hcq & Hiq).
  pose proof (points_of_bounds (difficulty (getQuestion e qid))) as Hp.
  unfold next_correctCounts, next_incorrectCounts, threshold_reached,
    streak_after, correctThreshold, incorrectThreshold.
  fold (streak (correctCounts e) qid) (streak (incorrectCounts e) qid).
  destruct correct; simpl;
    destruct (_ >=? 4) eqn:Hge; simpl; rewrite !streak_insert;
    rewrite Z.geb_leb in Hge;
    (apply Z.leb_le in Hge || apply Z.leb_gt in Hge);
    case_decide; lia.
Qed.

(** X3. In any session of an engine built by the constructor, every id has at
    most one of its two streaks different from 0, and both streaks are
    between 0 and 3: a streak that reaches the threshold 4 is reset in the
    same call. *)
Theorem streaks_exclusive (bank : gmap Z Question) (qTable : QTable)
    (s0 : State) (calls : list Call) (e : Engine) (qid : Z) :
  run (AdaptiveQuiz bank qTable s0) calls = Some e →
  (streak (correctCounts e) qid = 0 ∨ streak (incorrectCounts e) qid = 0) ∧
  0 ≤ streak (correctCounts e) qid ≤ 3 ∧
  0 ≤ streak (incorrectCounts e) qid ≤ 3.
Proof.
  intros Hrun.
  assert (streaks_ok e) as Hok; [|apply Hok].
  eapply (run_invariant streaks_ok); [| | |exact Hrun].
  - intros. by apply evaluateResponse_streaks_ok.
  - intros e0 r1 r2 r3 id e1 H0 Hn.
    rewrite (getNextAction_engine _ _ _ _ _ _ Hn). exact H0.
  - intros k. unfold streak; simpl. rewrite !lookup_empty; simpl. lia.
Qed.

Lemma streaks_exclusive_witness :
  let e := evaluate_all Demo.engine [(1, true); (1, false); (2, true)] in
  run Demo.engine [CallEvaluate 1 true; CallEvaluate 1 false; CallEvaluate 2 true]
    = Some e ∧
  (streak (correctCounts e) 1 = 0 ∨ streak (incorrectCounts e) 1 = 0) ∧
  0 ≤ streak (correctCounts e) 1 ≤ 3 ∧
  0 ≤ streak (incorrectCounts e) 1 ≤ 3.
Proof.
  intros e.
  assert (run Demo.engine
            [CallEvaluate 1 true; CallEvaluate 1 false; CallEvaluate 2 true]
          = Some e) as Hrun by reflexivity.
  split; [exact Hrun|].
  apply (streaks_exclusive Demo.bank ∅ Demo.s0 _ e 1 Hrun).
Defined.

(** ** Counters of a sequence of answers *)

Lemma evaluate_all_snoc e answers a :
  evaluate_all e (answers ++ [a]) = evaluateResponse (evaluate_all e answers) a.1 a.2.
Proof. unfold evaluate_all. by rewrite fold_left_app. Qed.

Lemma count_correct_snoc answers a :
  count_correct (answers ++ [a])
  = count_correct answers + (if a.2 then 1 else 0).
Proof.
  unfold count_correct. rewrite List.filter_app, length_app. simpl.
  destruct a.2; simpl; lia.
Qed.

(** X4. After a sequence of answers given to a freshly built engine:
    [totalQuestions] is the number of answers, [correctAnswers] the number of
    those flagged correct, the history lists the ids and flags in the order of
    the answers, one [highlightKeys] signal was emitted per answer with its
    flag, and the asked-set holds exactly the ids answered. *)
Theorem answer_counters (bank : gmap Z Question) (qTable : QTable) (s0 : State)
    (answers : list (Z * bool)) :
  let e := evaluate_all (AdaptiveQuiz bank qTable s0) answers in
  totalQuestions e = Z.of_nat (length answers) ∧
  correctAnswers e = count_correct answers ∧
  map (λ h : HistoryEntry, (h.1.1.2, h.2)) (history e) = answers ∧
  highlightKeys e = answers.*2 ∧
  askedQuestionsThisSession e = list_to_set answers.*1.
Proof.
  induction answers as [|a answers IH] using rev_ind.
  - simpl. split_and!; done.
  - cbv zeta in *. rewrite evaluate_all_snoc.
    destruct IH as (IH1 & IH2 & IH3 & IH4 & IH5).
    rewrite evaluateResponse_eq. simpl.
    rewrite IH1, IH2, IH4, IH5, count_correct_snoc, length_app, map_app, IH3,
      !fmap_app, list_to_set_app_L. simpl.
    split_and!.
    + lia.
    + destruct a.2; lia.
    + by destruct a as [qid c].
    + done.
    + rewrite (right_id_L ∅ (∪)). apply (comm_L (∪)).
Qed.

(** ** The score *)

Section FloatSign.

Lemma shr_1_nonneg mrs : 0 ≤ shr_m mrs → 0 ≤ shr_m (shr_1 mrs).
Proof.
  destruct mrs as [m r s]. simpl.
  destruct m as [|[p|p|]|[p|p|]]; simpl; lia.
Qed.

Lemma iter_shr_1_nonneg p :
  ∀ mrs, 0 ≤ shr_m mrs → 0 ≤ shr_m (SpecFloat.iter_pos shr_1 p mrs).
Proof.
  induction p as [p IH|p IH|]; intros mrs Hm; simpl.
  - by apply IH, IH, shr_1_nonneg.
  - by apply IH, IH.
  - by apply shr_1_nonneg.
Qed.

Lemma shr_fexp_nonneg m e l :
  0 ≤ m → 0 ≤ shr_m (shr_fexp F32.prec F32.emax m e l).1.
Proof.
  intros Hm. unfold shr_fexp, shr.
  assert (0 ≤ shr_m (shr_record_of_loc m l)) as H0
    by (destruct l as [|[]]; simpl; lia).
  destruct (_ - e) as [|p|p]; simpl; [done| |done].
  by apply iter_shr_1_nonneg.
Qed.

(** Rounding keeps the sign it is given and never yields NaN. *)
Lemma binary_round_aux_sign sx mx ex lx :
  0 ≤ mx →
  match binary_round_aux F32.prec F32.emax sx mx ex lx with
  | S754_zero s | S754_infinity s | S754_finite s _ _ => s = sx
  | S754_nan => False
  end.
Proof.
  intros Hm. unfold binary_round_aux.
  pose proof (shr_fexp_nonneg mx ex lx Hm) as H1.
  destruct (shr_fexp F32.prec F32.emax mx ex lx) as [mrs' e']. simpl in H1.
  assert (0 ≤ round_nearest_even (shr_m mrs') (loc_of_shr_record mrs')) as H2.
  { unfold round_nearest_even.
    destruct (loc_of_shr_record mrs') as [|[]]; try lia.
    destruct (Z.even (shr_m mrs')); lia. }
  pose proof (shr_fexp_nonneg _ e' loc_Exact H2) as H3.
  destruct (shr_fexp F32.prec F32.emax _ e' loc_Exact) as [mrs'' e''].
  simpl in H3.
  destruct (shr_m mrs'') as [|m|m]; [done| |lia].
  by destruct (e'' <=? _).
Qed.

Lemma binary_normalize_sign m e :
  match binary_normalize F32.prec F32.emax m e false with
  | S754_zero s => (s = false ∧ m = 0) ∨ (m ≠ 0 ∧ s = bool_decide (m < 0))
  | S754_infinity s | S754_finite s _ _ => s = bool_decide (m < 0)
  | S754_nan => False
  end.
Proof.
  unfold binary_normalize. destruct m as [|p|p].
  - by left.
  - unfold binary_round.
    destruct (shl_align _ _ _) as [mz ez].
    pose proof (binary_round_aux_sign false (Z.pos mz) ez loc_Exact) as H.
    destruct (binary_round_aux _ _ _ _ _ _); try (by apply H);
      [right; split; [done|]|..]; by rewrite H.
  - unfold binary_round.
    destruct (shl_align _ _ _) as [mz ez].
    pose proof (binary_round_aux_sign true (Z.pos mz) ez loc_Exact) as H.
    destruct (binary_round_aux _ _ _ _ _ _); try (by apply H);
      [right; split; [done|]|..]; by rewrite H.
Qed.

Lemma score_step_nonneg score correct :
  nonneg score = true → nonneg (score_step score correct) = true.
Proof.
  intros Hs. unfold score_step.
  destruct score as [s|s| |s m e]; try done.
  - destruct correct; [by destruct s|]. by destruct s.
  - destruct s; [done|]. by destruct correct.
  - destruct s; [done|]. destruct correct.
    + unfold F32.add, F32.c10, SFadd.
      match goal with
      | |- nonneg (binary_normalize _ _ ?z ?ez _) = true =>
          pose proof (binary_normalize_sign z ez) as H;
          assert (0 < z) as Hz by (simpl; lia);
          destruct (binary_normalize F32.prec F32.emax z ez false)
      end; simpl; try done.
      * rewrite H. by rewrite bool_decide_eq_false_2 by lia.
      * rewrite H. by rewrite bool_decide_eq_false_2 by lia.
    + unfold F32.sub, F32.c5, SFsub.
      match goal with
      | |- context [binary_normalize _ _ ?z ?ez _] =>
          pose proof (binary_normalize_sign z ez) as H;
          destruct (binary_normalize F32.prec F32.emax z ez false) as [s'|s'| |s' m' e']
      end; simpl; try done.
      * by destruct s'.
      * by destruct s'.
Qed.

End FloatSign.

Lemma evaluateResponse_score e qid correct :
  score (evaluateResponse e qid correct) = score_step (score e) correct.
Proof. by rewrite evaluateResponse_eq. Qed.

Lemma nonneg_spec x :
  nonneg x = true ↔ F32.is_nan x = false ∧ F32.ltb x F32.zero = false.
Proof. destruct x as [[]|[]| |[] m e]; simpl; intuition discriminate. Qed.

(** X5. In any session of an engine built by the constructor, of any length,
    the score is never NaN and never below 0.0: the subtraction of 5 is
    followed by the clamp at 0, and no rounding turns a sum of values that are
    not negative into a negative one. *)
Theorem score_never_negative (bank : gmap Z Question) (qTable : QTable)
    (s0 : State) (calls : list Call) (e : Engine) :
  run (AdaptiveQuiz bank qTable s0) calls = Some e →
  F32.is_nan (getScore e) = false ∧ F32.ltb (getScore e) F32.zero = false.
Proof.
  intros Hrun. apply nonneg_spec. unfold getScore.
  eapply (run_invariant (λ e, nonneg (score e) = true)); [| | |exact Hrun].
  - intros e0 qid correct H0. rewrite evaluateResponse_score.
    by apply score_step_nonneg.
  - intros e0 r1 r2 r3 id e1 H0 Hn.
    by rewrite (getNextAction_engine _ _ _ _ _ _ Hn).
  - done.
Qed.

Lemma score_never_negative_witness :
  let e := evaluate_all Demo.engine [(1, false); (1, true); (2, false)] in
  run Demo.engine [CallEvaluate 1 false; CallEvaluate 1 true; CallEvaluate 2 false]
    = Some e ∧
  F32.is_nan (getScore e) = false ∧ F32.ltb (getScore e) F32.zero = false.
Proof.
  intros e.
  assert (run Demo.engine
            [CallEvaluate 1 false; CallEvaluate 1 true; CallEvaluate 2 false]
          = Some e) as Hrun by reflexivity.
  split; [exact Hrun|].
  apply (score_never_negative Demo.bank ∅ Demo.s0 _ e Hrun).
Defined.

Lemma score_points_snoc answers a :
  score_points (answers ++ [a]) = points_step (score_points answers) a.2.
Proof. unfold score_points. by rewrite fold_left_app. Qed.

Lemma score_points_bounds answers :
  ∃ j, score_points answers = 5 * Z.of_nat j
       ∧ (j ≤ 2 * length answers)%nat.
Proof.
  induction answers as [|a answers (j & Hj & Hle)] using rev_ind.
  - exists 0%nat. by split.
  - rewrite score_points_snoc, Hj, length_app. simpl.
    unfold points_step. destruct a.2.
    + exists (j + 2)%nat. split; lia.
    + exists (j - 1)%nat. split; lia.
Qed.

Lemma score_table_lookup n j correct :
  score_table_ok n = true → (j < n)%nat →
  score_step (F32.of_int (5 * Z.of_nat j)) correct
  = F32.of_int (points_step (5 * Z.of_nat j) correct).
Proof.
  intros Hok Hj. unfold score_table_ok in Hok.
  rewrite forallb_forall in Hok. specialize (Hok j).
  rewrite in_seq in Hok. cbv zeta in Hok. specialize (Hok ltac:(lia)).
  apply andb_true_iff in Hok as [H1 H2].
  apply bool_decide_eq_true in H1, H2. by destruct correct.
Qed.

(** X6. For a sequence of at most 1000 answers given to a freshly built
    engine the score is exactly the whole number of points -- ten for each
    correct answer, five off for each incorrect one but never below zero --,
    a multiple of 5 between 0 and ten times the number of answers: no
    rounding occurs. *)
Theorem score_in_points (bank : gmap Z Question) (qTable : QTable) (s0 : State)
    (answers : list (Z * bool)) :
  (length answers ≤ 1000)%nat →
  getScore (evaluate_all (AdaptiveQuiz bank qTable s0) answers)
    = F32.of_int (score_points answers) ∧
  0 ≤ score_points answers ≤ 10 * Z.of_nat (length answers) ∧
  score_points answers mod 5 = 0.
Proof.
  intros Hlen. split.
  - assert (score_table_ok 2001 = true) as Htab by (vm_compute; reflexivity).
    unfold getScore.
    induction answers as [|a answers IH] using rev_ind; [done|].
    rewrite length_app in Hlen. simpl in Hlen.
    rewrite evaluate_all_snoc, evaluateResponse_score, IH, score_points_snoc
      by lia.
    destruct (score_points_bounds answers) as (j & -> & Hj).
    apply (score_table_lookup 2001); [done|lia].
  - destruct (score_points_bounds answers) as (j & -> & Hj). split; [lia|].
    rewrite Z.mul_comm. apply Z.mod_mul. lia.
Qed.

Lemma score_in_points_witness :
  (length sample_answers ≤ 1000)%nat ∧
  getScore (evaluate_all Demo.engine sample_answers)
    = F32.of_int (score_points sample_answers) ∧
  0 ≤ score_points sample_answers ≤ 10 * Z.of_nat (length sample_answers) ∧
  score_points sample_answers mod 5 = 0.
Proof.
  assert (length sample_answers ≤ 1000)%nat as Hlen by (simpl; lia).
  split; [exact Hlen|].
  apply (score_in_points Demo.bank ∅ Demo.s0 _ Hlen).
Defined.

(** ** Accuracy *)

Lemma accuracy_table_lookup n c t :
  accuracy_table_ok n = true → 0 ≤ c ≤ t → 0 < t ≤ Z.of_nat n →
  let a := accuracy_of c t in
  F32.is_nan a = false ∧ F32.leb F32.zero a = true ∧ F32.leb a c100 = true
  ∧ (a = F32.zero ↔ c = 0) ∧ (a = c100 ↔ c = t).
Proof.
  intros Hok Hc Ht. unfold accuracy_table_ok in Hok.
  rewrite forallb_forall in Hok. specialize (Hok (Z.to_nat t - 1)%nat).
  rewrite in_seq in Hok.
  replace (Z.of_nat (S (Z.to_nat t - 1))) with t in Hok by lia.
  unfold accuracy_row_ok in Hok. rewrite forallb_forall in Hok.
  specialize (Hok ltac:(lia) (Z.to_nat c)). rewrite in_seq in Hok.
  replace (Z.of_nat (Z.to_nat c)) with c in Hok by lia.
  cbv zeta in Hok. specialize (Hok ltac:(lia)).
  repeat (apply andb_true_iff in Hok as [Hok ?]).
  apply negb_true_iff in Hok.
  repeat match goal with
    | H : bool_decide _ = true |- _ => apply bool_decide_eq_true in H
    end.
  done.
Qed.

Lemma getAccuracy_eq e :
  getAccuracy e =
    if totalQuestions e =? 0 then F32.zero
    else accuracy_of (correctAnswers e) (totalQuestions e).
Proof. reflexivity. Qed.

Lemma count_correct_bounds answers :
  0 ≤ count_correct answers ≤ Z.of_nat (length answers).
Proof.
  unfold count_correct. pose proof (filter_length_le snd answers). lia.
Qed.

(** X7. [getAccuracy] is 0.0 before any answer.  After a sequence of 1 to 100
    answers given to a freshly built engine it is a number between 0.0 and
    100.0, equal to 0.0 exactly when no answer was correct and to 100.0
    exactly when all were. *)
Theorem getAccuracy_percentage (bank : gmap Z Question) (qTable : QTable)
    (s0 : State) (answers : list (Z * bool)) :
  (length answers ≤ 100)%nat →
  let a := getAccuracy (evaluate_all (AdaptiveQuiz bank qTable s0) answers) in
  F32.is_nan a = false ∧
  F32.leb F32.zero a = true ∧ F32.leb a c100 = true ∧
  (answers = [] → a = F32.zero) ∧
  (answers ≠ [] →
     (a = F32.zero ↔ count_correct answers = 0) ∧
     (a = c100 ↔ count_correct answers = Z.of_nat (length answers))) ∧
  c100 = F32.of_int 100.
Proof.
  intros Hlen a. subst a. rewrite getAccuracy_eq.
  destruct (answer_counters bank qTable s0 answers) as (Ht & Hc & _).
  cbv zeta in Ht, Hc. rewrite Ht, Hc.
  destruct answers as [|a0 answers'] eqn:Ha.
  - simpl. repeat split; done.
  - rewrite <- Ha in *.
    assert (0 < Z.of_nat (length answers)) as Hpos by (subst; simpl; lia).
    destruct (Z.eqb_spec (Z.of_nat (length answers)) 0) as [?|_]; [lia|].
    assert (accuracy_table_ok 100 = true) as Htab by (vm_compute; reflexivity).
    pose proof (count_correct_bounds answers) as Hb.
    destruct (accuracy_table_lookup 100 (count_correct answers)
                (Z.of_nat (length answers)) Htab Hb ltac:(lia))
      as (H1 & H2 & H3 & H4 & H5).
    split; [exact H1|]. split; [exact H2|]. split; [exact H3|].
    split; [intros ->; discriminate Ha|].
    split; [intros _; split; [exact H4|exact H5]|reflexivity].
Qed.

Lemma getAccuracy_percentage_witness :
  (length sample_answers ≤ 100)%nat ∧
  let a := getAccuracy (evaluate_all Demo.engine sample_answers) in
  F32.is_nan a = false ∧
  F32.leb F32.zero a = true ∧ F32.leb a c100 = true ∧
  (sample_answers = [] → a = F32.zero) ∧
  (sample_answers ≠ [] →
     (a = F32.zero ↔ count_correct sample_answers = 0) ∧
     (a = c100 ↔
        count_correct sample_answers = Z.of_nat (length sample_answers))) ∧
  c100 = F32.of_int 100.
Proof.
  assert (length sample_answers ≤ 100)%nat as Hlen by (simpl; lia).
  split; [exact Hlen|].
  apply (getAccuracy_percentage Demo.bank ∅ Demo.s0 _ Hlen).
Defined.

(** Three correct answers out of four are 75 percent. *)
Example accuracy_three_of_four :
  getAccuracy (evaluate_all Demo.engine sample_answers) = F32.of_int 75
  ∧ getScore (evaluate_all Demo.engine sample_answers) = F32.of_int 25.
Proof. vm_compute. split; reflexivity. Qed.

(** ** [getQuestion] *)

Lemma getQuestion_evaluateResponse e qid correct k :
  getQuestion (evaluateResponse e qid correct) k = getQuestion e k.
Proof.
  unfold getQuestion. rewrite evaluateResponse_bank.
  unfold bank_after_index, map_index.
  destruct (questionBankByID e !! qid) eqn:Hq; simpl; [done|].
  destruct (decide (qid = k)) as [->|Hne].
  - by rewrite lookup_insert_eq, Hq.
  - by rewrite lookup_insert_ne.
Qed.

(** X8. What [getQuestion] returns for an id never changes during a
    session: the question of the bank the engine was built on, or the
    default question for an id outside it -- also after [evaluateResponse]
    has been called with such an id. *)
Theorem getQuestion_stable (e : Engine) (calls : list Call) (e' : Engine)
    (qid : Z) :
  run e calls = Some e' →
  getQuestion e' qid = getQuestion e qid ∧
  (questionBankByID e !! qid = None → getQuestion e' qid = default_Question).
Proof.
  intros Hrun.
  assert (getQuestion e' qid = getQuestion e qid) as Heq.
  { eapply (run_invariant (λ e1, getQuestion e1 qid = getQuestion e qid));
      [| | |exact Hrun].
    - intros e0 q c H0. by rewrite getQuestion_evaluateResponse.
    - intros e0 r1 r2 r3 id e1 H0 Hn. unfold getQuestion in *.
      by rewrite (getNextAction_bank _ _ _ _ _ _ Hn).
    - done. }
  split; [done|]. intros Hq. rewrite Heq. unfold getQuestion. by rewrite Hq.
Qed.

Lemma getQuestion_stable_witness :
  let e' := evaluate_all Demo.engine [(99, true); (1, false)] in
  run Demo.engine [CallEvaluate 99 true; CallEvaluate 1 false] = Some e' ∧
  getQuestion e' 99 = getQuestion Demo.engine 99 ∧
  (questionBankByID Demo.engine !! 99 = None →
   getQuestion e' 99 = default_Question).
Proof.
  intros e'.
  assert (run Demo.engine [CallEvaluate 99 true; CallEvaluate 1 false]
          = Some e') as Hrun by (vm_compute; reflexivity).
  split; [exact Hrun|].
  apply (getQuestion_stable Demo.engine _ e' 99 Hrun).
Defined.

(** ** Selection and learning *)

Lemma maxQValue_q_touch_all pool t s s2 :
  maxQValue (q_touch_all t s pool) s2 = maxQValue t s2.
Proof.
  revert t. induction pool as [|a pool IH]; intros t; [done|].
  unfold q_touch_all in *; simpl. by rewrite IH, maxQValue_q_touch.
Qed.

Lemma getNextAction_values e r1 r2 r3 id e' :
  getNextAction e r1 r2 r3 = Some (id, e') →
  (∀ s a, getQValue (q_table e') s a = getQValue (q_table e) s a) ∧
  (∀ s, maxQValue (q_table e') s = maxQValue (q_table e) s).
Proof.
  intros Hn. rewrite (getNextAction_engine _ _ _ _ _ _ Hn). simpl.
  destruct (_ || _); [done|]. split; intros.
  - apply getQValue_q_touch_all.
  - apply maxQValue_q_touch_all.
Qed.

Lemma getQValue_updateQTable t s a r s2 s' a' :
  getQValue (updateQTable t s a r s2) s' a' =
    if decide ((s', a') = (s, a))
    then q_target (getQValue t s a) r (maxQValue t s2)
    else getQValue t s' a'.
Proof.
  case_decide as Heq.
  - injection Heq as -> ->. apply getQValue_updateQTable_same.
  - by apply getQValue_updateQTable_other.
Qed.

(** X9. Question selection changes no Q-value: after [getNextAction],
    [getQValue] of every pair and [maxQValue] of every state are what they
    were (the 0.0 entries that the exploit scan inserts are values that were
    read as 0.0 before), and the Q-values after the next [evaluateResponse]
    are those that the same answer would have produced without the
    selection. *)
Theorem selection_keeps_values (e : Engine) (r1 r2 r3 id : Z) (e' : Engine) :
  getNextAction e r1 r2 r3 = Some (id, e') →
  (∀ s a, getQValue (q_table e') s a = getQValue (q_table e) s a) ∧
  (∀ s, maxQValue (q_table e') s = maxQValue (q_table e) s) ∧
  (∀ qid correct s a,
     getQValue (q_table (evaluateResponse e' qid correct)) s a
     = getQValue (q_table (evaluateResponse e qid correct)) s a) ∧
  (∀ qid correct,
     state (evaluateResponse e' qid correct)
     = state (evaluateResponse e qid correct)).
Proof.
  intros Hn. destruct (getNextAction_values _ _ _ _ _ _ Hn) as [Hq Hm].
  assert (∀ qid correct s, next_state e' qid correct s = next_state e qid correct s)
    as Hns.
  { intros. by rewrite (getNextAction_engine _ _ _ _ _ _ Hn). }
  assert (state e' = state e) as Hst
    by (by rewrite (getNextAction_engine _ _ _ _ _ _ Hn)).
  split_and!; [done|done| |].
  - intros qid correct s a. rewrite !evaluateResponse_eq. simpl.
    rewrite !getQValue_updateQTable, Hst, Hns, !Hq, !Hm. done.
  - intros qid correct. rewrite !evaluateResponse_state. by rewrite Hst, Hns.
Qed.

Lemma selection_keeps_values_witness :
  let e' := with_q_table Demo.engine
              (<[Demo.s0 := <[1 := F32.zero]> (<[2 := F32.zero]>
                                (<[3 := F32.zero]> ∅))]> ∅) in
  getNextAction Demo.engine RAND_MAX 0 0 = Some (1, e') ∧
  (∀ s a, getQValue (q_table e') s a = getQValue (q_table Demo.engine) s a) ∧
  (∀ s, maxQValue (q_table e') s = maxQValue (q_table Demo.engine) s) ∧
  (∀ qid correct s a,
     getQValue (q_table (evaluateResponse e' qid correct)) s a
     = getQValue (q_table (evaluateResponse Demo.engine qid correct)) s a) ∧
  (∀ qid correct,
     state (evaluateResponse e' qid correct)
     = state (evaluateResponse Demo.engine qid correct)).
Proof.
  intros e'.
  assert (getNextAction Demo.engine RAND_MAX 0 0 = Some (1, e')) as Hn
    by (vm_compute; reflexivity).
  split; [exact Hn|].
  apply (selection_keeps_values Demo.engine RAND_MAX 0 0 1 e' Hn).
Defined.

(** ** The Q-table only grows *)

Lemma q_entry_q_touch t s a s' a' v :
  q_entry t s' a' = Some v → q_entry (q_touch t s a) s' a' = Some v.
Proof.
  unfold q_entry. intros Hv.
  destruct (decide (s = s')) as [<-|Hne];
    [|by rewrite q_touch_lookup_ne].
  rewrite q_touch_lookup_eq. simpl.
  destruct (t !! s) as [row|] eqn:Ht; simpl in *; [|done].
  destruct (decide (a = a')) as [<-|Hna].
  - rewrite lookup_insert_eq. unfold getQValue. by rewrite Ht, Hv.
  - by rewrite lookup_insert_ne.
Qed.

Lemma q_entry_q_touch_all pool t s s' a' v :
  q_entry t s' a' = Some v → q_entry (q_touch_all t s pool) s' a' = Some v.
Proof.
  revert t. induction pool as [|a pool IH]; intros t Hv; [done|].
  unfold q_touch_all in *; simpl. by apply IH, q_entry_q_touch.
Qed.

Lemma q_entry_updateQTable t s a r s2 s' a' :
  is_Some (q_entry t s' a') →
  is_Some (q_entry (updateQTable t s a r s2) s' a').
Proof.
  intros [v Hv]. rewrite updateQTable_eq. unfold q_entry in *.
  destruct (decide (s = s')) as [<-|Hne]; [|by rewrite lookup_insert_ne; eauto].
  rewrite lookup_insert_eq. simpl.
  destruct (t !! s) as [row|]; simpl in *; [|done].
  destruct (decide (a = a')) as [<-|Hna].
  - rewrite lookup_insert_eq. eauto.
  - rewrite lookup_insert_ne by done. eauto.
Qed.

(** X10. No call ever removes an entry of the Q-table: a pair that has a
    stored value keeps one through any session; question selection keeps the
    very value, and an answer stores a value for the pair of the state before
    the answer and the id answered. *)
Theorem q_table_only_grows (e : Engine) (calls : list Call) (e' : Engine)
    (s : State) (a : Z) :
  run e calls = Some e' →
  (is_Some (q_entry (q_table e) s a) → is_Some (q_entry (q_table e') s a)) ∧
  (∀ r1 r2 r3 id e1 v,
     getNextAction e r1 r2 r3 = Some (id, e1) →
     q_entry (q_table e) s a = Some v → q_entry (q_table e1) s a = Some v) ∧
  (∀ qid correct,
     is_Some (q_entry (q_table (evaluateResponse e qid correct)) (state e) qid)).
Proof.
  intros Hrun. split_and!.
  - intros Hs.
    eapply (run_invariant (λ e1, is_Some (q_entry (q_table e1) s a)));
      [| |exact Hs|exact Hrun].
    + intros e0 qid correct H0. rewrite evaluateResponse_eq. simpl.
      by apply q_entry_updateQTable.
    + intros e0 r1 r2 r3 id e1 [v Hv] Hn.
      rewrite (getNextAction_engine _ _ _ _ _ _ Hn). simpl.
      destruct (_ || _); [eauto|]. exists v. by apply q_entry_q_touch_all.
  - intros r1 r2 r3 id e1 v Hn Hv.
    rewrite (getNextAction_engine _ _ _ _ _ _ Hn). simpl.
    destruct (_ || _); [done|]. by apply q_entry_q_touch_all.
  - intros qid correct. rewrite evaluateResponse_eq. simpl.
    rewrite updateQTable_eq. unfold q_entry.
    rewrite lookup_insert_eq. simpl. rewrite lookup_insert_eq. eauto.
Qed.

Lemma q_table_only_grows_witness :
  let e := evaluateResponse Demo.engine 1 true in
  let e' := evaluate_all e [(2, false); (1, true)] in
  run e [CallEvaluate 2 false; CallEvaluate 1 true] = Some e' ∧
  (is_Some (q_entry (q_table e) Demo.s0 1) →
   is_Some (q_entry (q_table e') Demo.s0 1)) ∧
  (∀ r1 r2 r3 id e1 v,
     getNextAction e r1 r2 r3 = Some (id, e1) →
     q_entry (q_table e) Demo.s0 1 = Some v →
     q_entry (q_table e1) Demo.s0 1 = Some v) ∧
  (∀ qid correct,
     is_Some (q_entry (q_table (evaluateResponse e qid correct)) (state e) qid)).
Proof.
  intros e e'.
  assert (run e [CallEvaluate 2 false; CallEvaluate 1 true] = Some e') as Hrun
    by (vm_compute; reflexivity).
  split; [exact Hrun|].
  apply (q_table_only_grows e _ e' Demo.s0 1 Hrun).
Defined.

(** ** The explore branch *)

Lemma bucket_fold_eq bank l :
  (∀ qid, qid ∈ l → is_Some (bank !! qid)) →
  ∀ nQ cQ sQ,
    fold_left bucket_step l (bank, nQ, cQ, sQ) =
      (bank, nQ ++ of_topic bank 101 l, cQ ++ of_topic bank 102 l,
       sQ ++ of_topic bank 104 l).
Proof.
  induction l as [|a l IH]; intros Hin nQ cQ sQ.
  { simpl. by rewrite !app_nil_r. }
  destruct (Hin a) as [q Hq]; [set_solver|].
  assert (∀ qid, qid ∈ l → is_Some (bank !! qid)) as Hin'
    by (intros; apply Hin; set_solver).
  simpl. unfold map_index, of_topic. simpl. rewrite Hq.
  destruct (topicID q =? 101) eqn:H101.
  - apply Z.eqb_eq in H101. rewrite H101. simpl.
    rewrite IH by done. unfold of_topic. by rewrite <- !app_assoc.
  - apply Z.eqb_neq in H101.
    destruct ((topicID q >=? 101) && (topicID q <=? 102)) eqn:H102.
    + apply andb_true_iff in H102 as [H1 H2].
      rewrite Z.geb_leb in H1. apply Z.leb_le in H1, H2.
      assert (topicID q = 102) as -> by lia. simpl.
      rewrite IH by done. unfold of_topic. by rewrite <- !app_assoc.
    + assert ((topicID q =? 102) = false) as ->.
      { apply Z.eqb_neq. intros Heq. rewrite Heq in H102. done. }
      destruct (topicID q =? 104) eqn:H104; simpl;
        rewrite IH by done; unfold of_topic; by rewrite <- ?app_assoc.
Qed.

(** X11. The three groups of the explore branch, for a pool of ids of the
    bank: the first holds the ids of topic 101, the second the ids of topic
    102 only (the test [tid >= 101 && tid <= 102] is reached for [tid != 101]
    only), the third the ids of topic 104 only; an id of topic 103, or of a
    topic above 104, is in no group and can be drawn from the whole pool
    only.  The bank is not changed. *)
Theorem explore_groups (bank : gmap Z Question) (pool : list Z) :
  (∀ qid, qid ∈ pool → is_Some (bank !! qid)) →
  buckets bank pool =
    (bank, of_topic bank 101 pool, of_topic bank 102 pool,
     of_topic bank 104 pool) ∧
  (∀ qid q, bank !! qid = Some q → topicID q = 103 ∨ 104 < topicID q →
     (qid ∉ of_topic bank 101 pool) ∧ (qid ∉ of_topic bank 102 pool)
     ∧ (qid ∉ of_topic bank 104 pool)).
Proof.
  intros Hin. split.
  - unfold buckets. by rewrite bucket_fold_eq.
  - intros qid q Hq Ht. unfold of_topic.
    rewrite !elem_of_filter_bool, Hq, !Z.eqb_eq. lia.
Qed.

Lemma explore_groups_witness :
  (∀ qid, qid ∈ [1; 2; 3] → is_Some (Demo.bank !! qid)) ∧
  buckets Demo.bank [1; 2; 3] =
    (Demo.bank, of_topic Demo.bank 101 [1; 2; 3],
     of_topic Demo.bank 102 [1; 2; 3], of_topic Demo.bank 104 [1; 2; 3]) ∧
  (∀ qid q, Demo.bank !! qid = Some q → topicID q = 103 ∨ 104 < topicID q →
     (qid ∉ of_topic Demo.bank 101 [1; 2; 3])
     ∧ (qid ∉ of_topic Demo.bank 102 [1; 2; 3])
     ∧ (qid ∉ of_topic Demo.bank 104 [1; 2; 3])).
Proof.
  assert (∀ qid, qid ∈ [1; 2; 3] → is_Some (Demo.bank !! qid)) as Hin.
  { intros qid Hq. repeat (apply elem_of_cons in Hq as [->|Hq]);
      [by vm_compute; eauto..|by apply elem_of_nil in Hq]. }
  split; [exact Hin|].
  apply (explore_groups Demo.bank [1; 2; 3] Hin).
Defined.

(** X12. For a skill state in range the exploration rate is 0.9 exactly when
    the three levels sum to at most 2, 0.7 exactly when they sum to 3, 4 or
    5, and 0.5 exactly when all three levels are 2. *)
Theorem epsilon_tiers (s : State) :
  in_range s →
  let eps := epsilon_of (avgLevel s) in
  let sum := notes s + chords s + scales s in
  (eps = F32.c0_9 ↔ sum ≤ 2) ∧
  (eps = F32.c0_7 ↔ 3 ≤ sum ≤ 5) ∧
  (eps = F32.c0_5 ↔ notes s = 2 ∧ chords s = 2 ∧ scales s = 2).
Proof.
  intros (Hn & Hc & Hs) eps sum. subst eps sum. unfold avgLevel.
  destruct s as [n c sc]. simpl in *.
  assert (n = 0 ∨ n = 1 ∨ n = 2) as Hn' by lia.
  assert (c = 0 ∨ c = 1 ∨ c = 2) as Hc' by lia.
  assert (sc = 0 ∨ sc = 1 ∨ sc = 2) as Hs' by lia.
  destruct Hn' as [-> | [-> | ->]], Hc' as [-> | [-> | ->]],
    Hs' as [-> | [-> | ->]];
    vm_compute; repeat split; intros; try done; try discriminate; try lia;
    intuition discriminate.
Qed.

Lemma epsilon_tiers_witness :
  in_range (mkState 2 1 2) ∧
  (epsilon_of (avgLevel (mkState 2 1 2)) = F32.c0_9 ↔ 2 + 1 + 2 ≤ 2) ∧
  (epsilon_of (avgLevel (mkState 2 1 2)) = F32.c0_7 ↔ 3 ≤ 2 + 1 + 2 ≤ 5) ∧
  (epsilon_of (avgLevel (mkState 2 1 2)) = F32.c0_5
     ↔ (2 = 2 ∧ 1 = 2 ∧ 2 = 2)).
Proof.
  assert (in_range (mkState 2 1 2)) as Hr by (unfold in_range; simpl; lia).
  split; [exact Hr|].
  apply (epsilon_tiers (mkState 2 1 2) Hr).
Defined.

(** ** Candidates grow with the levels *)

Lemma fits_mono st st' k k' q :
  notes st ≤ notes st' → chords st ≤ chords st' → scales st ≤ scales st' →
  k ≤ k' → fits st k q = true → fits st' k' q = true.
Proof. intros ? ? ? ?. rewrite !fits_iff. lia. Qed.

(** X13. For skill states with levels in [0,2] the candidate filter is
    monotone: every candidate without stretch is a candidate with stretch,
    and raising skill levels (or building the engine on a larger bank with
    the same questions) removes no candidate. *)
Theorem candidates_monotone (bank : gmap Z Question) (st st' : State)
    (allow : bool) (id : Z) :
  in_range st → in_range st' →
  (id ∈ actions_of bank st false → id ∈ actions_of bank st true) ∧
  (notes st ≤ notes st' → chords st ≤ chords st' → scales st ≤ scales st' →
   id ∈ actions_of bank st allow → id ∈ actions_of bank st' allow) ∧
  (∀ bank', bank ⊆ bank' →
     id ∈ actions_of bank st allow → id ∈ actions_of bank' st allow).
Proof.
  intros Hrange Hrange'. split_and!.
  - rewrite !elem_of_actions_of. intros (q & Hq & Hf). exists q.
    split; [done|]. apply (fits_mono st st 0 1); [lia..|done].
  - intros Hn Hc Hs. rewrite !elem_of_actions_of. intros (q & Hq & Hf).
    exists q. split; [done|].
    apply (fits_mono st st' (if allow then 1 else 0) (if allow then 1 else 0));
      [done|done|done|lia|done].
  - intros bank' Hsub. rewrite !elem_of_actions_of. intros (q & Hq & Hf).
    exists q. split; [|done]. by eapply lookup_weaken.
Qed.

Lemma candidates_monotone_witness :
  in_range Demo.s0 ∧ in_range (mkState 1 1 1) ∧
  (1 ∈ actions_of Demo.bank Demo.s0 false →
   1 ∈ actions_of Demo.bank Demo.s0 true).
Proof.
  assert (in_range Demo.s0) as Hr by (unfold in_range; simpl; lia).
  assert (in_range (mkState 1 1 1)) as Hr' by (unfold in_range; simpl; lia).
  split; [exact Hr|]. split; [exact Hr'|].
  exact (proj1 (candidates_monotone Demo.bank Demo.s0 (mkState 1 1 1) true 1
                  Hr Hr')).
Defined.

(** ** A quiz of the quiz page *)

Lemma page_start_ok bank qTable userState r1 r2 r3 p0 :
  page_start bank qTable userState r1 r2 r3 = Some p0 → page_ok bank 0 p0.
Proof.
  unfold page_start, startQuiz. case_bool_decide as Hb; [done|]. simpl.
  destruct (getNextAction _ r1 r2 r3) as [[id quiz1]|] eqn:Hn; [|done].
  simpl. intros [= <-].
  destruct (getNextAction_defined (AdaptiveQuiz bank qTable userState) r1 r2 r3 Hb)
    as (id' & e' & Hn' & Hid & _).
  rewrite Hn in Hn'. injection Hn' as <- <-.
  destruct (getNextAction_history _ _ _ _ _ _ Hn) as [Hh Ht].
  unfold page_ok; simpl.
  rewrite (getNextAction_bank _ _ _ _ _ _ Hn), Hh, Ht. simpl.
  split_and!; done.
Qed.

Lemma page_submit_ok bank n p correct r1 r2 r3 :
  page_ok bank n p →
  ∃ p', page_submit p correct r1 r2 r3 = Some p' ∧ page_ok bank (n + 1) p'.
Proof.
  intros (Hne & Hbank & [q Hq] & Hqa & Htq & Hover & Hhist).
  unfold page_submit.
  set (quiz1 := evaluateResponse (quiz p) (currentQuestionId p) correct).
  assert (questionBankByID quiz1 = bank) as Hb1.
  { subst quiz1. rewrite <- Hbank in Hq.
    by rewrite (evaluateResponse_bank_known _ _ _ _ Hq). }
  assert (totalQuestions quiz1 = n + 1) as Ht1.
  { subst quiz1. rewrite evaluateResponse_eq. simpl. lia. }
  assert (Forall (λ h : HistoryEntry, is_Some (bank !! h.1.1.2)) (history quiz1))
    as Hh1.
  { subst quiz1. rewrite evaluateResponse_eq. simpl.
    apply Forall_app. split; [done|]. constructor; [|done]. simpl. eauto. }
  rewrite Hqa. unfold NUM_QUIZ_QUESTIONS in *.
  destruct (n + 1 >=? 10) eqn:Hge; rewrite Z.geb_leb in Hge.
  - apply Z.leb_le in Hge. eexists. split; [done|].
    unfold page_ok, NUM_QUIZ_QUESTIONS; simpl.
    split_and!; try done; eauto.
  - apply Z.leb_gt in Hge.
    destruct (getNextAction_defined quiz1 r1 r2 r3) as (id & quiz2 & Hn & Hid & _).
    { by rewrite Hb1. }
    rewrite Hn. simpl. eexists. split; [done|].
    destruct (getNextAction_history _ _ _ _ _ _ Hn) as [Hh Ht].
    unfold page_ok, NUM_QUIZ_QUESTIONS; simpl.
    rewrite (getNextAction_bank _ _ _ _ _ _ Hn), Hh, Ht, Hb1.
    rewrite Hb1 in Hid.
    split_and!; try done. rewrite Hover. lia.
Qed.

Lemma page_run_ok bank subs :
  ∀ n p, page_ok bank n p →
    ∃ p', page_run p subs = Some p'
          ∧ page_ok bank (n + Z.of_nat (length subs)) p'.
Proof.
  induction subs as [|[correct [[r1 r2] r3]] subs IH]; intros n p Hok.
  - exists p. split; [done|]. simpl. by rewrite Z.add_0_r.
  - destruct (page_submit_ok bank n p correct r1 r2 r3 Hok) as (p1 & Hs & Hok1).
    destruct (IH _ _ Hok1) as (p' & Hr & Hok').
    exists p'. simpl. rewrite Hs. simpl. split; [done|].
    replace (n + Z.of_nat (S (length subs)))
      with (n + 1 + Z.of_nat (length subs)) by lia.
    done.
Qed.

(** X14. A quiz of the quiz page -- [startQuiz], then any number of
    submissions -- never reaches an undefined call once it has started, and
    after it: the bank of the engine is the bank that was loaded (every
    answer was given for the question on display, which is a question of the
    bank); the question on display, and every id in the history, is an id of
    the bank; the page and the engine have counted one answer per
    submission; and the quiz is over exactly when at least
    [NUM_QUIZ_QUESTIONS] = 10 answers were submitted. *)
Theorem page_quiz (bank : gmap Z Question) (qTable : QTable) (userState : State)
    (r1 r2 r3 : Z) (p0 : Page) (subs : list (bool * (Z * Z * Z))) :
  page_start bank qTable userState r1 r2 r3 = Some p0 →
  ∃ p, page_run p0 subs = Some p ∧
    questionBankByID (quiz p) = bank ∧
    is_Some (bank !! currentQuestionId p) ∧
    Forall (λ h : HistoryEntry, is_Some (bank !! h.1.1.2)) (history (quiz p)) ∧
    questionsAnswered p = Z.of_nat (length subs) ∧
    getTotalQuestions (quiz p) = Z.of_nat (length subs) ∧
    (quizOver p = true ↔ (10 ≤ length subs)%nat).
Proof.
  intros Hstart. apply page_start_ok in Hstart.
  destruct (page_run_ok bank subs 0 p0 Hstart)
    as (p & Hrun & _ & Hb & Hc & Hq & Ht & Hover & Hh).
  exists p. unfold getTotalQuestions, NUM_QUIZ_QUESTIONS in *.
  split_and!; try done; try lia. rewrite Hover. lia.
Qed.

Lemma page_quiz_witness :
  let p0 := mkPage Demo.engine 2 0 false in
  page_start Demo.bank ∅ Demo.s0 0 1 0 = Some p0 ∧
  ∃ p, page_run p0 sample_submissions = Some p ∧
    questionBankByID (quiz p) = Demo.bank ∧
    is_Some (Demo.bank !! currentQuestionId p) ∧
    Forall (λ h : HistoryEntry, is_Some (Demo.bank !! h.1.1.2))
      (history (quiz p)) ∧
    questionsAnswered p
      = Z.of_nat (length sample_submissions) ∧
    getTotalQuestions (quiz p)
      = Z.of_nat (length sample_submissions) ∧
    (quizOver p = true
     ↔ (10 ≤ length sample_submissions)%nat).
Proof.
  intros p0.
  assert (page_start Demo.bank ∅ Demo.s0 0 1 0 = Some p0) as Hs
    by (vm_compute; reflexivity).
  split; [exact Hs|].
  apply (page_quiz Demo.bank ∅ Demo.s0 0 1 0 p0 _ Hs).
Defined.

(** * Persistence and the quiz page: properties *)

(** ** Qt strings *)

Section QtStrings.

Lemma append_nil_l s : EmptyString +:+ s = s.
Proof. reflexivity. Qed.

Lemma append_cons a s t : String a s +:+ t = String a (s +:+ t).
Proof. reflexivity. Qed.

Lemma append_nil_r s : s +:+ EmptyString = s.
Proof. induction s as [|a s IH]; [done|]. by rewrite append_cons, IH. Qed.

Lemma all_chars_app p s1 s2 :
  all_chars p (s1 +:+ s2) = all_chars p s1 && all_chars p s2.
Proof.
  induction s1 as [|a s1 IH]; [done|].
  rewrite append_cons. simpl. rewrite IH. by rewrite andb_assoc.
Qed.

Lemma all_chars_impl (p q : ascii → bool) s :
  (∀ a, p a = true → q a = true) →
  all_chars p s = true → all_chars q s = true.
Proof.
  intros Hpq. induction s as [|a s IH]; simpl; [done|].
  intros [Ha Hs]%andb_true_iff. rewrite (Hpq _ Ha), (IH Hs). done.
Qed.

Lemma string_of_uint_chars d :
  all_chars number_char (NilEmpty.string_of_uint d) = true.
Proof. induction d; simpl; done. Qed.

Lemma QString_number_chars n : all_chars number_char (QString_number n) = true.
Proof.
  unfold QString_number.
  destruct (Z.to_int n) as [d|d]; simpl;
    destruct d; simpl; try done; apply string_of_uint_chars.
Qed.

Lemma QString_number_nonempty n : QString_number n ≠ EmptyString.
Proof.
  unfold QString_number.
  destruct (Z.to_int n) as [d|d]; simpl; [|done].
  destruct d; done.
Qed.

Lemma number_char_cases a :
  number_char a = true →
  isSpace a = false ∧ Ascii.eqb a "+" = false ∧ Ascii.eqb a "[" = false ∧
  Ascii.eqb a "]" = false ∧ Ascii.eqb a "," = false.
Proof.
  destruct a as [[] [] [] [] [] [] [] []]; vm_compute; try done.
Qed.

Lemma trim_left_id s :
  all_chars (λ a, negb (isSpace a)) s = true → trim_left s = s.
Proof.
  destruct s as [|a s]; simpl; [done|].
  intros [Ha _]%andb_true_iff. by destruct (isSpace a).
Qed.

Lemma trim_right_id s :
  all_chars (λ a, negb (isSpace a)) s = true → trim_right s = s.
Proof.
  induction s as [|a s IH]; simpl; [done|].
  intros [Ha Hs]%andb_true_iff. rewrite (IH Hs).
  destruct s; [by destruct (isSpace a)|done].
Qed.

Lemma QString_remove_id c s :
  all_chars (λ a, negb (Ascii.eqb a c)) s = true → QString_remove c s = s.
Proof.
  induction s as [|a s IH]; simpl; [done|].
  intros [Ha Hs]%andb_true_iff. rewrite (IH Hs).
  by destruct (Ascii.eqb a c).
Qed.

Lemma QString_remove_app c s1 s2 :
  QString_remove c (s1 +:+ s2) = QString_remove c s1 +:+ QString_remove c s2.
Proof.
  induction s1 as [|a s1 IH]; [done|].
  rewrite append_cons. simpl. rewrite IH. by destruct (Ascii.eqb a c).
Qed.

Lemma QString_split_nonempty sep s : QString_split sep s ≠ [].
Proof.
  induction s as [|a s IH]; simpl; [done|].
  destruct (Ascii.eqb a sep); [done|].
  by destruct (QString_split sep s).
Qed.

Lemma QString_split_one sep s :
  all_chars (λ a, negb (Ascii.eqb a sep)) s = true → QString_split sep s = [s].
Proof.
  induction s as [|a s IH]; simpl; [done|].
  intros [Ha Hs]%andb_true_iff. rewrite (IH Hs).
  by destruct (Ascii.eqb a sep).
Qed.

Lemma QString_split_app sep s1 s2 :
  all_chars (λ a, negb (Ascii.eqb a sep)) s1 = true →
  QString_split sep (s1 +:+ String sep s2) = s1 :: QString_split sep s2.
Proof.
  induction s1 as [|a s1 IH].
  - intros _. rewrite append_nil_l. simpl. by rewrite Ascii.eqb_refl.
  - rewrite append_cons. simpl.
    intros [Ha Hs]%andb_true_iff. rewrite (IH Hs).
    by destruct (Ascii.eqb a sep).
Qed.

Lemma QString_number_no (c : ascii) n :
  number_char c = false →
  all_chars (λ a, negb (Ascii.eqb a c)) (QString_number n) = true.
Proof.
  intros Hc. eapply all_chars_impl; [|apply QString_number_chars].
  intros a Ha. destruct (Ascii.eqb_spec a c) as [->|]; [congruence|done].
Qed.

Lemma QString_number_trimmed n :
  QString_trimmed (QString_number n) = QString_number n.
Proof.
  assert (all_chars (λ a, negb (isSpace a)) (QString_number n) = true) as H.
  { eapply all_chars_impl; [|apply QString_number_chars].
    intros a Ha. by destruct (number_char_cases a Ha) as [-> _]. }
  unfold QString_trimmed. by rewrite (trim_left_id _ H), (trim_right_id _ H).
Qed.

(** Decoding the decimal text of an [int] gives the [int] back. *)
Lemma QString_toInt_number n : is_int n → QString_toInt (QString_number n) = n.
Proof.
  intros Hn. unfold QString_toInt. rewrite QString_number_trimmed.
  pose proof (QString_number_chars n) as Hc.
  assert (NilZero.int_of_string (QString_number n) = Some (Z.to_int n)) as Hp.
  { unfold QString_number. apply NilZero.isi.
    - destruct n; simpl; [done| |done].
      intros [= H]. by apply DecimalPos.Unsigned.to_uint_nonnil in H.
    - destruct n; simpl; [done|done|].
      intros [= H]. by apply DecimalPos.Unsigned.to_uint_nonnil in H. }
  destruct (QString_number n) as [|a r] eqn:Hs; [done|].
  simpl in Hc. apply andb_true_iff in Hc as [Ha _].
  destruct (number_char_cases a Ha) as (_ & Hplus & _).
  assert (match String a r with
          | String "+"%char r0 => Decimal.Pos <$> NilZero.uint_of_string r0
          | _ => NilZero.int_of_string (String a r)
          end = NilZero.int_of_string (String a r)) as ->.
  { destruct (Ascii.eqb_spec a "+") as [->|Hne]; [done|].
    destruct a as [[] [] [] [] [] [] [] []]; done. }
  rewrite Hp. cbn zeta. rewrite DecimalZ.of_to.
  by rewrite bool_decide_true.
Qed.

Lemma length_append s1 s2 :
  String.length (s1 +:+ s2) = (String.length s1 + String.length s2)%nat.
Proof.
  induction s1 as [|a s1 IH]; [done|].
  rewrite append_cons. simpl. by rewrite IH.
Qed.

Lemma substring_0_app s1 s2 :
  String.substring 0 (String.length s1) (s1 +:+ s2) = s1.
Proof.
  induction s1 as [|a s1 IH].
  - rewrite append_nil_l. by destruct s2.
  - rewrite append_cons. simpl. by rewrite IH.
Qed.

Lemma substring_0_length s : String.substring 0 (String.length s) s = s.
Proof. rewrite <-(append_nil_r s) at 2. apply substring_0_app. Qed.

(** [mid(1, length - 2)] takes a one-character bracket off each end. *)
Lemma QString_mid_inner a b s :
  QString_mid 1 (Z.of_nat (String.length (String a (s +:+ String b EmptyString))) - 2)
    (String a (s +:+ String b EmptyString)) = s.
Proof.
  unfold QString_mid.
  set (t := s +:+ String b EmptyString).
  assert (String.length t = S (String.length s)) as Ht.
  { unfold t. rewrite length_append. simpl. lia. }
  cbn [String.length]. rewrite Ht.
  replace (1 <? 0) with false by done.
  destruct (Z.ltb_spec (Z.of_nat (S (S (String.length s)))) 1) as [|_]; [lia|].
  cbn [orb].
  replace (Z.to_nat 1) with 1%nat by done.
  replace (Z.to_nat (Z.of_nat (S (S (String.length s))) - 1))
    with (String.length t) by lia.
  cbn [String.substring]. rewrite substring_0_length.
  destruct (Z.ltb_spec (Z.of_nat (S (S (String.length s))) - 2) 0) as [|_]; [lia|].
  destruct (Z.ltb_spec (Z.of_nat (S (S (String.length s))) - 1)
              (Z.of_nat (S (S (String.length s))) - 2)) as [|_]; [lia|].
  cbn [orb].
  replace (Z.to_nat (Z.of_nat (S (S (String.length s))) - 2))
    with (String.length s) by lia.
  apply substring_0_app.
Qed.

End QtStrings.

(** ** Keys *)

Lemma fromKey_toKey s : is_int_state s → fromKey (toKey s) = Some s.
Proof.
  destruct s as [a b c]. intros (Ha & Hb & Hc). unfold fromKey, toKey.
  simpl in *.
  rewrite !QString_remove_app. simpl.
  rewrite !(QString_remove_id "[" (QString_number _))
    by (by apply QString_number_no).
  rewrite !(QString_remove_id "]" (QString_number _))
    by (by apply QString_number_no).
  rewrite !append_nil_l, !append_cons, !append_nil_l, append_nil_r.
  rewrite QString_split_app by (by apply QString_number_no).
  rewrite QString_split_app by (by apply QString_number_no).
  rewrite QString_split_one by (by apply QString_number_no).
  by rewrite !QString_toInt_number.
Qed.

Lemma toKey_inj s s' :
  is_int_state s → is_int_state s' → toKey s = toKey s' → s = s'.
Proof.
  intros Hs Hs' Heq. apply fromKey_toKey in Hs, Hs'. congruence.
Qed.

Lemma questionID_of_actionKey n : is_int n → questionID_of (actionKey n) = n.
Proof.
  intros Hn. unfold questionID_of, actionKey. cbn zeta.
  rewrite append_cons, append_nil_l.
  by rewrite QString_mid_inner, QString_toInt_number.
Qed.

Lemma actionKey_inj n n' :
  is_int n → is_int n' → actionKey n = actionKey n' → n = n'.
Proof.
  intros Hn Hn' Heq. apply questionID_of_actionKey in Hn, Hn'. congruence.
Qed.

(** X15.  A state whose levels are [int]s is read back from its key:
    [fromKey (toKey s)] is [s], with all three parts found; so two such
    states with the same key are equal. *)
Theorem state_key_round_trip (s : State) :
  is_int_state s →
  fromKey (toKey s) = Some s ∧
  ∀ s', is_int_state s' → toKey s' = toKey s → s' = s.
Proof.
  intros Hs. split; [by apply fromKey_toKey|].
  intros s' Hs' Heq. by apply toKey_inj.
Qed.

Lemma state_key_round_trip_witness :
  is_int_state sample_state ∧
  fromKey (toKey sample_state) = Some sample_state.
Proof.
  assert (is_int_state sample_state) as H by (vm_compute; intuition discriminate).
  split; [exact H|]. exact (proj1 (state_key_round_trip sample_state H)).
Defined.

(** X16.  The question id that [getQTable] reads from an action key is the
    id that [saveQTable] wrote into it, for every [int]; so two ids with the
    same key are equal. *)
Theorem action_key_round_trip (questionID : Z) :
  is_int questionID →
  questionID_of (actionKey questionID) = questionID ∧
  ∀ id', is_int id' → actionKey id' = actionKey questionID → id' = questionID.
Proof.
  intros Hid. split; [by apply questionID_of_actionKey|].
  intros id' Hid' Heq. by apply actionKey_inj.
Qed.

Lemma action_key_round_trip_witness :
  is_int 42 ∧ questionID_of (actionKey 42) = 42.
Proof.
  assert (is_int 42) as H by (vm_compute; intuition discriminate).
  split; [exact H|]. exact (proj1 (action_key_round_trip 42 H)).
Defined.

(** The keys are read leniently: brackets are not required, a fourth part
    is ignored, and a part that is no number counts as 0. *)
Example keys_read_leniently :
  fromKey "1,2,3,4" = Some (mkState 1 2 3) ∧
  fromKey "[ 1 ,+2,x]" = Some (mkState 1 2 0) ∧
  fromKey "[1,2]" = None ∧
  questionID_of "(12)" = 12 ∧
  questionID_of "7" = 0.
Proof. vm_compute. repeat split. Qed.


(** ** JSON numbers *)

Lemma toInt_or_of_int dflt n : is_int n → toInt_or dflt (QJsonValue_int n) = n.
Proof.
  intros Hn. unfold toInt_or, QJsonValue_int.
  assert (double_whole (double_of_int n) = Some n) as ->.
  { destruct n as [|p|p]; simpl; [done| |]; f_equal; lia. }
  by rewrite bool_decide_true.
Qed.

Lemma toInt_of_int n : is_int n → toInt (QJsonValue_int n) = n.
Proof. apply toInt_or_of_int. Qed.

Lemma toInt_is_int v : is_int (toInt v).
Proof.
  assert (is_int 0) as H0 by (unfold is_int, INT_MIN, INT_MAX; lia).
  unfold toInt. destruct v; simpl; try done.
  destruct (double_whole d); [|done]. by case_bool_decide.
Qed.

(** A binary32 number survives the conversion to [double] and back. *)
Lemma double_to_float_of_float q :
  valid_binary F32.prec F32.emax q = true →
  double_to_float (float_to_double q) = q.
Proof.
  unfold float_to_double. destruct q as [s| s| |s m e]; simpl; try done.
  unfold bounded, canonical_mantissa.
  intros [Hc He]%andb_true_iff. apply Z.eqb_eq in Hc.
  assert (binary_round F32.prec F32.emax s m e = S754_finite s m e) as Hr.
  { unfold binary_round, shl_align. rewrite Hc, Z.sub_diag.
    unfold binary_round_aux, shr_fexp. cbn [Zdigits2].
    rewrite Hc, Z.sub_diag. cbn [shr shr_record_of_loc shr_m loc_of_shr_record
      round_nearest_even Zdigits2].
    rewrite Hc, Z.sub_diag. cbn [shr shr_m]. by rewrite He. }
  destruct s; exact Hr.
Qed.

(** ** Structured records *)

Lemma value_insert (json : QJsonObject) key v : value (<[key := v]> json) key = v.
Proof. unfold value. by rewrite lookup_insert_eq. Qed.

Lemma value_insert_ne (json : QJsonObject) key key' v :
  key ≠ key' → value (<[key := v]> json) key' = value json key'.
Proof. intros Hne. unfold value. by rewrite lookup_insert_ne. Qed.

Lemma contains_insert (json : QJsonObject) key v :
  contains (<[key := v]> json) key = true.
Proof. unfold contains. rewrite lookup_insert_eq. by apply bool_decide_true. Qed.

Lemma contains_insert_ne (json : QJsonObject) key key' v :
  key ≠ key' → contains (<[key := v]> json) key' = contains json key'.
Proof. intros Hne. unfold contains. by rewrite lookup_insert_ne. Qed.

Ltac json_fields :=
  repeat first
    [ rewrite value_insert
    | rewrite contains_insert
    | rewrite value_insert_ne by discriminate
    | rewrite contains_insert_ne by discriminate ].

Lemma State_fromJson_toJson state0 s :
  is_int_state s → State_fromJson state0 (State_toJson s) = s.
Proof.
  intros (Hn & Hc & Hs). destruct s as [n c k]. simpl in *.
  unfold State_fromJson, State_toJson. cbn zeta.
  json_fields. cbn [notes chords scales].
  by rewrite !toInt_of_int.
Qed.

Lemma Question_fromJson_all q0 (v1 v2 v3 v4 v5 v6 v7 : QJsonValue) :
  Question_fromJson q0
    (<["topicName" := v7]> (<["difficulty" := v6]> (<["Title" := v5]>
     (<["ExpectedInput" := v4]> (<["Description" := v3]>
     (<["topicID" := v2]> (<["questionID" := v1]> ∅)))))))
  = mkQuestion (toInt v1) (toInt v2) (toString v3) (toString v4) (toString v5)
      (toInt v6) (toString v7).
Proof.
  set (json := <["topicName" := v7]> _).
  assert (contains json "questionID" = true ∧ contains json "topicID" = true ∧
          contains json "Description" = true ∧
          contains json "ExpectedInput" = true ∧ contains json "Title" = true ∧
          contains json "difficulty" = true ∧ contains json "topicName" = true)
    as (C1 & C2 & C3 & C4 & C5 & C6 & C7) by (by vm_compute).
  assert (value json "questionID" = v1 ∧ value json "topicID" = v2 ∧
          value json "Description" = v3 ∧ value json "ExpectedInput" = v4 ∧
          value json "Title" = v5 ∧ value json "difficulty" = v6 ∧
          value json "topicName" = v7)
    as (H1 & H2 & H3 & H4 & H5 & H6 & H7) by (by vm_compute).
  clearbody json. unfold Question_fromJson.
  rewrite C1, C2, C3, C4, C5, C6, C7, H1, H2, H3, H4, H5, H6, H7.
  reflexivity.
Qed.

(** X17.  A question whose id, topic id and difficulty are [int]s is read
    back from its JSON record, whatever the question held before: [toJson]
    and [fromJson] agree on the seven keys. *)
Theorem question_json_round_trip (q0 q : Question) :
  is_int (questionID q) → is_int (topicID q) → is_int (difficulty q) →
  Question_fromJson q0 (Question_toJson q) = q.
Proof.
  intros Hq Ht Hd. destruct q as [qid tid d e t df tn].
  cbn [questionID topicID difficulty] in *.
  unfold Question_toJson. cbv zeta. rewrite Question_fromJson_all.
  cbn [questionID topicID description expectedInput title difficulty topicName
       toString].
  by rewrite !toInt_of_int.
Qed.

Lemma question_json_round_trip_witness :
  is_int (questionID Demo.q2) ∧
  Question_fromJson default_Question (Question_toJson Demo.q2) = Demo.q2.
Proof.
  assert (is_int 2 ∧ is_int 102 ∧ is_int 0) as (H1 & H2 & H3)
    by (vm_compute; intuition discriminate).
  split; [exact H1|].
  exact (question_json_round_trip default_Question Demo.q2 H1 H2 H3).
Defined.

(** ** Loops that fill a map *)

Section FoldLookup.
Context {A V : Type} `{Countable K}.
Implicit Types (f : gmap K V → A → gmap K V) (key : A → K).

Lemma fold_left_lookup_other f key l m k :
  (∀ m a k', k' ≠ key a → f m a !! k' = m !! k') →
  (∀ a, a ∈ l → key a ≠ k) →
  fold_left f l m !! k = m !! k.
Proof.
  intros Hf. revert m. induction l as [|a l IH]; intros m Hk; [done|].
  simpl. rewrite IH.
  - apply Hf. intros ->. by apply (Hk a); [left|].
  - intros b Hb. apply Hk. by right.
Qed.

Lemma fold_left_lookup_key f key (v : A → V) l m a :
  (∀ m a k', k' ≠ key a → f m a !! k' = m !! k') →
  (∀ m b, b ∈ l → f m b !! key b = Some (v b)) →
  a ∈ l →
  (∀ b, b ∈ l → key b = key a → v b = v a) →
  fold_left f l m !! key a = Some (v a).
Proof.
  intros Hf. induction l as [|b l IH] using rev_ind; intros Hv Hin Hinj.
  - by apply elem_of_nil in Hin.
  - rewrite fold_left_app. cbn [fold_left].
    destruct (decide (key b = key a)) as [Hk|Hk].
    + rewrite <-Hk, Hv by (apply elem_of_app; right; by left).
      f_equal. apply Hinj; [|done]. apply elem_of_app. right. by left.
    + rewrite Hf by done.
      apply elem_of_app in Hin as [Hin|Hin%list_elem_of_singleton];
        [|by subst].
      apply IH; [|done|].
      * intros m' c Hc. apply Hv. apply elem_of_app. by left.
      * intros c Hc. apply Hinj. apply elem_of_app. by left.
Qed.

End FoldLookup.

(** ** Visiting orders *)

Section Visiting.
Context `{Countable K} {A : Type} (R : relation K) `{!RelDecision R}.
Implicit Types m : gmap K A.

Lemma elem_of_visited m k :
  k ∈ merge_sort R (map_to_list m).*1 ↔ is_Some (m !! k).
Proof.
  rewrite merge_sort_Permutation, list_elem_of_fmap. split.
  - intros [[k' v] [-> Hin]]. apply elem_of_map_to_list in Hin. by exists v.
  - intros [v Hv]. exists (k, v). split; [done|]. by apply elem_of_map_to_list.
Qed.

Lemma visited_NoDup m : NoDup (merge_sort R (map_to_list m).*1).
Proof. rewrite merge_sort_Permutation. apply NoDup_fst_map_to_list. Qed.

End Visiting.

Lemma elem_of_sorted_states {A} (m : gmap State A) s :
  s ∈ sorted_states m ↔ is_Some (m !! s).
Proof. apply elem_of_visited. Qed.

Lemma elem_of_QJsonObject_keys (json : QJsonObject) k :
  k ∈ QJsonObject_keys json ↔ is_Some (json !! k).
Proof. apply elem_of_visited. Qed.

Lemma QJsonObject_keys_NoDup (json : QJsonObject) :
  NoDup (QJsonObject_keys json).
Proof. apply visited_NoDup. Qed.

(** ** The saved table *)

Section SavedTable.

Lemma actionObj_of_lookup actionMap questionID qValue :
  storable_row actionMap →
  actionMap !! questionID = Some qValue →
  actionObj_of actionMap !! actionKey questionID = Some (JNumber qValue).
Proof.
  intros Hrow Hq. unfold actionObj_of.
  replace (Some (JNumber qValue)) with
    (Some ((λ id, JNumber (default F32.zero (actionMap !! id))) questionID))
    by (by simpl; rewrite Hq).
  apply (fold_left_lookup_key _ actionKey
           (λ id, JNumber (default F32.zero (actionMap !! id)))).
  - intros m a k' Hk'. destruct (actionMap !! a); [|done].
    by rewrite lookup_insert_ne.
  - intros m b Hb. apply elem_of_sorted_keys in Hb as [q Hb].
    rewrite Hb. simpl. by rewrite lookup_insert_eq.
  - apply elem_of_sorted_keys. eauto.
  - intros b Hb Hkey. apply elem_of_sorted_keys in Hb as [q Hb].
    assert (b = questionID) as ->; [|done].
    apply actionKey_inj; [by eapply Hrow|by eapply Hrow|done].
Qed.

Lemma actionObj_of_key actionMap k :
  is_Some (actionObj_of actionMap !! k) →
  ∃ questionID, k = actionKey questionID ∧ is_Some (actionMap !! questionID).
Proof.
  intros Hk.
  destruct (decide (k ∈ actionKey <$> sorted_keys actionMap)) as [Hin|Hin].
  - apply list_elem_of_fmap in Hin as (id & -> & Hid).
    exists id. split; [done|]. by apply elem_of_sorted_keys.
  - exfalso. unfold actionObj_of in Hk.
    rewrite (fold_left_lookup_other _ actionKey) in Hk.
    + rewrite lookup_empty in Hk. by destruct Hk.
    + intros m a k' Hk'. destruct (actionMap !! a); [|done].
      by rewrite lookup_insert_ne.
    + intros a Ha <-. apply Hin. apply list_elem_of_fmap. by exists a.
Qed.

Lemma tableObj_of_lookup qTable state actionMap :
  persistable qTable →
  qTable !! state = Some actionMap →
  tableObj_of qTable !! toKey state = Some (JObject (actionObj_of actionMap)).
Proof.
  intros Ht Hs. unfold tableObj_of.
  replace (Some (JObject (actionObj_of actionMap))) with
    (Some ((λ s, JObject (actionObj_of (default ∅ (qTable !! s)))) state))
    by (by simpl; rewrite Hs).
  apply (fold_left_lookup_key _ toKey
           (λ s, JObject (actionObj_of (default ∅ (qTable !! s))))).
  - intros m a k' Hk'. destruct (qTable !! a); [|done].
    by rewrite lookup_insert_ne.
  - intros m b Hb. apply elem_of_sorted_states in Hb as [row Hb].
    rewrite Hb. simpl. by rewrite lookup_insert_eq.
  - apply elem_of_sorted_states. eauto.
  - intros b Hb Hkey. apply elem_of_sorted_states in Hb as [row Hb].
    assert (b = state) as ->; [|done].
    apply toKey_inj; [by eapply Ht|by eapply Ht|done].
Qed.

Lemma tableObj_of_key qTable k :
  is_Some (tableObj_of qTable !! k) →
  ∃ state, k = toKey state ∧ is_Some (qTable !! state).
Proof.
  intros Hk.
  destruct (decide (k ∈ toKey <$> sorted_states qTable)) as [Hin|Hin].
  - apply list_elem_of_fmap in Hin as (s & -> & Hs).
    exists s. split; [done|]. by apply elem_of_sorted_states.
  - exfalso. unfold tableObj_of in Hk.
    rewrite (fold_left_lookup_other _ toKey) in Hk.
    + rewrite lookup_empty in Hk. by destruct Hk.
    + intros m a k' Hk'. destruct (qTable !! a); [|done].
      by rewrite lookup_insert_ne.
    + intros a Ha <-. apply Hin. apply list_elem_of_fmap. by exists a.
Qed.

(** The inner loop of [getQTable] fills one row. *)
Lemma load_actions_row state (actionMap : QJsonObject) (qTable : QTable) :
  load_actions state actionMap qTable =
  match QJsonObject_keys actionMap with
  | [] => qTable
  | keys =>
      <[state :=
          fold_left
            (λ (row : QRow) actionKey,
               <[questionID_of actionKey :=
                   double_to_float (toDouble (value actionMap actionKey))]> row)
            keys (default ∅ (qTable !! state))]> qTable
  end.
Proof.
  unfold load_actions. generalize (QJsonObject_keys actionMap) as keys.
  intros keys. revert qTable. induction keys as [|k keys IH]; intros qTable.
  - done.
  - cbn [fold_left]. rewrite IH. destruct keys as [|k' keys].
    + done.
    + rewrite lookup_insert_eq. cbn [default]. by rewrite insert_insert_eq.
Qed.

Lemma load_saved_row state actionMap (qTable : QTable) :
  storable_row actionMap → actionMap ≠ ∅ →
  qTable !! state = None →
  load_actions state (actionObj_of actionMap) qTable =
  <[state := actionMap]> qTable.
Proof.
  intros Hrow Hne Hnone. rewrite load_actions_row.
  destruct (QJsonObject_keys (actionObj_of actionMap)) as [|k0 keys0] eqn:Hkeys.
  { exfalso. apply Hne. apply map_empty. intros id.
    destruct (actionMap !! id) as [q|] eqn:Hq; [|done].
    assert (actionKey id ∈ QJsonObject_keys (actionObj_of actionMap)) as Hin.
    { apply elem_of_QJsonObject_keys. erewrite actionObj_of_lookup; eauto. }
    rewrite Hkeys in Hin. by apply elem_of_nil in Hin. }
  rewrite <-Hkeys. clear k0 keys0 Hkeys. f_equal.
  rewrite Hnone. cbn [default].
  set (obj := actionObj_of actionMap).
  assert (∀ k, k ∈ QJsonObject_keys obj →
            ∃ id q, k = actionKey id ∧ actionMap !! id = Some q ∧
                    is_int id ∧ storable q) as Hk.
  { intros k Hk. apply elem_of_QJsonObject_keys in Hk.
    apply actionObj_of_key in Hk as (id & -> & [q Hq]).
    exists id, q. split_and!; [done|done|by eapply Hrow|by eapply Hrow]. }
  apply map_eq. intros id.
  destruct (actionMap !! id) as [q|] eqn:Hq.
  - destruct (Hrow _ _ Hq) as [Hid [Hvalid _]].
    rewrite <-(questionID_of_actionKey id Hid) at 1.
    assert (Some q = Some ((λ k, double_to_float (toDouble (value obj k)))
                             (actionKey id))) as ->.
    { simpl. unfold value, obj. rewrite (actionObj_of_lookup _ _ q) by done.
      simpl. by rewrite <-(double_to_float_of_float q) at 1. }
    apply (fold_left_lookup_key _ questionID_of
             (λ k, double_to_float (toDouble (value obj k)))).
    + intros m a k' Hk'. by rewrite lookup_insert_ne.
    + intros m b _. by rewrite lookup_insert_eq.
    + apply elem_of_QJsonObject_keys. unfold obj.
      erewrite actionObj_of_lookup; eauto.
    + intros b Hb Heq. destruct (Hk b Hb) as (id' & q' & -> & _ & Hid' & _).
      rewrite !questionID_of_actionKey in Heq by done. by subst.
  - rewrite (fold_left_lookup_other _ questionID_of); [done| |].
    + intros m a k' Hk'. by rewrite lookup_insert_ne.
    + intros a Ha Heq. destruct (Hk a Ha) as (id' & q' & -> & Hq' & Hid' & _).
      rewrite questionID_of_actionKey in Heq by done. congruence.
Qed.

End SavedTable.

Section LoadedTable.
Variable saved : QTable.
Hypothesis Hpersistable : persistable saved.

(** What a key of the saved table object is. *)
Lemma saved_key k :
  k ∈ QJsonObject_keys (tableObj_of saved) →
  ∃ state actionMap,
    k = toKey state ∧ saved !! state = Some actionMap ∧
    fromKey k = Some state ∧
    value (tableObj_of saved) k = JObject (actionObj_of actionMap).
Proof.
  intros Hk. apply elem_of_QJsonObject_keys in Hk.
  apply tableObj_of_key in Hk as (s & -> & [row Hrow]).
  exists s, row. split_and!; [done|done| |].
  - apply fromKey_toKey. by eapply Hpersistable.
  - unfold value. by erewrite tableObj_of_lookup.
Qed.

(** The outer loop of [getQTable] over keys of the saved table object. *)
Lemma load_saved_keys keys (acc : QTable) :
  NoDup keys →
  (∀ k, k ∈ keys → k ∈ QJsonObject_keys (tableObj_of saved)) →
  (∀ k state, k ∈ keys → fromKey k = Some state → acc !! state = None) →
  fold_left
    (λ (acc : option QTable) stateKey,
       qTable ← acc;
       state ← fromKey stateKey;
       match value (tableObj_of saved) stateKey with
       | JObject actionMap => Some (load_actions state actionMap qTable)
       | _ => Some qTable
       end)
    keys (Some acc) =
  Some (fold_left
          (λ (acc : QTable) stateKey,
             match fromKey stateKey with
             | Some state => <[state := default ∅ (saved !! state)]> acc
             | None => acc
             end)
          keys acc).
Proof.
  revert acc. induction keys as [|k keys IH]; intros acc Hnd Hin Hfresh; [done|].
  apply NoDup_cons in Hnd as [Hk Hnd].
  destruct (saved_key k) as (s & row & -> & Hrow & Hfrom & Hval).
  { apply Hin. by left. }
  cbn [fold_left]. cbn [mbind option_bind]. rewrite Hfrom. cbn [mbind option_bind].
  rewrite Hval, Hrow. cbn [default].
  destruct (Hpersistable _ _ Hrow) as (Hs & Hne & Hints).
  rewrite load_saved_row; [|done|done|].
  2:{ eapply Hfresh; [by left|done]. }
  apply IH; [done| |].
  - intros k' Hk'. apply Hin. by right.
  - intros k' s' Hk' Hs'.
    destruct (saved_key k') as (s'' & row'' & -> & _ & Hfrom' & _).
    { apply Hin. by right. }
    assert (s'' = s') as -> by congruence.
    rewrite lookup_insert_ne.
    + eapply Hfresh; [by right|done].
    + intros ->. done.
Qed.

Lemma load_saved_all :
  fold_left
    (λ (acc : QTable) stateKey,
       match fromKey stateKey with
       | Some state => <[state := default ∅ (saved !! state)]> acc
       | None => acc
       end)
    (QJsonObject_keys (tableObj_of saved)) ∅ = saved.
Proof.
  set (key := λ k, default (mkState 0 0 0) (fromKey k)).
  set (row := λ k, default (∅ : QRow) (saved !! key k)).
  assert (∀ (m : QTable) a s, s ≠ key a →
            match fromKey a with
            | Some state => <[state := default ∅ (saved !! state)]> m
            | None => m
            end !! s = m !! s) as Hother.
  { intros m a s Hs. unfold key in Hs. destruct (fromKey a) as [s'|]; [|done].
    by rewrite lookup_insert_ne. }
  apply map_eq. intros s. destruct (saved !! s) as [r|] eqn:Hs.
  - destruct (Hpersistable _ _ Hs) as (Hint & _).
    assert (key (toKey s) = s) as Hkey.
    { unfold key. by rewrite fromKey_toKey. }
    rewrite <-Hkey at 1.
    assert (Some r = Some (row (toKey s))) as ->.
    { unfold row. by rewrite Hkey, Hs. }
    apply (fold_left_lookup_key _ key row).
    + intros m a k' Hk'. by apply Hother.
    + intros m b Hb. destruct (saved_key b Hb) as (s' & r' & -> & _ & Hfrom & _).
      unfold row, key. rewrite Hfrom. cbn [default]. by rewrite lookup_insert_eq.
    + apply elem_of_QJsonObject_keys. erewrite tableObj_of_lookup; eauto.
    + intros b Hb Heq. unfold row. by rewrite Heq.
  - rewrite (fold_left_lookup_other _ key); [done| |].
    + intros m a k' Hk'. by apply Hother.
    + intros a Ha Heq. destruct (saved_key a Ha) as (s' & r' & -> & Hs' & Hfrom & _).
      unfold key in Heq. rewrite Hfrom in Heq. simpl in Heq. congruence.
Qed.

Lemma load_saved_table (m_data : QJsonObject) :
  LoadDataManager.getQTable (LoadDataManager.saveQTable m_data saved)
  = Some saved.
Proof.
  unfold LoadDataManager.getQTable, LoadDataManager.saveQTable. cbn zeta.
  json_fields. cbn [toObject]. json_fields. cbn [toObject].
  rewrite load_saved_keys.
  - by rewrite load_saved_all.
  - apply QJsonObject_keys_NoDup.
  - done.
  - intros k s _ _. apply lookup_empty.
Qed.

End LoadedTable.

(** X18.  A Q-table with [int] states and ids, binary32 values other than
    the negative zero and no empty row is read back from [m_data] as it was
    saved, keys and values, whatever [m_data] held before; saving the table
    marks the user as not new and leaves the stored user state alone. *)
Theorem q_table_round_trip (m_data : QJsonObject) (qTable : QTable) :
  persistable qTable →
  LoadDataManager.getQTable (LoadDataManager.saveQTable m_data qTable)
    = Some qTable ∧
  LoadDataManager.isNewUser (LoadDataManager.saveQTable m_data qTable) = false ∧
  ∀ state0,
    LoadDataManager.getUserState state0 (LoadDataManager.saveQTable m_data qTable)
    = LoadDataManager.getUserState state0 m_data.
Proof.
  intros Ht. split; [by apply load_saved_table|].
  unfold LoadDataManager.isNewUser, LoadDataManager.getUserState,
    LoadDataManager.saveQTable. cbn zeta.
  json_fields. cbn [toObject]. json_fields. done.
Qed.

Lemma sample_table_persistable : persistable sample_table.
Proof.
  intros s row Hs. unfold sample_table in Hs.
  apply lookup_insert_Some in Hs as [[<- <-]|[_ Hs]];
    [|apply lookup_insert_Some in Hs as [[<- <-]|[_ Hs]]; [|done]].
  - split; [by vm_compute; intuition discriminate|].
    split; [by intros H; apply (f_equal (λ m : QRow, m !! 7)) in H|].
    intros id q Hq.
    apply lookup_insert_Some in Hq as [[<- <-]|[_ Hq]];
      [|apply lookup_insert_Some in Hq as [[<- <-]|[_ Hq]]; [|done]];
      (split; [by vm_compute; intuition discriminate|by split]).
  - split; [by vm_compute; intuition discriminate|].
    split; [by intros H; apply (f_equal (λ m : QRow, m !! 12)) in H|].
    intros id q Hq.
    apply lookup_insert_Some in Hq as [[<- <-]|[_ Hq]]; [|done].
    split; [by vm_compute; intuition discriminate|by split].
Qed.

Lemma q_table_round_trip_witness :
  persistable sample_table ∧
  LoadDataManager.getQTable (LoadDataManager.saveQTable ∅ sample_table)
    = Some sample_table.
Proof.
  split; [exact sample_table_persistable|].
  exact (proj1 (q_table_round_trip ∅ sample_table sample_table_persistable)).
Defined.

(** X19.  A user state with [int] levels is read back from [m_data] as it
    was saved, whatever [m_data] and the uninitialised [State] held before;
    saving the state changes neither the stored Q-table nor the new-user
    flag. *)
Theorem user_state_round_trip (m_data : QJsonObject) (state : State) :
  is_int_state state →
  (∀ state0,
     LoadDataManager.getUserState state0
       (LoadDataManager.saveUserState m_data state) = state) ∧
  LoadDataManager.getQTable (LoadDataManager.saveUserState m_data state)
    = LoadDataManager.getQTable m_data ∧
  LoadDataManager.isNewUser (LoadDataManager.saveUserState m_data state)
    = LoadDataManager.isNewUser m_data.
Proof.
  intros Hs.
  unfold LoadDataManager.getUserState, LoadDataManager.getQTable,
    LoadDataManager.isNewUser, LoadDataManager.saveUserState. cbn zeta.
  json_fields. cbn [toObject]. json_fields.
  split; [|done]. intros state0. by apply State_fromJson_toJson.
Qed.

Lemma user_state_round_trip_witness :
  is_int_state sample_state ∧
  LoadDataManager.getUserState (mkState 7 7 7)
    (LoadDataManager.saveUserState ∅ sample_state) = sample_state.
Proof.
  assert (is_int_state sample_state) as H by (vm_compute; intuition discriminate).
  split; [exact H|].
  exact (proj1 (user_state_round_trip ∅ sample_state H) (mkState 7 7 7)).
Defined.

(** A state key with two parts makes the loaded table undefined; a row
    without entries is not read back. *)
Example table_edge_cases :
  LoadDataManager.getQTable
    (<["qtable" := JObject (<["table" := JObject (<["[1,2]" := JObject ∅]> ∅)]> ∅)]> ∅)
    = None ∧
  LoadDataManager.getQTable
    (LoadDataManager.saveQTable ∅ (<[mkState 0 0 0 := ∅]> ∅)) = Some ∅.
Proof. vm_compute. split; reflexivity. Qed.

(** ** The loaded bank *)

Lemma load_topic_well_keyed tid tname questions questionBank :
  is_int tid → well_keyed questionBank →
  well_keyed (load_topic tid tname questions questionBank).
Proof.
  intros Ht. unfold load_topic. revert questionBank.
  induction questions as [|qValue questions IH]; intros questionBank Hb; [done|].
  cbn [fold_left]. apply IH.
  destruct qValue; try done.
  intros qid q [[<- <-]|[_ Hq]]%lookup_insert_Some; [|by apply Hb].
  cbn [questionID topicID difficulty].
  split_and!; [done|apply toInt_is_int|done|apply toInt_is_int].
Qed.

Lemma load_topics_well_keyed topics questionBank :
  well_keyed questionBank → well_keyed (load_topics topics questionBank).
Proof.
  unfold load_topics. revert questionBank.
  induction topics as [|topicValue topics IH]; intros questionBank Hb; [done|].
  cbn [fold_left]. apply IH.
  destruct topicValue; try done.
  cbv zeta. destruct (_ && _); [|done].
  apply load_topic_well_keyed; [apply toInt_is_int|done].
Qed.

Lemma loadQuestionsFromFile_well_keyed jsonDoc :
  well_keyed (loadQuestionsFromFile jsonDoc).
Proof.
  assert (well_keyed ∅) as Hempty by (by intros qid q Hq).
  unfold loadQuestionsFromFile.
  destruct jsonDoc as [[| | | | | |jsonObj]|]; try done.
  destruct (_ || _); [done|]. by apply load_topics_well_keyed.
Qed.

(** X20.  Every question of a loaded bank is stored under its own id, and
    its id, topic id and difficulty are [int]s, for any document; so the
    question that the quiz page shows first carries the id that was
    drawn. *)
Theorem loaded_bank_well_keyed (jsonDoc : option QJsonValue) :
  let questionBank := loadQuestionsFromFile jsonDoc in
  well_keyed questionBank ∧
  ∀ qTable userState r1 r2 r3 p,
    page_start questionBank qTable userState r1 r2 r3 = Some p →
    questionID (getQuestion (quiz p) (currentQuestionId p)) = currentQuestionId p.
Proof.
  intros questionBank.
  pose proof (loadQuestionsFromFile_well_keyed jsonDoc) as Hwk.
  fold questionBank in Hwk. split; [done|].
  intros qTable userState r1 r2 r3 p Hstart.
  unfold page_start, startQuiz in Hstart.
  case_bool_decide as Hbank; [done|]. cbn [mbind option_bind] in Hstart.
  destruct (getNextAction_defined (AdaptiveQuiz questionBank qTable userState)
              r1 r2 r3 Hbank) as (id & e' & Hnext & [q Hq] & _).
  rewrite Hnext in Hstart. cbn [mbind option_bind] in Hstart.
  injection Hstart as <-. cbn [quiz currentQuestionId].
  unfold getQuestion. rewrite (getNextAction_bank _ _ _ _ _ _ Hnext).
  cbn [questionBankByID AdaptiveQuiz] in *. rewrite Hq.
  by apply (Hwk id q).
Qed.

Example sample_document_bank :
  loadQuestionsFromFile (Some sample_document) =
  <[1 := mkQuestion 1 101 "first" "C4" "Note" 0 "notes"]>
    (<[2 := mkQuestion 2 101 "third" "C4" "Note" 0 "notes"]> ∅).
Proof. vm_compute. reflexivity. Qed.

(** ** The order of strings *)

Lemma String_compare_trans s1 s2 s3 :
  String.compare s1 s2 ≠ Gt → String.compare s2 s3 ≠ Gt →
  String.compare s1 s3 ≠ Gt.
Proof.
  revert s2 s3. induction s1 as [|a s1 IH]; intros [|b s2] [|c s3]; simpl;
    try done.
  unfold Ascii.compare.
  destruct (N.compare_spec (N_of_ascii a) (N_of_ascii b)) as [Hab|Hab|Hab];
    destruct (N.compare_spec (N_of_ascii b) (N_of_ascii c)) as [Hbc|Hbc|Hbc];
    destruct (N.compare_spec (N_of_ascii a) (N_of_ascii c)) as [Hac|Hac|Hac];
    try done; try lia.
  apply IH.
Qed.

#[local] Instance String_le_total : Total String_le.
Proof. intros s1 s2. apply String.leb_total. Qed.

#[local] Instance String_le_antisymm : AntiSymm (=) String_le.
Proof. intros s1 s2. apply String.leb_antisym. Qed.

#[local] Instance String_le_trans : Transitive String_le.
Proof.
  intros s1 s2 s3. unfold String_le, String.leb.
  pose proof (String_compare_trans s1 s2 s3) as H.
  destruct (String.compare s1 s2), (String.compare s2 s3),
    (String.compare s1 s3); try done; intros _ _; by exfalso; apply H.
Qed.

(** Sorting forgets the order of its input. *)
Lemma QStringList_sort_Permutation l1 l2 :
  l1 ≡ₚ l2 → QStringList_sort l1 = QStringList_sort l2.
Proof.
  intros Hp. unfold QStringList_sort.
  apply (StronglySorted_unique String_le).
  - apply (StronglySorted_merge_sort String_le).
  - apply (StronglySorted_merge_sort String_le).
  - by rewrite !merge_sort_Permutation.
Qed.

(** ** The notes played *)

Lemma handleKeyPressed_elem notes k n :
  n ∈ handleKeyPressed notes k ↔
  n ∈ notes ∨ (noteIndexToName k ≠ EmptyString ∧
               n = QString_chop 1 (noteIndexToName k) +:+ "4").
Proof.
  unfold handleKeyPressed. cbn zeta.
  case_bool_decide as Hname.
  { split; [by left|]. by intros [?|[? _]]. }
  case_bool_decide as Hin.
  - split; [by left|]. intros [?|[_ ->]]; done.
  - rewrite elem_of_app, list_elem_of_singleton. split.
    + intros [? | ->]; [by left|by right].
    + intros [?|[_ ->]]; [by left|by right].
Qed.

Lemma handleKeyPressed_NoDup notes k :
  NoDup notes → NoDup (handleKeyPressed notes k).
Proof.
  intros Hnd. unfold handleKeyPressed. cbn zeta.
  case_bool_decide; [done|]. case_bool_decide; [done|].
  apply NoDup_app. split_and!; [done| |apply NoDup_singleton].
  intros x Hx ->%list_elem_of_singleton. done.
Qed.

Lemma played_from_elem keys notes n :
  n ∈ fold_left handleKeyPressed keys notes ↔
  n ∈ notes ∨ ∃ k, k ∈ keys ∧ noteIndexToName k ≠ EmptyString ∧
                   n = QString_chop 1 (noteIndexToName k) +:+ "4".
Proof.
  revert notes. induction keys as [|k keys IH]; intros notes; simpl.
  - split; [by left|]. intros [?|(k & Hk & _)]; [done|].
    by apply elem_of_nil in Hk.
  - rewrite IH, handleKeyPressed_elem. split.
    + intros [[?|[? ->]]|(k' & Hk' & ? & ->)].
      * by left.
      * right. exists k. split_and!; [by left|done|done].
      * right. exists k'. split_and!; [by right|done|done].
    + intros [?|(k' & Hk' & ? & ->)]; [by left; left|].
      apply elem_of_cons in Hk' as [-> | Hk'].
      * left. by right.
      * right. by exists k'.
Qed.

Lemma played_from_NoDup keys notes :
  NoDup notes → NoDup (fold_left handleKeyPressed keys notes).
Proof.
  revert notes. induction keys as [|k keys IH]; intros notes Hnd; [done|].
  simpl. apply IH. by apply handleKeyPressed_NoDup.
Qed.

Lemma played_Permutation keys keys' :
  (∀ k, k ∈ keys ↔ k ∈ keys') → played keys ≡ₚ played keys'.
Proof.
  intros Hk. unfold played. apply NoDup_Permutation.
  - apply played_from_NoDup, NoDup_nil_2.
  - apply played_from_NoDup, NoDup_nil_2.
  - intros n. rewrite !played_from_elem.
    split; (intros [?|(k & Hin & Hname & ->)]; [by left|right]);
      exists k; (split; [by apply Hk|done]).
Qed.

(** X21.  The verdict on the notes played depends on which keys were
    pressed only, not on their order nor on how often a key was pressed;
    and the high C is recorded as the C. *)
Theorem chord_order_irrelevant (keys keys' : list Z) (expectedInput : string) :
  (∀ k, k ∈ keys ↔ k ∈ keys') →
  chord_correct (played keys) expectedInput
    = chord_correct (played keys') expectedInput ∧
  ∀ notes, handleKeyPressed notes 72 = handleKeyPressed notes 60.
Proof.
  intros Hk. split; [|done].
  unfold chord_correct, normalizedUserInput. cbn zeta.
  by rewrite (QStringList_sort_Permutation
                (map (QString_chop 1) (played keys))
                (map (QString_chop 1) (played keys')))
    by (apply fmap_Permutation, played_Permutation, Hk).
Qed.

(** ** Joining and splitting *)

Lemma all_chars_substring_0 p n s :
  all_chars p s = true → all_chars p (String.substring 0 n s) = true.
Proof.
  revert n. induction s as [|a s IH]; intros [|n]; simpl; try done.
  intros [Ha Hs]%andb_true_iff. by rewrite Ha, IH.
Qed.

Lemma QString_chop_dash_free n s : dash_free s → dash_free (QString_chop n s).
Proof.
  unfold dash_free, QString_chop. cbn zeta. intros Hs.
  destruct (_ <=? _); [done|]. destruct (0 <? n); [|done].
  by apply all_chars_substring_0.
Qed.

Lemma QString_split_dash_free s : Forall dash_free (QString_split "-" s).
Proof.
  induction s as [|a s IH]; simpl; [by repeat constructor|].
  destruct (Ascii.eqb a "-") eqn:Ha; [by constructor|].
  destruct (QString_split "-" s) as [|p ps].
  - constructor; [|done]. unfold dash_free. simpl. by rewrite Ha.
  - apply Forall_cons in IH as [Hp Hps]. constructor; [|done].
    unfold dash_free in *. simpl. by rewrite Ha, Hp.
Qed.

Lemma QString_split_join l :
  l ≠ [] → Forall dash_free l →
  QString_split "-" (QStringList_join "-" l) = l.
Proof.
  induction l as [|s l IH]; [done|]. intros _ [Hs Hl]%Forall_cons.
  destruct l as [|s' l].
  - simpl. by apply QString_split_one.
  - change (QStringList_join "-" (s :: s' :: l))
      with (s +:+ "-" +:+ QStringList_join "-" (s' :: l)).
    rewrite append_cons, append_nil_l.
    rewrite QString_split_app by done. by rewrite IH.
Qed.

Lemma QStringList_sort_nil l : QStringList_sort l = [] → l = [].
Proof.
  intros Hs. apply Permutation_nil_r. rewrite <-Hs.
  unfold QStringList_sort. by rewrite merge_sort_Permutation.
Qed.

Lemma QStringList_sort_dash_free l :
  Forall dash_free l → Forall dash_free (QStringList_sort l).
Proof.
  intros Hl. unfold QStringList_sort. by rewrite merge_sort_Permutation.
Qed.

(** Two lists of notes without the separator have the same normalised text
    exactly when one is a rearrangement of the other. *)
Lemma normalised_eq l1 l2 :
  l1 ≠ [] → l2 ≠ [] → Forall dash_free l1 → Forall dash_free l2 →
  QStringList_join "-" (QStringList_sort l1)
    = QStringList_join "-" (QStringList_sort l2) ↔ l1 ≡ₚ l2.
Proof.
  intros Hn1 Hn2 Hf1 Hf2. split.
  - intros Heq. apply (f_equal (QString_split "-")) in Heq.
    rewrite !QString_split_join in Heq;
      [|by intros ?%QStringList_sort_nil|by apply QStringList_sort_dash_free
       |by intros ?%QStringList_sort_nil|by apply QStringList_sort_dash_free].
    unfold QStringList_sort in Heq.
    rewrite <-(merge_sort_Permutation String_le l1),
            <-(merge_sort_Permutation String_le l2). by rewrite Heq.
  - intros Hp. by rewrite (QStringList_sort_Permutation l1 l2).
Qed.

(** ** Base notes *)

Lemma note_base k :
  noteIndexToName k ≠ EmptyString →
  QString_chop 1 (QString_chop 1 (noteIndexToName k) +:+ "4")
    = QString_chop 1 (noteIndexToName k) ∧
  dash_free (QString_chop 1 (noteIndexToName k)).
Proof.
  unfold noteIndexToName.
  repeat (destruct (k =? _); [by intros _; vm_compute|]).
  done.
Qed.

Lemma played_base n keys :
  n ∈ played keys →
  ∃ k, k ∈ keys ∧ noteIndexToName k ≠ EmptyString ∧
       n = QString_chop 1 (noteIndexToName k) +:+ "4" ∧
       QString_chop 1 n = QString_chop 1 (noteIndexToName k) ∧
       dash_free (QString_chop 1 n).
Proof.
  intros Hn. apply played_from_elem in Hn as [Hn|(k & Hk & Hname & ->)].
  { by apply elem_of_nil in Hn. }
  destruct (note_base k Hname) as [Hb Hf].
  exists k. split_and!; try done. by rewrite Hb.
Qed.

Lemma played_bases_NoDup keys : NoDup (map (QString_chop 1) (played keys)).
Proof.
  apply NoDup_fmap_2_strong.
  - intros n1 n2 Hn1 Hn2 Heq.
    destruct (played_base _ _ Hn1) as (k1 & _ & _ & -> & Hb1 & _).
    destruct (played_base _ _ Hn2) as (k2 & _ & _ & -> & Hb2 & _).
    rewrite Hb1, Hb2 in Heq. by rewrite Heq.
  - apply played_from_NoDup, NoDup_nil_2.
Qed.

Lemma played_bases_dash_free keys :
  Forall dash_free (map (QString_chop 1) (played keys)).
Proof.
  apply Forall_fmap, Forall_forall. intros n Hn.
  by destruct (played_base _ _ Hn) as (k & _ & _ & _ & _ & Hf).
Qed.

Lemma normalizedExpectedNotes_dash_free e :
  Forall dash_free (normalizedExpectedNotes e).
Proof.
  unfold normalizedExpectedNotes. cbn zeta. apply Forall_fmap.
  eapply Forall_impl; [apply QString_split_dash_free|].
  intros s Hs. simpl. destruct (_ && _); [by apply QString_chop_dash_free|done].
Qed.

Lemma normalizedExpectedNotes_nonempty e : normalizedExpectedNotes e ≠ [].
Proof.
  unfold normalizedExpectedNotes. cbn zeta.
  pose proof (QString_split_nonempty "-" e) as H.
  by destruct (QString_split "-" e).
Qed.

Lemma sample_keys_same : ∀ k, k ∈ sample_keys ↔ k ∈ sample_keys'.
Proof.
  intros k. unfold sample_keys, sample_keys'.
  rewrite !elem_of_cons, !elem_of_nil. intuition.
Qed.

(** X22.  An answer is judged correct exactly when the base notes played
    are a rearrangement of the base notes of the expected input; an
    expected input that names a base note twice is never answered
    correctly, since a note is recorded once. *)
Theorem chord_verdict (keys : list Z) (expectedInput : string) :
  played keys ≠ [] →
  (chord_correct (played keys) expectedInput = true ↔
   map (QString_chop 1) (played keys) ≡ₚ normalizedExpectedNotes expectedInput) ∧
  (¬ NoDup (normalizedExpectedNotes expectedInput) →
   chord_correct (played keys) expectedInput = false).
Proof.
  intros Hne.
  assert (chord_correct (played keys) expectedInput = true ↔
          map (QString_chop 1) (played keys)
            ≡ₚ normalizedExpectedNotes expectedInput) as Hiff.
  { unfold chord_correct, normalizedUserInput, normalizedExpectedInput.
    cbn zeta. rewrite bool_decide_eq_true. apply normalised_eq.
    - by destruct (played keys).
    - apply normalizedExpectedNotes_nonempty.
    - apply played_bases_dash_free.
    - apply normalizedExpectedNotes_dash_free. }
  split; [done|]. intros Hdup.
  apply not_true_is_false. intros Hc. apply Hdup.
  apply Hiff in Hc. rewrite <-Hc. apply played_bases_NoDup.
Qed.

Lemma chord_order_irrelevant_witness :
  (∀ k, k ∈ sample_keys ↔ k ∈ sample_keys') ∧
  chord_correct (played sample_keys) sample_chord
    = chord_correct (played sample_keys') sample_chord.
Proof.
  split; [exact sample_keys_same|].
  exact (proj1 (chord_order_irrelevant sample_keys sample_keys' sample_chord
                  sample_keys_same)).
Defined.

Lemma chord_verdict_witness :
  played sample_keys ≠ [] ∧
  (chord_correct (played sample_keys) sample_chord = true ↔
   map (QString_chop 1) (played sample_keys)
     ≡ₚ normalizedExpectedNotes sample_chord).
Proof.
  assert (played sample_keys ≠ []) as H by (by vm_compute).
  split; [exact H|]. exact (proj1 (chord_verdict sample_keys sample_chord H)).
Defined.

Example chord_examples :
  chord_correct (played [67; 60; 64]) "C4-E4-G4" = true ∧
  chord_correct (played [60; 64]) "C4-E4-G4" = false ∧
  chord_correct (played [72]) "C" = true ∧
  chord_correct (played [60; 72]) "C4-C5" = false.
Proof. vm_compute. repeat split. Qed.

(** ** The star rating *)

(** X23.  [rate] gives no star for an accuracy from 0.0 up to, but not
    including, 20.0, and five stars for every other value (a negative
    number, 20.0 or more, NaN): the lower bound of every level is the
    integer quotient 0, so one to four stars are never given. *)
Theorem rate_gives_no_or_five_stars (accuracy : spec_float) :
  rate accuracy =
    (if F32.leb F32.zero accuracy && F32.ltb accuracy (F32.of_int 20)
     then 0 else 5) ∧
  (rate accuracy = 0 ∨ rate accuracy = 5).
Proof.
  assert (rate accuracy =
            (if F32.leb F32.zero accuracy && F32.ltb accuracy (F32.of_int 20)
             then 0 else 5)) as Hrate.
  { unfold rate, rate_scan.
    change (F32.of_int ((20 * 0) ÷ 100)) with F32.zero.
    change (F32.of_int ((20 * 1) ÷ 100)) with F32.zero.
    change (F32.of_int ((20 * 2) ÷ 100)) with F32.zero.
    change (F32.of_int ((20 * 3) ÷ 100)) with F32.zero.
    change (F32.of_int ((20 * 4) ÷ 100)) with F32.zero.
    change (F32.add F32.zero (F32.of_int 20)) with (F32.of_int 20).
    cbn [Z.eqb Pos.eqb].
    by destruct (F32.leb F32.zero accuracy && F32.ltb accuracy (F32.of_int 20)). }
  split; [done|]. rewrite Hrate.
  destruct (_ && _); [by left|by right].
Qed.

(** ** The quiz report *)

Lemma history_of_entries state0 (l : list HistoryEntry) :
  Forall (λ h : HistoryEntry, is_int_state h.1.1.1 ∧ is_int h.1.1.2) l →
  QuizReport.history_of state0 (map QuizReport.entryObj_of l) = l.
Proof.
  unfold QuizReport.history_of.
  assert (∀ acc,
            Forall (λ h : HistoryEntry, is_int_state h.1.1.1 ∧ is_int h.1.1.2) l →
            fold_left
              (λ (history : list HistoryEntry) entryValue,
                 match entryValue with
                 | JObject entry =>
                     let state :=
                       if contains entry "state" && isObject (value entry "state")
                       then State_fromJson state0 (toObject (value entry "state"))
                       else state0 in
                     let questionID := toInt_or (-1) (value entry "questionID") in
                     let description := toString (value entry "description") in
                     let correct := toBool (value entry "correct") false in
                     history ++ [(state, questionID, description, correct)]
                 | _ => history
                 end)
              (map QuizReport.entryObj_of l) acc = acc ++ l) as Hgen.
  { induction l as [|[[[s qid] desc] c] l IH]; intros acc Hl.
    - by rewrite app_nil_r.
    - apply Forall_cons in Hl as [[Hs Hq] Hl]. simpl in Hs, Hq.
      cbn [map fold_left QuizReport.entryObj_of]. cbv zeta.
      json_fields. cbn [isObject toObject toString toBool andb].
      rewrite State_fromJson_toJson, toInt_or_of_int by done.
      rewrite IH by done. by rewrite <-app_assoc. }
  intros Hl. by rewrite Hgen.
Qed.

Lemma QuizReport_fromJson_all state0 r0 (v1 v2 v3 v4 : QJsonValue) arr :
  QuizReport.fromJson state0 r0
    (<["history" := JArray arr]> (<["correctAnswers" := v4]>
     (<["totalQuestions" := v3]> (<["accuracy" := v2]> (<["score" := v1]> ∅)))))
  = QuizReport.mk (double_to_float (toDouble v1)) (double_to_float (toDouble v2))
      (toInt v3) (toInt v4) (QuizReport.history_of state0 arr).
Proof.
  set (json := <["history" := JArray arr]> _).
  assert (contains json "score" = true ∧ contains json "accuracy" = true ∧
          contains json "totalQuestions" = true ∧
          contains json "correctAnswers" = true ∧ contains json "history" = true)
    as (C1 & C2 & C3 & C4 & C5) by (by vm_compute).
  assert (value json "score" = v1 ∧ value json "accuracy" = v2 ∧
          value json "totalQuestions" = v3 ∧ value json "correctAnswers" = v4 ∧
          value json "history" = JArray arr)
    as (H1 & H2 & H3 & H4 & H5) by (by vm_compute).
  clearbody json. unfold QuizReport.fromJson.
  rewrite C1, C2, C3, C4, C5, H1, H2, H3, H4, H5. reflexivity.
Qed.

(** X24.  A quiz report whose score and accuracy are binary32 numbers other
    than the negative zero, whose counters are [int]s and whose history
    holds [int] levels and ids is read back from its JSON record, history
    entries in order, whatever the receiving report and the uninitialised
    [State] held before. *)
Theorem quiz_report_round_trip (state0 : State) (r0 r : QuizReport.t) :
  QuizReport.storable_report r →
  QuizReport.fromJson state0 r0 (QuizReport.toJson r) = r.
Proof.
  intros ([Hs _] & [Ha _] & Ht & Hc & Hh). destruct r as [sc acc tq ca hist].
  cbn [QuizReport.score QuizReport.accuracy QuizReport.totalQuestions
       QuizReport.correctAnswers QuizReport.history] in *.
  unfold QuizReport.toJson. cbv zeta.
  cbn [QuizReport.score QuizReport.accuracy QuizReport.totalQuestions
       QuizReport.correctAnswers QuizReport.history].
  rewrite QuizReport_fromJson_all.
  unfold QJsonValue_double. cbn [toDouble].
  rewrite !double_to_float_of_float, !toInt_of_int by done.
  by rewrite history_of_entries.
Qed.

Lemma sample_report_eq :
  sample_report =
  QuizReport.mk F32.c10 (F32.of_int 100) 1 1 [(Demo.s0, 1, "play C"%string, true)].
Proof. vm_compute. reflexivity. Qed.

Lemma sample_report_storable : QuizReport.storable_report sample_report.
Proof.
  rewrite sample_report_eq. unfold QuizReport.storable_report.
  cbn [QuizReport.score QuizReport.accuracy QuizReport.totalQuestions
       QuizReport.correctAnswers QuizReport.history].
  assert (is_int 1) as H1 by (unfold is_int, INT_MIN, INT_MAX; lia).
  assert (is_int 0) as H0 by (unfold is_int, INT_MIN, INT_MAX; lia).
  split; [split; [by vm_compute|discriminate]|].
  split; [split; [by vm_compute|by vm_compute]|].
  split; [exact H1|]. split; [exact H1|].
  constructor; [|constructor]. split; [|exact H1].
  unfold is_int_state, Demo.s0. cbn [notes chords scales fst snd]. done.
Qed.

Lemma quiz_report_round_trip_witness :
  QuizReport.storable_report sample_report ∧
  QuizReport.fromJson (mkState 7 7 7) (QuizReport.mk F32.zero F32.zero 0 0 [])
    (QuizReport.toJson sample_report) = sample_report.
Proof.
  split; [exact sample_report_storable|].
  exact (quiz_report_round_trip (mkState 7 7 7)
           (QuizReport.mk F32.zero F32.zero 0 0 []) sample_report
           sample_report_storable).
Defined.
